(** * A heap model of the parser-combinator engine of [src/parser.js]

    Parsing units are JavaScript objects: they carry a mutable [result]
    buffer, they are copied with [Object.assign] (which shares that
    buffer), and the combinators allocate new units while a parse runs.
    The embedding therefore keeps an explicit store of unit objects and
    of Result buffers, and runs [parse], [process] and [copy] as
    state-passing functions over that store. *)

From Stdlib Require Import ZArith String Ascii.
From stdpp Require Import base list strings.

Open Scope string_scope.
Open Scope list_scope.

Set Warnings "-register-all".

(** ** JavaScript values *)

(** The values that flow through a grammar: inputs, parsed values and
    the arguments of the combinators.  [VFun k] is a host function
    (an operator of [chain], for instance), named by a handle. *)
Inductive value : Type :=
| VUndef
| VNull
| VBool (b : bool)
| VNum (z : Z)
| VStr (s : string)
| VArr (l : list value)
| VFun (k : nat).

(** Truthiness, as tested by [if (x)], [!x] and [x && y]. *)
Definition truthy (v : value) : bool :=
  match v with
  | VUndef | VNull => false
  | VBool b => b
  | VNum z => negb (Z.eqb z 0)
  | VStr s => negb (String.eqb s "")
  | VArr _ | VFun _ => true
  end.

(** [typeof v]. *)
Definition js_typeof (v : value) : string :=
  match v with
  | VUndef => "undefined"
  | VNull | VArr _ => "object"
  | VBool _ => "boolean"
  | VNum _ => "number"
  | VStr _ => "string"
  | VFun _ => "function"
  end.

(** What can go wrong in a run: a JavaScript [TypeError], a recursion
    that does not end within the given depth, or an operation outside
    the fragment of JavaScript that is modelled. *)
Inductive failure : Type := TypeError | OutOfFuel | Unmodelled.

(** [a === b].  Primitives compare by content and functions by handle.
    Arrays are objects and compare by identity, which a [VArr] does not
    carry: whether two arrays are the same object is outside the
    model.  An array is never equal to a value of another kind. *)
Definition strict_eq (a b : value) : failure + bool :=
  match a, b with
  | VArr _, VArr _ => inl Unmodelled
  | VUndef, VUndef | VNull, VNull => inr true
  | VBool x, VBool y => inr (Bool.eqb x y)
  | VNum x, VNum y => inr (Z.eqb x y)
  | VStr x, VStr y => inr (String.eqb x y)
  | VFun x, VFun y => inr (Nat.eqb x y)
  | _, _ => inr false
  end.

(** The [length] property: [inl] for a failure, [inr None] for
    [undefined], [inr (Some n)] for a number. *)
Definition js_length (v : value) : failure + option nat :=
  match v with
  | VUndef | VNull => inl TypeError
  | VBool _ | VNum _ => inr None
  | VStr s => inr (Some (String.length s))
  | VArr l => inr (Some (length l))
  | VFun _ => inl Unmodelled
  end.

(** [v[0]] and [v.slice(1)] on a string or an array. *)
Definition js_head (v : value) : failure + value :=
  match v with
  | VStr (String c _) => inr (VStr (String c ""))
  | VArr (x :: _) => inr x
  | VStr "" | VArr [] | VBool _ | VNum _ => inr VUndef
  | VUndef | VNull => inl TypeError
  | VFun _ => inl Unmodelled
  end.

Definition js_slice1 (v : value) : failure + value :=
  match v with
  | VStr (String _ s) => inr (VStr s)
  | VStr "" => inr (VStr "")
  | VArr l => inr (VArr (tail l))
  | _ => inl TypeError
  end.

(** [a + b], for two strings and for two numbers. *)
Definition js_add (a b : value) : failure + value :=
  match a, b with
  | VStr x, VStr y => inr (VStr (String.append x y))
  | VNum x, VNum y => inr (VNum (x + y))
  | _, _ => inl Unmodelled
  end.

(** A parameter that was left out is [undefined]; a default applies
    to [undefined] only. *)
Definition or_default (d v : value) : value :=
  match v with VUndef => d | _ => v end.

(** ** The helpers of [./util] *)

Inductive acc_kind : Type := AccString | AccArray.

(** Modelled from the spec: [util.accumulator] is not part of the
    source file; section 6 says it returns an empty accumulator that
    fits the kind of the first matched value (string-like or
    sequence-like), unless a type hint chooses one. *)
Definition accumulator (kind : string) (type : option acc_kind) : value :=
  match type with
  | Some AccString => VStr ""
  | Some AccArray => VArr []
  | None => if String.eqb kind "string" then VStr "" else VArr []
  end.

(** ** The store *)

(** Units and Result buffers are named by their index in the store. *)
Abbreviation loc := nat (only parsing).

(** A derivation: a value and the input that remains. *)
Abbreviation derivation := (value * value)%type (only parsing).

(** What a continuation hands back: a unit or a plain value. *)
Inductive cbres : Type :=
| RParser (p : loc)
| RValue (v : value).

(** The functions that [parser.js] passes to [then], one constructor
    per arrow function of the source, with the variables it closes
    over. *)
Inductive closure : Type :=
| CConst (next : cbres)
| CUser (f : value -> value -> cbres)
| CHost (k : nat)
| CSatisfy (condition : value -> failure + bool)
| CManyHead (this : loc) (type : option acc_kind)
| CManyTail (c : value) (type : option acc_kind)
| CStartsHead (this : loc) (value : value) (partial : bool)
| CStartsTail (head : value) (value : value) (partial : bool)
| CChainRest (this operation : loc)
| CChainOp (this operation : loc) (x : value)
| CChainNext (this operation : loc) (f x : value)
| CChainRightRest (this operation : loc)
| CChainRightOp (this operation : loc) (x : value)
| CChainRightNext (f x : value).

(** The classes of [parser.js] with their own fields.  [Unbuilt] is an
    object between [super()] and the assignments of its constructor. *)
Inductive pclass : Type :=
| Unbuilt
| ItemParser
| ZeroParser
| ResultParser (value : value)
| BindedParser (parser : loc) (cb : closure) (alwaysCheckSecond : bool)
| AddedParser (parsers : list loc)
| NegatedParser (parser : loc)
| LazyParser (parserFn : loc) (parser : option loc).

(** A unit object: the fields set by the constructor of [Parser] and
    the fields of its class. *)
Record pobj : Type := PObj {
  cls : pclass;
  result : loc;
  mapValues : option (value -> value)
}.

Record heap : Type := Heap {
  objs : list pobj;
  results : list (list derivation)
}.

Definition empty_heap : heap := Heap [] [].

(** ** State and failure *)

Inductive outcome (A : Type) : Type :=
| Ok (a : A) (h : heap)
| Fail (f : failure).
Arguments Ok {A} a h.
Arguments Fail {A} f.

Definition M (A : Type) : Type := heap -> outcome A.

Definition ret {A} (a : A) : M A := fun h => Ok a h.
Definition fail {A} (f : failure) : M A := fun _ => Fail f.
Definition bind {A B} (m : M A) (k : A -> M B) : M B :=
  fun h => match m h with
           | Ok a h' => k a h'
           | Fail f => Fail f
           end.

#[global] Instance M_ret : MRet M := @ret.
#[global] Instance M_bind : MBind M := fun A B k m => bind m k.

Definition lift {A} (x : failure + A) : M A :=
  match x with inl f => fail f | inr a => ret a end.

Definition get_obj (l : loc) : M pobj :=
  fun h => match objs h !! l with
           | Some o => Ok o h
           | None => Fail TypeError
           end.

Definition set_obj (l : loc) (o : pobj) : M unit :=
  fun h => Ok tt (Heap (<[l := o]> (objs h)) (results h)).

Definition set_result (l r : loc) : M unit :=
  o ← get_obj l; set_obj l (PObj (cls o) r (mapValues o)).

Definition set_cls (l : loc) (c : pclass) : M unit :=
  o ← get_obj l; set_obj l (PObj c (result o) (mapValues o)).

Definition set_mapValues (l : loc) (f : value -> value) : M unit :=
  o ← get_obj l; set_obj l (PObj (cls o) (result o) (Some f)).

Definition this_result (l : loc) : M loc :=
  o ← get_obj l; mret (result o).

(** ** Result buffers *)

(** Modelled from the spec: [./result] is not part of the source file.
    Section 3 gives a Result as an ordered sequence of derivations that
    supports appending a derivation, order-preserving concatenation,
    a transformation of the value components and iteration over pairs,
    and says that the buffer of a unit is mutated while [process] runs.
    [new Result(input)] is a new, empty buffer. *)
Definition Result_new : M loc :=
  fun h => Ok (length (results h)) (Heap (objs h) (results h ++ [[]])).

(** Modelled from the spec: the derivations of a Result, in order, as
    the iteration [for (const [value, string] of result)] visits them. *)
Definition Result_entries (r : loc) : M (list derivation) :=
  fun h => match results h !! r with
           | Some ds => Ok ds h
           | None => Fail TypeError
           end.

(** Modelled from the spec: [result.length], the number of
    derivations. *)
Definition Result_length (r : loc) : M nat :=
  ds ← Result_entries r; mret (length ds).

Definition Result_put (r : loc) (ds : list derivation) : M unit :=
  fun h => Ok tt (Heap (objs h) (<[r := ds]> (results h))).

(** Modelled from the spec: [result.push(value, rest)] appends the
    derivation to the buffer, in place, and returns the buffer. *)
Definition Result_push (r : loc) (v rest : value) : M loc :=
  ds ← Result_entries r; Result_put r (ds ++ [(v, rest)]);; mret r.

(** Modelled from the spec: [r1.concat(r2)] is a new Result with the
    derivations of [r1] followed by those of [r2]. *)
Definition Result_concat (r1 r2 : loc) : M loc :=
  ds1 ← Result_entries r1;
  ds2 ← Result_entries r2;
  r ← Result_new;
  Result_put r (ds1 ++ ds2);;
  mret r.

Definition map_entries (f : value -> value) (ds : list derivation) : list derivation :=
  map (fun d => (f (fst d), snd d)) ds.

(** [result.values = result.values.map(f)]: the values are replaced in
    the Result itself, the remainders stay. *)
Definition Result_map_values (r : loc) (f : value -> value) : M unit :=
  ds ← Result_entries r;
  Result_put r (map_entries f ds).

(** ** Constructors *)

Definition alloc_obj (o : pobj) : M loc :=
  fun h => Ok (length (objs h)) (Heap (objs h ++ [o]) (results h)).

(** [constructor ()] of [Parser]: a new object with a new Result and no
    mapping.  The class is the class of the object being built. *)
Definition Parser_new (c : pclass) : M loc :=
  r ← Result_new; alloc_obj (PObj c r None).

Definition Parser_result (v : value) : M loc := Parser_new (ResultParser v).
Definition Parser_zero : M loc := Parser_new ZeroParser.
Definition Parser_item : M loc := Parser_new ItemParser.
Definition Parser_lazy (fn : loc) : M loc := Parser_new (LazyParser fn None).

(** [[...].map(f)] with an effectful [f], left to right. *)
Fixpoint mapM {A B} (f : A -> M B) (xs : list A) : M (list B) :=
  match xs with
  | [] => mret []
  | x :: xs => y ← f x; ys ← mapM f xs; mret (y :: ys)
  end.

Section Constructors.
(** The [copy] method, tied below. *)
Variable copy : loc -> M loc.

(** The constructors of the derived classes: [super()], then the
    fields, the units being copied. *)
Definition BindedParser_new (parser : loc) (cb : closure) (acs : bool) : M loc :=
  l ← Parser_new Unbuilt;
  p ← copy parser;
  set_cls l (BindedParser p cb acs);;
  mret l.

Definition AddedParser_new (parsers : list loc) : M loc :=
  l ← Parser_new Unbuilt;
  ps ← mapM copy parsers;
  set_cls l (AddedParser ps);;
  mret l.

Definition NegatedParser_new (parser : loc) : M loc :=
  l ← Parser_new Unbuilt;
  p ← copy parser;
  set_cls l (NegatedParser p);;
  mret l.

(** [copy ()]: the method of the class of the object.  The method of
    [Parser] builds an object of the same class and assigns every own
    field of [this] to it, the [result] buffer included. *)
Definition copy_body (l : loc) : M loc :=
  o ← get_obj l;
  match cls o with
  | Unbuilt => fail TypeError
  | BindedParser p cb acs => BindedParser_new p cb acs
  | AddedParser ps => AddedParser_new ps
  | NegatedParser p => NegatedParser_new p
  | LazyParser fn (Some p) => copy p
  | LazyParser fn None => Parser_lazy fn
  | ItemParser | ZeroParser | ResultParser _ =>
      l' ← Parser_new (cls o); set_obj l' o;; mret l'
  end.
End Constructors.

(** [copy], to the depth [n] of nested units. *)
Fixpoint copy (n : nat) (l : loc) : M loc :=
  match n with
  | 0 => fail OutOfFuel
  | S n => copy_body (copy n) l
  end.

(** ** The combinators of [Parser] *)

(** The argument [next] of [then]: a function, a unit or a value. *)
Inductive next_arg : Type :=
| NextCb (c : closure)
| NextParser (p : loc)
| NextValue (v : value).

(** [parser instanceof Parser ? parser : Parser.result(parser)] *)
Definition parserOf (x : cbres) : M loc :=
  match x with
  | RParser p => mret p
  | RValue v => Parser_result v
  end.

Section Engine.
(** The host functions behind the handles of [VFun], called with two
    arguments. *)
Variable host : nat -> value -> value -> failure + value.

Definition call (f x y : value) : M value :=
  match f with
  | VFun k => lift (host k x y)
  | _ => fail TypeError
  end.

Definition then_ (n : nat) (this : loc) (next : next_arg) (acs : bool) : M loc :=
  match next with
  | NextValue VUndef => Parser_zero
  | NextCb c => BindedParser_new (copy n) this c acs
  | NextValue (VFun k) => BindedParser_new (copy n) this (CHost k) acs
  | NextParser p => BindedParser_new (copy n) this (CConst (RParser p)) acs
  | NextValue v => BindedParser_new (copy n) this (CConst (RValue v)) acs
  end.

Definition or_ (n : nat) (this : loc) (alternatives : list cbres) : M loc :=
  parsers ← mapM parserOf (RParser this :: alternatives);
  AddedParser_new (copy n) parsers.

Definition orNone (n : nat) (this : loc) (empty : value) : M loc :=
  or_ n this [RValue (or_default (VStr "") empty)].

Definition not_ (n : nat) (this : loc) : M loc :=
  NegatedParser_new (copy n) this.

Definition map_ (this : loc) (f : value -> value) : M loc :=
  set_mapValues this f;; mret this.

Definition satisfy (n : nat) (this : loc) (condition : value -> failure + bool) : M loc :=
  then_ n this (NextCb (CSatisfy condition)) false.

Definition filter (n : nat) (this : loc) (condition : value -> failure + bool) : M loc :=
  satisfy n this condition.

Definition many (n : nat) (this : loc) (type : option acc_kind) : M loc :=
  then_ n this (NextCb (CManyHead this type)) false.

Definition manyOrNone (n : nat) (this : loc) (empty : value)
    (type : option acc_kind) : M loc :=
  m ← many n this type;
  or_ n m [RValue (or_default (VStr "") empty)].

Definition equals (n : nat) (this : loc) (v : value) : M loc :=
  satisfy n this (strict_eq v).

Definition startsWith (n : nat) (this : loc) (v : value) (partial : bool) : M loc :=
  len ← lift (js_length v);
  match len with
  | None | Some 0 => Parser_zero
  | Some (S _) =>
      hd ← lift (js_head v);
      e ← equals n this hd;
      then_ n e (NextCb (CStartsHead this v partial)) false
  end.

Definition chain (n : nat) (this operation : loc) (def : cbres) : M loc :=
  parser ← then_ n this (NextCb (CChainRest this operation)) false;
  match def with
  | RValue VUndef => mret parser
  | _ => or_ n parser [def]
  end.

Definition chainRight (n : nat) (this operation : loc) (def : cbres) : M loc :=
  parser ← then_ n this (NextCb (CChainRightRest this operation)) false;
  if match def with RParser _ => true | RValue v => truthy v end
  then or_ n parser [def]
  else mret parser.

(** The body of each arrow function, applied to [(value, input)]. *)
Definition apply_cb (n : nat) (cb : closure) (v input : value) : M cbres :=
  match cb with
  | CConst next => mret next
  | CUser f => mret (f v input)
  | CHost k => r ← lift (host k v input); mret (RValue r)
  | CSatisfy condition =>
      b ← lift (condition v);
      if (b : bool) then mret (RValue v)
      else z ← Parser_zero; mret (RParser z)
  | CManyHead this type =>
      m ← manyOrNone n this (VStr "") type;
      t ← then_ n m (NextCb (CManyTail v type)) false;
      mret (RParser t)
  | CManyTail c type =>
      (* [c1.unshift(c)] on an array: the array with [c] in front *)
      let c1 := if truthy v then v else accumulator (js_typeof c) type in
      match c1 with
      | VStr _ => s ← lift (js_add c c1); p ← Parser_result s; mret (RParser p)
      | VArr l => p ← Parser_result (VArr (c :: l)); mret (RParser p)
      | _ => fail TypeError
      end
  | CStartsHead this value partial =>
      rest ← lift (js_slice1 value);
      s ← startsWith n this rest false;
      t ← then_ n s (NextCb (CStartsTail v value partial)) true;
      mret (RParser t)
  | CStartsTail head value partial =>
      partialValue ← lift (js_add head v);
      if partial then mret (RValue partialValue)
      else
        same ← lift (strict_eq partialValue value);
        if (same : bool) then mret (RValue value)
        else z ← Parser_zero; mret (RParser z)
  | CChainRest this operation =>
      t ← then_ n operation (NextCb (CChainOp this operation v)) false;
      o ← or_ n t [RValue v];
      mret (RParser o)
  | CChainOp this operation x =>
      t ← then_ n this (NextCb (CChainNext this operation v x)) false;
      mret (RParser t)
  | CChainNext this operation f x =>
      r ← call f x v;
      t ← then_ n operation (NextCb (CChainOp this operation r)) false;
      o ← or_ n t [RValue r];
      mret (RParser o)
  | CChainRightRest this operation =>
      t ← then_ n operation (NextCb (CChainRightOp this operation v)) false;
      o ← or_ n t [RValue v];
      mret (RParser o)
  | CChainRightOp this operation x =>
      c ← chainRight n this operation (RValue VUndef);
      t ← then_ n c (NextCb (CChainRightNext v x)) false;
      mret (RParser t)
  | CChainRightNext f x =>
      r ← call f x v; mret (RValue r)
  end.

(** [parserifyCb ()(value, input)] *)
Definition parserifyCb (n : nat) (cb : closure) (v input : value) : M loc :=
  r ← apply_cb n cb v input;
  nextParser ← parserOf r;
  copy n nextParser.

(** ** [parse] and [process] *)

Section Process.
Variable n : nat.
(** [parse] and [process] of the units called from a [process]. *)
Variable sub_parse sub_process : loc -> value -> M loc.

(** The loop of [BindedParser.process]. *)
Fixpoint binded_loop (l : loc) (cb : closure) (ds : list derivation) : M unit :=
  match ds with
  | [] => mret tt
  | (v, string) :: ds =>
      cur ← this_result l;
      next ← parserifyCb n cb v string;
      r ← sub_parse next string;
      new ← Result_concat cur r;
      set_result l new;;
      binded_loop l cb ds
  end.

(** The loop of [AddedParser.process]. *)
Fixpoint added_loop (l : loc) (parsers : list loc) (input : value) : M loc :=
  match parsers with
  | [] => this_result l
  | p :: parsers =>
      res ← sub_parse p input;
      len ← Result_length res;
      if (0 <? len)%nat then mret res else added_loop l parsers input
  end.

(** [process (input)], the method of the class of [this]. *)
Definition process_body (l : loc) (input : value) : M loc :=
  o ← get_obj l;
  match cls o with
  | Unbuilt => fail TypeError
  | ItemParser =>
      if truthy input then
        len ← lift (js_length input);
        match len with
        | Some (S _) =>
            hd ← lift (js_head input);
            tl ← lift (js_slice1 input);
            Result_push (result o) hd tl
        | _ => mret (result o)
        end
      else mret (result o)
  | ZeroParser => mret (result o)
  | ResultParser v =>
      Result_push (result o) (match v with VUndef => input | _ => v end) input
  | BindedParser p cb acs =>
      firstResult ← sub_parse p input;
      len ← Result_length firstResult;
      if acs && (len =? 0)%nat then
        next ← parserifyCb n cb (VStr "") input;
        sub_parse next input
      else
        ds ← Result_entries firstResult;
        binded_loop l cb ds;;
        this_result l
  | AddedParser ps => added_loop l ps input
  | NegatedParser p =>
      res ← sub_process p input;
      len ← Result_length res;
      r ← this_result l;
      if (0 <? len)%nat then mret r else Result_push r input input
  | LazyParser fn (Some p) =>
      c ← copy n p;
      sub_process c input
  | LazyParser fn None =>
      c ← copy n fn;
      set_cls l (LazyParser fn (Some c));;
      sub_process c input
  end.
End Process.

(** [parse (input)]: the buffer is replaced by a new one, [process]
    runs, and the Result it returns is stored, mapped when a mapping is
    registered, and returned. *)
Definition parse_with (proc : loc -> value -> M loc) (l : loc) (input : value) : M loc :=
  r0 ← Result_new;
  set_result l r0;;
  r ← proc l input;
  set_result l r;;
  o ← get_obj l;
  match mapValues o with
  | Some f => Result_map_values (result o) f
  | None => mret tt
  end;;
  this_result l.

(** [process] and [parse], to the depth [n] of nested calls. *)
Fixpoint process (n : nat) (l : loc) (input : value) : M loc :=
  match n with
  | 0 => fail OutOfFuel
  | S n => process_body n (parse_with (process n)) (process n) l input
  end.

Definition parse (n : nat) (l : loc) (input : value) : M loc :=
  parse_with (process n) l input.
End Engine.

(** ** Observing a run *)

(** A run from the empty store, keeping the value it returns. *)
Definition run {A} (m : M A) : failure + A :=
  match m empty_heap with
  | Ok a _ => inr a
  | Fail f => inl f
  end.

(** A host with one function: handle [0] is [(a, b) => a + b]. *)
Definition host0 (k : nat) (x y : value) : failure + value :=
  match k with
  | 0 => js_add x y
  | _ => inl TypeError
  end.

(** [unit.parse(input)], read as the list of its derivations. *)
Definition parse_entries (n : nat) (l : loc) (input : value) : M (list derivation) :=
  r ← parse host0 n l input; Result_entries r.

(** [Parser.item().many().parse(input)] *)
Definition item_many (input : string) : M (list derivation) :=
  it ← Parser_item;
  m ← many 20 it None;
  parse_entries 40 m (VStr input).

(** [Parser.item().manyOrNone().parse(input)] *)
Definition item_manyOrNone (input : string) : M (list derivation) :=
  it ← Parser_item;
  m ← manyOrNone 20 it VUndef None;
  parse_entries 40 m (VStr input).

(** [Parser.item().startsWith('')] *)
Definition startsWith_empty : M loc :=
  it ← Parser_item; startsWith 5 it (VStr "") false.

(** [p = item(); p.parse('a'); n = p.not()], then [n.parse('')] and
    [p.parse('')]. *)
Definition not_after_parse : M (list derivation * list derivation) :=
  p ← Parser_item;
  parse host0 3 p (VStr "a");;
  n ← not_ 3 p;
  a ← parse_entries 5 n (VStr "");
  b ← parse_entries 3 p (VStr "");
  mret (a, b).

(** [n = item().not()], then [n.parse('')], [n.parse('a')] and
    [n.parse('')] again. *)
Definition not_reused : M (list derivation * list derivation * list derivation) :=
  p ← Parser_item;
  n ← not_ 3 p;
  a ← parse_entries 5 n (VStr "");
  b ← parse_entries 5 n (VStr "a");
  c ← parse_entries 5 n (VStr "");
  mret (a, b, c).

(** [p = item().not(); c = p.copy()], then [c.parse('')], after
    [p.parse('a')] when [first] is set. *)
Definition copy_of_not (first : bool) : M (list derivation) :=
  p0 ← Parser_item;
  p ← not_ 3 p0;
  c ← copy 3 p;
  (if first then parse host0 5 p (VStr "a") else mret 0);;
  parse_entries 5 c (VStr "").

(** [p = item().then(x => x).map(f); c = p.copy()], then
    [p.parse('a')] and [c.parse('a')]. *)
Definition copy_of_mapped (f : value -> value) : M (list derivation * list derivation) :=
  p0 ← Parser_item;
  p ← then_ 3 p0 (NextCb (CUser (fun x _ => RValue x))) false;
  map_ p f;;
  c ← copy 3 p;
  a ← parse_entries 5 p (VStr "a");
  b ← parse_entries 5 c (VStr "a");
  mret (a, b).

(** [p = item(); p.parse('a'); c = p.copy()], then the buffer that [c]
    starts with. *)
Definition copy_after_parse : M (list derivation) :=
  p ← Parser_item;
  parse host0 3 p (VStr "a");;
  c ← copy 3 p;
  r ← this_result c;
  Result_entries r.

(** [l = Parser.lazy(() => item())], then [l.parse('ab')] and
    [l.parse('cd')]. *)
Definition lazy_item_twice : M (list derivation * list derivation) :=
  p ← Parser_item;
  l ← Parser_lazy p;
  a ← parse_entries 5 l (VStr "ab");
  b ← parse_entries 5 l (VStr "cd");
  mret (a, b).

(** [p = item(); p.parse('ab'); l = Parser.lazy(() => p)], then
    [l.parse('')]. *)
Definition lazy_of_used_item : M (list derivation) :=
  p ← Parser_item;
  parse host0 3 p (VStr "ab");;
  l ← Parser_lazy p;
  parse_entries 5 l (VStr "").

(** The operator unit [item().equals('+').then(() => (a, b) => a + b)]. *)
Definition plus_op (n : nat) : M loc :=
  it ← Parser_item;
  e ← equals n it (VStr "+");
  then_ n e (NextCb (CConst (RValue (VFun 0)))) false.

(** [item().chain(op, def).parse(input)], or [chainRight] when [right]
    is set. *)
Definition chain_on (right : bool) (def : value) (input : string) : M (list derivation) :=
  it ← Parser_item;
  op ← plus_op 20;
  c ← (if right then chainRight else chain) 20 it op (RValue def);
  parse_entries 40 c (VStr input).

(** ** Stores used to state the properties *)

(** The store once [parse] has given unit [l] a new, empty buffer. *)
Definition reset_heap (l : loc) (o : pobj) (h : heap) : heap :=
  Heap (<[l := PObj (cls o) (length (results h)) (mapValues o)]> (objs h))
       (results h ++ [[]]).

(** The store once [parse] has stored the Result [r] of [process] in
    unit [l]. *)
Definition stored_heap (l : loc) (o : pobj) (r : loc) (h : heap) : heap :=
  Heap (<[l := PObj (cls o) r (mapValues o)]> (objs h)) (results h).

(** ** Relations between stores *)

(** The units that a unit holds in its fields [parser] and [parsers]:
    the ones that its [process] runs as they are.  The units that a
    callback names, and the unit that the function of a lazy unit
    returns, are not among them. *)
Definition children (c : pclass) : list loc :=
  match c with
  | BindedParser p _ _ => [p]
  | AddedParser ps => ps
  | NegatedParser p => [p]
  | LazyParser _ (Some p) => [p]
  | _ => []
  end.

(** The classes that inherit [copy] from [Parser]. *)
Definition is_leaf (c : pclass) : bool :=
  match c with
  | ItemParser | ZeroParser | ResultParser _ => true
  | _ => false
  end.

(** [built h h']: the store [h'] is [h] with more units and buffers.
    Nothing of [h] has changed; the units that a new unit holds in
    its fields ([children]) are new, each allocated after it, and its
    buffer is new unless it is the buffer of a unit of [h] that it was
    copied from by [Object.assign]. *)
Record built (h h' : heap) : Prop := Built {
  built_objs : forall l o, objs h !! l = Some o -> objs h' !! l = Some o;
  built_results : forall r ds, results h !! r = Some ds -> results h' !! r = Some ds;
  built_new : forall l o,
    objs h' !! l = Some o -> length (objs h) <= l ->
    Forall (fun c => length (objs h) <= c /\ l < c) (children (cls o)) /\
    (length (results h) <= result o < length (results h') \/
     exists l0 o0, objs h !! l0 = Some o0 /\ result o0 = result o /\
                   is_leaf (cls o0) = true)
}.

(** [keeps_units h h']: every unit of [h] is a unit of [h'], with the
    mapping it had. *)
Definition keeps_units (h h' : heap) : Prop :=
  forall l o, objs h !! l = Some o ->
              exists o', objs h' !! l = Some o' /\ mapValues o' = mapValues o.

(** [owned ad oad r0 ds0 h]: in [h], unit [ad] is the object [oad] and
    the buffer [r0] holds [ds0]; no other unit has [r0] as its buffer;
    and neither [ad] nor a unit allocated after it holds a unit at or
    before [ad] in its fields. *)
Record owned (ad : loc) (oad : pobj) (r0 : loc) (ds0 : list derivation)
    (h : heap) : Prop := Owned {
  owned_closed : forall l o,
    objs h !! l = Some o -> ad <= l -> Forall (fun c => ad < c) (children (cls o));
  owned_unit : objs h !! ad = Some oad;
  owned_buffer : results h !! r0 = Some ds0;
  owned_alone : forall l o, objs h !! l = Some o -> result o = r0 -> l = ad
}.

(** ** The alternatives of a choice *)

(** [alternatives host n input ps h res h']: from the store [h], the
    units [ps] are parsed on [input] in order, up to the first whose
    Result is not empty.  Then [res] is that Result; it is [None] when
    every Result was empty.  [h'] is the store that is left. *)
Inductive alternatives (host : nat -> value -> value -> failure + value)
    (n : nat) (input : value) : list loc -> heap -> option loc -> heap -> Prop :=
| alt_none h : alternatives host n input [] h None h
| alt_here p ps h r h1 ds :
    parse host n p input h = Ok r h1 ->
    results h1 !! r = Some ds -> 0 < length ds ->
    alternatives host n input (p :: ps) h (Some r) h1
| alt_next p ps h r h1 res h2 :
    parse host n p input h = Ok r h1 ->
    results h1 !! r = Some [] ->
    alternatives host n input ps h1 res h2 ->
    alternatives host n input (p :: ps) h res h2.

(** ** Well-formed stores *)

(** The units that a unit holds in its fields were allocated after it,
    and its buffer exists. *)
Definition unit_ok (nres : nat) (l : loc) (o : pobj) : bool :=
  forallb (Nat.ltb l) (children (cls o)) && (result o <? nres)%nat.

Fixpoint units_ok (nres : nat) (l : loc) (os : list pobj) : bool :=
  match os with
  | [] => true
  | o :: os => unit_ok nres l o && units_ok nres (S l) os
  end.

Definition wf_heap (h : heap) : bool :=
  units_ok (length (results h)) 0 (objs h).

Definition well_formed (h : heap) : Prop :=
  forall l o, objs h !! l = Some o ->
    Forall (fun c => l < c) (children (cls o)) /\ result o < length (results h).

(** [item().or(item().equals('a'))] *)
Definition item_or_a : M loc :=
  it ← Parser_item;
  a ← equals 5 it (VStr "a");
  or_ 5 it [RParser a].

(** The unit and the store that [item_or_a] builds. *)
Definition item_or_a_unit : loc :=
  match item_or_a empty_heap with Ok l _ => l | Fail _ => 0 end.

Definition item_or_a_heap : heap :=
  match item_or_a empty_heap with Ok _ h => h | Fail _ => empty_heap end.

(** [a = item().then(x => x).map(f)], then [a.parse('a')] and
    [a.or('z').parse('a')]. *)
Definition or_of_mapped (f : value -> value) : M (list derivation * list derivation) :=
  p0 ← Parser_item;
  a ← then_ 3 p0 (NextCb (CUser (fun x _ => RValue x))) false;
  map_ a f;;
  r1 ← parse_entries 5 a (VStr "a");
  o ← or_ 3 a [RValue (VStr "z")];
  r2 ← parse_entries 5 o (VStr "a");
  mret (r1, r2).

(** [a = item().map(f)], then [a.parse('a')] and
    [a.or('z').parse('a')]. *)
Definition or_of_mapped_item (f : value -> value)
    : M (list derivation * list derivation) :=
  a ← Parser_item;
  map_ a f;;
  r1 ← parse_entries 5 a (VStr "a");
  o ← or_ 3 a [RValue (VStr "z")];
  r2 ← parse_entries 5 o (VStr "a");
  mret (r1, r2).

(** [p = item(); p.parse('ab')], then [p.process(input)]. *)
Definition process_after_parse (input : value) : M (list derivation) :=
  p ← Parser_item;
  parse host0 3 p (VStr "ab");;
  r ← process host0 3 p input;
  Result_entries r.

(** [keeps_classes h h']: every unit of [h] is a unit of [h'] with the
    mapping and the class it had, the fields of the class included;
    only a lazy unit without a definition may have got one. *)
Definition keeps_classes (h h' : heap) : Prop :=
  forall l o, objs h !! l = Some o ->
    exists o', objs h' !! l = Some o' /\ mapValues o' = mapValues o /\
               (cls o' = cls o \/
                exists fn c, cls o = LazyParser fn None /\
                             cls o' = LazyParser fn (Some c)).

(** [Parser.operations(...pairs)]: the reduction, from [Parser.zero()],
    by [parser.or(next[0].then(() => next[1]))]. *)
Fixpoint operations_from (n : nat) (parser : loc) (nexts : list (loc * cbres)) : M loc :=
  match nexts with
  | [] => mret parser
  | next :: nexts =>
      t ← then_ n (fst next) (NextCb (CConst (snd next))) false;
      o ← or_ n parser [RParser t];
      operations_from n o nexts
  end.

Definition Parser_operations (n : nat) (nexts : list (loc * cbres)) : M loc :=
  z ← Parser_zero; operations_from n z nexts.

(** ** The continuations of a [then] *)

(** [continuations host n l cb ds h rs h']: from the store [h], the
    loop of [BindedParser.process] of unit [l] runs over the
    derivations [ds]: for each [(value, string)], in order, the unit
    that the callback gives is parsed on [string] and the buffer of [l]
    is replaced by its concatenation with that Result.  [rs] collects
    the derivations of these parses, in order; [h'] is the store that
    is left. *)
Inductive continuations (host : nat -> value -> value -> failure + value)
    (n : nat) (l : loc) (cb : closure) :
    list derivation -> heap -> list derivation -> heap -> Prop :=
| cont_done h : continuations host n l cb [] h [] h
| cont_step v string ds h cur next h1 r h2 out new h3 h4 rest h5 :
    this_result l h = Ok cur h ->
    parserifyCb host n cb v string h = Ok next h1 ->
    parse host n next string h1 = Ok r h2 ->
    results h2 !! r = Some out ->
    Result_concat cur r h2 = Ok new h3 ->
    set_result l new h3 = Ok tt h4 ->
    continuations host n l cb ds h4 rest h5 ->
    continuations host n l cb ((v, string) :: ds) h (out ++ rest) h5.

(** [item().then((x) => x)] *)
Definition item_then_id : M loc :=
  it ← Parser_item;
  then_ 3 it (NextCb (CUser (fun x _ => RValue x))) false.

Definition item_then_id_heap : heap :=
  match item_then_id empty_heap with Ok _ h => h | Fail _ => empty_heap end.

(** [item().then(() => 'x', true)] *)
Definition item_then_x : M loc :=
  it ← Parser_item;
  then_ 3 it (NextCb (CConst (RValue (VStr "x")))) true.

Definition item_then_x_heap : heap :=
  match item_then_x empty_heap with Ok _ h => h | Fail _ => empty_heap end.

(** [item().equals(v).parse(input)] *)
Definition item_equals (n : nat) (v : value) (input : string) : M loc :=
  it ← Parser_item;
  e ← equals n it v;
  parse host0 n e (VStr input).

(** The store that [item().orNone()] builds. *)
Definition item_orNone_heap : heap :=
  match (it ← Parser_item; orNone 3 it VUndef) empty_heap with
  | Ok _ h => h
  | Fail _ => empty_heap
  end.

(** The store once [super()] has run in the constructor of a derived
    class: the new object is there with its buffer, its fields are not
    assigned yet. *)
Definition under_construction (h : heap) : heap :=
  Heap (objs h ++ [PObj Unbuilt (length (results h)) None]) (results h ++ [[]]).

(** ** The shape of a unit *)

(** The units under a unit, by class: a primitive unit, a [then] unit
    with its callback and flag, a choice of two units. *)
Inductive shape : Type :=
| SLeaf (c : pclass)
| SBinded (p : shape) (cb : closure) (acs : bool)
| SAdded (p q : shape).

(** [has_shape h sh l]: in the store [h], unit [l] and the units under
    it have the classes that [sh] gives, and none of them has a
    mapping. *)
Fixpoint has_shape (h : heap) (sh : shape) (l : loc) : Prop :=
  match sh with
  | SLeaf c =>
      is_leaf c = true /\
      exists o, objs h !! l = Some o /\ cls o = c /\ mapValues o = None
  | SBinded p cb acs =>
      exists o q, objs h !! l = Some o /\ cls o = BindedParser q cb acs /\
                  mapValues o = None /\ has_shape h p q
  | SAdded p q =>
      exists o p' q', objs h !! l = Some o /\ cls o = AddedParser [p'; q'] /\
                      mapValues o = None /\ has_shape h p p' /\ has_shape h q q'
  end.

(** The depth to which [copy] descends. *)
Fixpoint depth (sh : shape) : nat :=
  match sh with
  | SLeaf _ => 1
  | SBinded p _ _ => S (depth p)
  | SAdded p q => S (Nat.max (depth p) (depth q))
  end.

(** The unit of [this.many(type)] over an Item unit. *)
Definition many_shape (this : loc) (type : option acc_kind) : shape :=
  SBinded (SLeaf ItemParser) (CManyHead this type) false.

(** [item().many().parse(input)] and [item().manyOrNone().parse(input)],
    with the depth as a parameter. *)
Definition item_many_at (n : nat) (input : string) : M loc :=
  it ← Parser_item;
  m ← many 1 it None;
  parse host0 n m (VStr input).

Definition item_manyOrNone_at (n : nat) (input : string) : M loc :=
  it ← Parser_item;
  m ← manyOrNone 2 it VUndef None;
  parse host0 n m (VStr input).

(** ** Prefixes *)

(** The rest of [s] after [t], when [s] starts with [t]. *)
Fixpoint strip_prefix (t s : string) : option string :=
  match t with
  | "" => Some s
  | String c t' =>
      match s with
      | String d s' => if Ascii.eqb c d then strip_prefix t' s' else None
      | "" => None
      end
  end.

(** The unit of [this.startsWith(t, partial)] over an Item unit: the
    failure unit for the empty target, and otherwise the [then] unit
    over [this.equals(t[0])]. *)
Definition target_shape (this : loc) (t : string) (partial : bool) : shape :=
  match t with
  | "" => SLeaf ZeroParser
  | String c _ =>
      SBinded (SBinded (SLeaf ItemParser) (CSatisfy (strict_eq (VStr (String c "")))) false)
              (CStartsHead this (VStr t) partial) false
  end.

(** [item().startsWith(t, partial).parse(input)] *)
Definition item_startsWith (n : nat) (t : string) (partial : bool) (input : string) : M loc :=
  it ← Parser_item;
  u ← startsWith 2 it (VStr t) partial;
  parse host0 n u (VStr input).

(** [item().not().parse(input)] *)
Definition item_not (n : nat) (input : string) : M loc :=
  it ← Parser_item;
  u ← not_ 1 it;
  parse host0 n u (VStr input).

(** ** Operators given by one character *)

(** The value of the first pair of [ops] whose character is [d]. *)
Fixpoint first_op (ops : list (ascii * value)) (d : ascii) : option value :=
  match ops with
  | [] => None
  | (c, v) :: ops => if Ascii.eqb c d then Some v else first_op ops d
  end.

(** The pairs [[item().equals(c), v]], one for each [(c, v)] of [ops]. *)
Fixpoint tokens (ops : list (ascii * value)) : M (list (loc * cbres)) :=
  match ops with
  | [] => mret []
  | (c, v) :: ops =>
      it ← Parser_item;
      e ← equals 2 it (VStr (String c ""));
      nexts ← tokens ops;
      mret ((e, RValue v) :: nexts)
  end.

(** The unit of [item().equals(c)], and of [item().equals(c).then(() => v)]. *)
Definition token_shape (c : ascii) : shape :=
  SBinded (SLeaf ItemParser) (CSatisfy (strict_eq (VStr (String c "")))) false.

Definition operator_shape (c : ascii) (v : value) : shape :=
  SBinded (token_shape c) (CConst (RValue v)) false.

(** The unit that [Parser.operations] builds from the unit of shape
    [sh] and the pairs of [ops]. *)
Fixpoint operations_shape (sh : shape) (ops : list (ascii * value)) : shape :=
  match ops with
  | [] => sh
  | (c, v) :: ops => operations_shape (SAdded sh (operator_shape c v)) ops
  end.

(** [Parser.operations([item().equals('+'), f], [item().equals('-'), g])]
    parsed on [input], with [f] and [g] the host functions [0] and [1]. *)
Definition plus_minus (n : nat) (input : string) : M loc :=
  nexts ← tokens [("+"%char, VFun 0); ("-"%char, VFun 1)];
  u ← Parser_operations n nexts;
  parse host0 n u (VStr input).

(** ** Chains of one-character operands *)

(** The operands of [s], each one character after the operator
    character [c], applied from the left to [x] with [g]; and what is
    left of [s]. *)
Fixpoint chain_rest (g : value -> value -> value) (c : ascii) (x : value) (s : string)
    : value * string :=
  match s with
  | String c0 (String d s') =>
      if Ascii.eqb c c0 then chain_rest g c (g x (VStr (String d ""))) s' else (x, s)
  | _ => (x, s)
  end.

(** The derivation of that value; a value [undefined] is replaced by
    what is left. *)
Definition chain_result (g : value -> value -> value) (c : ascii) (x : value) (s : string)
    : list derivation :=
  let '(y, rest) := chain_rest g c x s in
  [(match y with VUndef => VStr rest | _ => y end, VStr rest)].

(** The unit that the continuation [rest(x)] of [chain] gives:
    [operation.then(...).or(x)]. *)
Definition chain_rest_shape (this operation : loc) (c : ascii) (f x : value) : shape :=
  SAdded (SBinded (operator_shape c f) (CChainOp this operation x) false)
         (SLeaf (ResultParser x)).

(** [item().chain(item().equals(c).then(() => f)).parse(input)], with
    [f] the host function [k]. *)
Definition chain_of_items (host : nat -> value -> value -> failure + value)
    (k : nat) (c : ascii) (n : nat) (input : string) : M loc :=
  it ← Parser_item;
  tk ← Parser_item;
  e ← equals 2 tk (VStr (String c ""));
  op ← then_ 3 e (NextCb (CConst (RValue (VFun k)))) false;
  u ← chain 1 it op (RValue VUndef);
  parse host n u (VStr input).

(** A host whose functions pair their arguments. *)
Definition host_pair (k : nat) (x y : value) : failure + value := inr (VArr [x; y]).

(** ** Chains to the right of one-character operands *)

(** The operands of [s], each one character after the operator
    character [c], applied from the right with [g], [x] being the
    first; and what is left of [s].  A value [undefined] is replaced by
    what is left, at each application. *)
Fixpoint chainRight_rest (g : value -> value -> value) (c : ascii) (x : value) (s : string)
    : value * string :=
  match s with
  | String c0 (String d s') =>
      if Ascii.eqb c c0
      then let '(y, rest) := chainRight_rest g c (VStr (String d "")) s' in
           (match g x y with VUndef => VStr rest | _ => g x y end, rest)
      else (match x with VUndef => VStr s | _ => x end, s)
  | _ => (match x with VUndef => VStr s | _ => x end, s)
  end.

Definition chainRight_result (g : value -> value -> value) (c : ascii) (x : value)
    (s : string) : list derivation :=
  let '(y, rest) := chainRight_rest g c x s in [(y, VStr rest)].

(** What the continuation [(y) => f(x, y)] makes of a derivation. *)
Definition chainRight_next (g : value -> value -> value) (x : value) (d : derivation)
    : list derivation :=
  let '(y, rest) := d in [(match g x y with VUndef => rest | _ => g x y end, rest)].

(** The unit that the continuation [rest(x)] of [chainRight] gives. *)
Definition chainRight_rest_shape (this operation : loc) (c : ascii) (f x : value) : shape :=
  SAdded (SBinded (operator_shape c f) (CChainRightOp this operation x) false)
         (SLeaf (ResultParser x)).

(** [item().chainRight(item().equals(c).then(() => f)).parse(input)],
    with [f] the host function [k]. *)
Definition chainRight_of_items (host : nat -> value -> value -> failure + value)
    (k : nat) (c : ascii) (n : nat) (input : string) : M loc :=
  it ← Parser_item;
  tk ← Parser_item;
  e ← equals 2 tk (VStr (String c ""));
  op ← then_ 3 e (NextCb (CConst (RValue (VFun k)))) false;
  u ← chainRight 1 it op (RValue VUndef);
  parse host n u (VStr input).

(** * Properties *)

(** ** Running the monad *)

Lemma bind_Ok {A B} (m : M A) (k : A -> M B) h b h' :
  (m ≫= k) h = Ok b h' ->
  exists a h1, m h = Ok a h1 /\ k a h1 = Ok b h'.
Proof.
  unfold mbind, M_bind, bind. destruct (m h) as [a h1|f]; [eauto|discriminate].
Qed.

Lemma bind_run {A B} (m : M A) (k : A -> M B) h a h1 :
  m h = Ok a h1 -> (m ≫= k) h = k a h1.
Proof. unfold mbind, M_bind, bind. now intros ->. Qed.

Lemma ret_bind {A B} (a : A) (k : A -> M B) h : (ret a ≫= k) h = k a h.
Proof. reflexivity. Qed.

Lemma lookup_snoc {A} (l : list A) (x : A) : (l ++ [x]) !! length l = Some x.
Proof. now rewrite lookup_app_r, Nat.sub_diag by lia. Qed.

Lemma bind_mret {A} (m : M A) h : (m ≫= mret) h = m h.
Proof. unfold mbind, M_bind, bind. now destruct (m h). Qed.

(** ** The primitive operations on the store *)

Lemma get_obj_run l h o : objs h !! l = Some o -> get_obj l h = Ok o h.
Proof. unfold get_obj. now intros ->. Qed.

Lemma get_obj_Ok l h o h' :
  get_obj l h = Ok o h' -> h' = h /\ objs h !! l = Some o.
Proof.
  unfold get_obj. destruct (objs h !! l); [|discriminate].
  intros [= -> ->]. auto.
Qed.

Lemma this_result_run l h o : objs h !! l = Some o -> this_result l h = Ok (result o) h.
Proof. intros H. unfold this_result. now rewrite (bind_run _ _ _ _ _ (get_obj_run _ _ _ H)). Qed.

Lemma set_result_run l r h o :
  objs h !! l = Some o ->
  set_result l r h = Ok tt (Heap (<[l := PObj (cls o) r (mapValues o)]> (objs h)) (results h)).
Proof. intros H. unfold set_result. now rewrite (bind_run _ _ _ _ _ (get_obj_run _ _ _ H)). Qed.

Lemma Result_entries_run r h ds : results h !! r = Some ds -> Result_entries r h = Ok ds h.
Proof. unfold Result_entries. now intros ->. Qed.

Lemma Result_length_run r h ds : results h !! r = Some ds -> Result_length r h = Ok (length ds) h.
Proof. intros H. unfold Result_length. now rewrite (bind_run _ _ _ _ _ (Result_entries_run _ _ _ H)). Qed.

Lemma Result_push_run r v rest h ds :
  results h !! r = Some ds ->
  Result_push r v rest h = Ok r (Heap (objs h) (<[r := ds ++ [(v, rest)]]> (results h))).
Proof. intros H. unfold Result_push. now rewrite (bind_run _ _ _ _ _ (Result_entries_run _ _ _ H)). Qed.

(** [parse] in three steps: the buffer is reset, [process] runs, and
    the Result it returns is stored and, under a mapping, mapped. *)
Lemma parse_with_run proc l input h o r h2 o2 :
  objs h !! l = Some o ->
  proc l input (reset_heap l o h) = Ok r h2 ->
  objs h2 !! l = Some o2 ->
  parse_with proc l input h =
    match mapValues o2 with
    | Some f =>
        match results h2 !! r with
        | Some ds =>
            Ok r (Heap (objs (stored_heap l o2 r h2))
                       (<[r := map_entries f ds]> (results h2)))
        | None => Fail TypeError
        end
    | None => Ok r (stored_heap l o2 r h2)
    end.
Proof.
  intros Hl Hp Hl2. unfold parse_with.
  rewrite (bind_run _ _ h (length (results h)) (Heap (objs h) (results h ++ [[]]))) by reflexivity.
  erewrite bind_run by (apply set_result_run; exact Hl).
  erewrite bind_run by exact Hp.
  erewrite bind_run by (apply set_result_run; exact Hl2).
  assert (Hl3 : objs (stored_heap l o2 r h2) !! l = Some (PObj (cls o2) r (mapValues o2))).
  { simpl. apply list_lookup_insert_eq. eapply lookup_lt_Some; eauto. }
  fold (stored_heap l o2 r h2).
  erewrite bind_run by (apply get_obj_run; exact Hl3).
  simpl mapValues. destruct (mapValues o2) as [f|].
  - simpl result. unfold Result_map_values.
    destruct (results h2 !! r) as [ds|] eqn:Hr.
    + erewrite bind_run.
      2:{ erewrite bind_run by (apply Result_entries_run; exact Hr). reflexivity. }
      erewrite this_result_run by (simpl; exact Hl3). reflexivity.
    + unfold mbind, M_bind, bind, Result_entries. simpl. now rewrite Hr.
  - erewrite bind_run by reflexivity.
    erewrite this_result_run by exact Hl3. reflexivity.
Qed.

(** ** [process] of the primitive units *)

Section Primitives.
Variable host : nat -> value -> value -> failure + value.

Lemma process_zero n l o input h :
  objs h !! l = Some o -> cls o = ZeroParser ->
  process host (S n) l input h = Ok (result o) h.
Proof.
  intros Hl Hc. simpl. unfold process_body.
  rewrite (bind_run _ _ _ _ _ (get_obj_run _ _ _ Hl)), Hc. reflexivity.
Qed.

Lemma process_item_falsy n l o input h :
  objs h !! l = Some o -> cls o = ItemParser -> truthy input = false ->
  process host (S n) l input h = Ok (result o) h.
Proof.
  intros Hl Hc Hi. simpl. unfold process_body.
  rewrite (bind_run _ _ _ _ _ (get_obj_run _ _ _ Hl)), Hc, Hi. reflexivity.
Qed.

Lemma process_item_string n l o c s h ds :
  objs h !! l = Some o -> cls o = ItemParser ->
  results h !! result o = Some ds ->
  process host (S n) l (VStr (String c s)) h =
    Ok (result o)
       (Heap (objs h) (<[result o := ds ++ [(VStr (String c ""), VStr s)]]> (results h))).
Proof.
  intros Hl Hc Hr. simpl. unfold process_body.
  rewrite (bind_run _ _ _ _ _ (get_obj_run _ _ _ Hl)), Hc. simpl.
  rewrite !ret_bind. now rewrite (Result_push_run _ _ _ _ _ Hr).
Qed.

Lemma process_result n l o v input h ds :
  objs h !! l = Some o -> cls o = ResultParser v ->
  results h !! result o = Some ds ->
  process host (S n) l input h =
    Ok (result o)
       (Heap (objs h)
             (<[result o := ds ++ [(match v with VUndef => input | _ => v end, input)]]>
                (results h))).
Proof.
  intros Hl Hc Hr. simpl. unfold process_body.
  rewrite (bind_run _ _ _ _ _ (get_obj_run _ _ _ Hl)), Hc.
  now rewrite (Result_push_run _ _ _ _ _ Hr).
Qed.

(** A unit whose [process] hands back its buffer untouched parses to
    the empty Result. *)
Lemma parse_idle n l o input h :
  objs h !! l = Some o ->
  (forall h1 o1, objs h1 !! l = Some o1 -> cls o1 = cls o ->
                 process host n l input h1 = Ok (result o1) h1) ->
  exists h', parse host n l input h = Ok (length (results h)) h' /\
             results h' !! length (results h) = Some [].
Proof.
  intros Hl Hp.
  assert (Hl0 : objs (reset_heap l o h) !! l
                = Some (PObj (cls o) (length (results h)) (mapValues o))).
  { simpl. apply list_lookup_insert_eq. eapply lookup_lt_Some; eauto. }
  unfold parse.
  rewrite (parse_with_run _ _ _ _ _ _ _ _ Hl (Hp _ _ Hl0 eq_refl) Hl0).
  simpl. destruct (mapValues o) as [f|].
  - rewrite lookup_snoc. eexists; split; [reflexivity|]. simpl.
    apply list_lookup_insert_eq. rewrite length_app. simpl. lia.
  - eexists; split; [reflexivity|]. simpl. apply lookup_snoc.
Qed.

Lemma parse_zero n l o input h :
  objs h !! l = Some o -> cls o = ZeroParser ->
  exists h', parse host (S n) l input h = Ok (length (results h)) h' /\
             results h' !! length (results h) = Some [].
Proof.
  intros Hl Hc. apply (parse_idle _ _ _ _ _ Hl).
  intros h1 o1 H1 Hc1. apply process_zero; congruence.
Qed.
End Primitives.

Lemma Parser_new_run c h :
  Parser_new c h =
    Ok (length (objs h))
       (Heap (objs h ++ [PObj c (length (results h)) None]) (results h ++ [[]])).
Proof. reflexivity. Qed.

(** [Parser.zero()] returns a new unit; [process] and [parse] of that
    unit yield the empty Result on every input. *)
Lemma Parser_zero_unit host (h : heap) :
  exists z h',
    Parser_zero h = Ok z h' /\
    (exists o, objs h' !! z = Some o /\ cls o = ZeroParser) /\
    forall m input,
      (exists r, process host (S m) z input h' = Ok r h' /\ results h' !! r = Some []) /\
      (exists r h'', parse host (S m) z input h' = Ok r h'' /\ results h'' !! r = Some []).
Proof.
  exists (length (objs h)). eexists. split; [apply Parser_new_run|].
  assert (Hz : objs (Heap (objs h ++ [PObj ZeroParser (length (results h)) None])
                          (results h ++ [[]])) !! length (objs h)
               = Some (PObj ZeroParser (length (results h)) None))
    by apply lookup_snoc.
  split; [eauto|]. intros m input. split.
  - eexists. split; [apply (process_zero host m _ _ input _ Hz eq_refl)|].
    apply lookup_snoc.
  - destruct (parse_zero host m _ _ input _ Hz eq_refl) as (h'' & Hp & Hr). eauto.
Qed.

(** ** Construction only adds to the store *)

Lemma kept_length {A} (xs ys : list A) :
  (forall i x, xs !! i = Some x -> ys !! i = Some x) -> length xs <= length ys.
Proof.
  intros H. destruct (decide (length xs <= length ys)) as [|Hn]; [assumption|].
  destruct (lookup_lt_is_Some_2 xs (length ys)) as [x Hx]; [lia|].
  apply H, lookup_lt_Some in Hx. lia.
Qed.

Lemma built_length_objs h h' : built h h' -> length (objs h) <= length (objs h').
Proof. intros [Ho _ _]. now apply kept_length. Qed.

Lemma built_length_results h h' : built h h' -> length (results h) <= length (results h').
Proof. intros [_ Hr _]. now apply kept_length. Qed.

Lemma built_refl h : built h h.
Proof.
  split; auto. intros l o Hl Hge. apply lookup_lt_Some in Hl. lia.
Qed.

Lemma built_trans h1 h2 h3 : built h1 h2 -> built h2 h3 -> built h1 h3.
Proof.
  intros B12 B23.
  pose proof (built_length_objs _ _ B12) as Lo.
  pose proof (built_length_results _ _ B12) as Lr.
  pose proof (built_length_results _ _ B23) as Lr'.
  destruct B12 as [O12 R12 N12], B23 as [O23 R23 N23].
  split; [auto|auto|]. intros l o Hl Hge.
  destruct (decide (l < length (objs h2))) as [Hlt|Hnlt].
  - destruct (lookup_lt_is_Some_2 _ _ Hlt) as [o2 Ho2].
    rewrite (O23 _ _ Ho2) in Hl. injection Hl as <-.
    destruct (N12 l o2 Ho2 Hge) as [Hc Hr]. split; [exact Hc|].
    destruct Hr as [Hr|Hr]; [left; lia|right; exact Hr].
  - destruct (N23 l o Hl) as [Hc Hr]; [lia|]. split.
    + eapply Forall_impl; [exact Hc|]. simpl. intros; lia.
    + destruct Hr as [Hr|(l0 & o0 & Hl0 & Hr0 & Hleaf)]; [left; lia|].
      destruct (decide (l0 < length (objs h1))) as [Hlt0|Hnlt0].
      * destruct (lookup_lt_is_Some_2 _ _ Hlt0) as [o1 Ho1].
        rewrite (O12 _ _ Ho1) in Hl0. injection Hl0 as <-. right; eauto.
      * destruct (N12 l0 o0 Hl0) as [_ Hr1]; [lia|]. rewrite <- Hr0.
        destruct Hr1 as [Hr1|(l1 & o1 & Hl1 & Hr1 & Hleaf1)]; [left; lia|].
        right; eauto.
Qed.

Lemma set_cls_Ok l c h u h' :
  set_cls l c h = Ok u h' ->
  exists o, objs h !! l = Some o /\
            h' = Heap (<[l := PObj c (result o) (mapValues o)]> (objs h)) (results h).
Proof.
  unfold set_cls. intros H. apply bind_Ok in H as (o & h1 & Hg & Hs).
  apply get_obj_Ok in Hg as [-> Hl]. injection Hs as _ <-. eauto.
Qed.

Lemma set_result_Ok l r h u h' :
  set_result l r h = Ok u h' ->
  exists o, objs h !! l = Some o /\
            h' = Heap (<[l := PObj (cls o) r (mapValues o)]> (objs h)) (results h).
Proof.
  unfold set_result. intros H. apply bind_Ok in H as (o & h1 & Hg & Hs).
  apply get_obj_Ok in Hg as [-> Hl]. injection Hs as _ <-. eauto.
Qed.

Lemma Parser_new_Ok c h l h' :
  Parser_new c h = Ok l h' ->
  l = length (objs h) /\
  h' = Heap (objs h ++ [PObj c (length (results h)) None]) (results h ++ [[]]).
Proof. rewrite Parser_new_run. intros [= <- <-]. auto. Qed.

Lemma Parser_new_built c h l h' :
  Parser_new c h = Ok l h' -> children c = [] ->
  built h h' /\ length (objs h) <= l.
Proof.
  intros H Hc. apply Parser_new_Ok in H as [-> ->]. split; [|lia].
  split; simpl.
  - intros l o Hl. rewrite lookup_app_l; [assumption|]. eapply lookup_lt_Some; eauto.
  - intros r ds Hr. rewrite lookup_app_l; [assumption|]. eapply lookup_lt_Some; eauto.
  - intros l o Hl Hge. pose proof (lookup_lt_Some _ _ _ Hl) as Hlt.
    rewrite length_app in Hlt. simpl in Hlt.
    assert (l = length (objs h)) as -> by lia.
    rewrite lookup_snoc in Hl. injection Hl as <-. simpl. rewrite Hc. split; [constructor|].
    left. rewrite length_app. simpl. lia.
Qed.

(** A constructor of a derived class: the object is allocated, its
    units are copied, and the fields are stored. *)
Lemma built_fill h l0 h1 h2 c u h' :
  Parser_new Unbuilt h = Ok l0 h1 ->
  built h1 h2 ->
  set_cls l0 c h2 = Ok u h' ->
  Forall (fun x => length (objs h1) <= x) (children c) ->
  built h h' /\ length (objs h) <= l0.
Proof.
  intros Hn B Hs Hc. apply Parser_new_Ok in Hn as [-> ->].
  apply set_cls_Ok in Hs as (o & Ho & ->).
  pose proof (built_objs _ _ B (length (objs h)) _ (lookup_snoc _ _)) as Ho'.
  simpl in Ho'. rewrite Ho in Ho'. injection Ho' as ->. simpl in *.
  pose proof (built_length_objs _ _ B) as Lo. simpl in Lo. rewrite length_app in Lo.
  pose proof (built_length_results _ _ B) as Lr. simpl in Lr. rewrite length_app in Lr.
  simpl in Lo, Lr. rewrite length_app in Hc. simpl in Hc.
  split; [|lia]. split; simpl.
  - intros l o Hl. pose proof (lookup_lt_Some _ _ _ Hl).
    rewrite list_lookup_insert_ne by lia.
    apply (built_objs _ _ B). simpl. now rewrite lookup_app_l.
  - intros r ds Hr. pose proof (lookup_lt_Some _ _ _ Hr).
    apply (built_results _ _ B). simpl. now rewrite lookup_app_l.
  - intros l o Hl Hge. destruct (decide (l = length (objs h))) as [->|Hne].
    + rewrite list_lookup_insert_eq in Hl by lia. injection Hl as <-. simpl. split.
      * eapply Forall_impl; [exact Hc|]. simpl. intros; lia.
      * left; lia.
    + rewrite list_lookup_insert_ne in Hl by lia.
      destruct (built_new _ _ B l o Hl) as [Hch Hr];
        [simpl; rewrite length_app; simpl; lia|]. simpl in Hch, Hr.
      rewrite !length_app in Hch. rewrite !length_app in Hr. simpl in Hch, Hr. split.
      * eapply Forall_impl; [exact Hch|]. simpl. intros; lia.
      * destruct Hr as [Hr|(l1 & o1 & Hl1 & Hr1 & Hleaf)]; [left; lia|].
        destruct (decide (l1 = length (objs h))) as [->|Hne1].
        -- rewrite lookup_snoc in Hl1. injection Hl1 as <-. discriminate.
        -- pose proof (lookup_lt_Some _ _ _ Hl1) as Hlt. rewrite length_app in Hlt.
           simpl in Hlt. rewrite lookup_app_l in Hl1 by lia. right; eauto.
Qed.

Section BuiltConstructors.
Variable copy' : loc -> M loc.
Hypothesis copy_built : forall p h a h',
  copy' p h = Ok a h' -> built h h' /\ length (objs h) <= a.

Lemma mapM_copy_built ps h qs h' :
  mapM copy' ps h = Ok qs h' ->
  built h h' /\ Forall (fun q => length (objs h) <= q) qs.
Proof.
  revert h qs h'. induction ps as [|p ps IH]; simpl; intros h qs h' H.
  - injection H as <- <-. split; [apply built_refl|constructor].
  - apply bind_Ok in H as (q & h1 & Hq & H).
    apply bind_Ok in H as (qs' & h2 & Hqs & H). injection H as <- <-.
    apply copy_built in Hq as [B1 Hq]. apply IH in Hqs as [B2 Hqs].
    pose proof (built_length_objs _ _ B1).
    split; [eapply built_trans; eauto|]. constructor; [assumption|].
    eapply Forall_impl; [exact Hqs|]. simpl. intros; lia.
Qed.

Lemma BindedParser_new_built p cb acs h l h' :
  BindedParser_new copy' p cb acs h = Ok l h' ->
  built h h' /\ length (objs h) <= l.
Proof.
  unfold BindedParser_new. intros H.
  apply bind_Ok in H as (l0 & h1 & Hn & H). apply bind_Ok in H as (q & h2 & Hq & H).
  apply bind_Ok in H as (u & h3 & Hs & H). injection H as <- <-.
  apply copy_built in Hq as [B Hq].
  eapply built_fill; eauto. simpl. auto.
Qed.

Lemma NegatedParser_new_built p h l h' :
  NegatedParser_new copy' p h = Ok l h' ->
  built h h' /\ length (objs h) <= l.
Proof.
  unfold NegatedParser_new. intros H.
  apply bind_Ok in H as (l0 & h1 & Hn & H). apply bind_Ok in H as (q & h2 & Hq & H).
  apply bind_Ok in H as (u & h3 & Hs & H). injection H as <- <-.
  apply copy_built in Hq as [B Hq].
  eapply built_fill; eauto. simpl. auto.
Qed.

Lemma AddedParser_new_built ps h l h' :
  AddedParser_new copy' ps h = Ok l h' ->
  built h h' /\ length (objs h) <= l.
Proof.
  unfold AddedParser_new. intros H.
  apply bind_Ok in H as (l0 & h1 & Hn & H). apply bind_Ok in H as (qs & h2 & Hq & H).
  apply bind_Ok in H as (u & h3 & Hs & H). injection H as <- <-.
  apply mapM_copy_built in Hq as [B Hq].
  eapply built_fill; eauto.
Qed.
End BuiltConstructors.

Lemma base_copy_built l o h l' h1 u h' :
  objs h !! l = Some o -> is_leaf (cls o) = true ->
  Parser_new (cls o) h = Ok l' h1 ->
  set_obj l' o h1 = Ok u h' ->
  built h h' /\ length (objs h) <= l'.
Proof.
  intros Hl Hleaf Hn Hs. apply Parser_new_Ok in Hn as [-> ->].
  injection Hs as _ <-. simpl. split; [|lia].
  assert (Hc : children (cls o) = []) by (destruct (cls o); try discriminate; reflexivity).
  split; simpl.
  - intros k x Hk. pose proof (lookup_lt_Some _ _ _ Hk).
    rewrite list_lookup_insert_ne by lia. now rewrite lookup_app_l.
  - intros r ds Hr. pose proof (lookup_lt_Some _ _ _ Hr). now rewrite lookup_app_l.
  - intros k x Hk Hge. pose proof (lookup_lt_Some _ _ _ Hk) as Hlt.
    rewrite length_insert, length_app in Hlt. simpl in Hlt.
    assert (k = length (objs h)) as -> by lia.
    rewrite list_lookup_insert_eq in Hk by (rewrite length_app; simpl; lia).
    injection Hk as <-. rewrite Hc. split; [constructor|]. right; eauto.
Qed.

(** Decomposing a run that ended well into the runs of its steps. *)
Ltac mbreak :=
  repeat match goal with
  | H : (_ ≫= _) _ = Ok _ _ |- _ =>
      let a := fresh "a" in let h := fresh "h" in let H1 := fresh "H" in
      apply bind_Ok in H as (a & h & H1 & H)
  | H : mret _ _ = Ok _ _ |- _ => unfold mret, M_ret, ret in H
  | H : ret _ _ = Ok _ _ |- _ => unfold ret in H
  | H : Ok _ _ = Ok _ _ |- _ => inversion H; subst; clear H
  | H : fail _ _ = Ok _ _ |- _ => discriminate H
  | H : Fail _ = Ok _ _ |- _ => discriminate H
  | H : lift ?x _ = Ok _ _ |- _ => destruct x eqn:?; simpl in H
  | H : (match ?x with _ => _ end) _ = Ok _ _ |- _ => destruct x eqn:?
  end.

Lemma copy_built n l h a h' :
  copy n l h = Ok a h' -> built h h' /\ length (objs h) <= a.
Proof.
  revert l h a h'. induction n as [|n IH]; intros l h a h' H; [discriminate|].
  simpl in H. unfold copy_body in H.
  apply bind_Ok in H as (o & h0 & Hg & H). apply get_obj_Ok in Hg as [-> Hl].
  destruct (cls o) as [| | |v|p cb acs|ps|p|fn cache] eqn:E.
  - discriminate.
  - rewrite <- E in H. mbreak. eapply base_copy_built; eauto. now rewrite E.
  - rewrite <- E in H. mbreak. eapply base_copy_built; eauto. now rewrite E.
  - rewrite <- E in H. mbreak. eapply base_copy_built; eauto. now rewrite E.
  - eapply BindedParser_new_built; eauto.
  - eapply AddedParser_new_built; eauto.
  - eapply NegatedParser_new_built; eauto.
  - destruct cache as [p|].
    + eauto.
    + apply Parser_new_built in H; auto.
Qed.

Create HintDb built discriminated.
#[export] Hint Resolve copy_built : built.

Lemma Parser_result_built v h l h' :
  Parser_result v h = Ok l h' -> built h h' /\ length (objs h) <= l.
Proof. intros H. now apply Parser_new_built in H. Qed.

Lemma Parser_zero_built h l h' :
  Parser_zero h = Ok l h' -> built h h' /\ length (objs h) <= l.
Proof. intros H. now apply Parser_new_built in H. Qed.

Lemma Parser_item_built h l h' :
  Parser_item h = Ok l h' -> built h h' /\ length (objs h) <= l.
Proof. intros H. now apply Parser_new_built in H. Qed.

Lemma Parser_lazy_built fn h l h' :
  Parser_lazy fn h = Ok l h' -> built h h' /\ length (objs h) <= l.
Proof. intros H. now apply Parser_new_built in H. Qed.

#[export] Hint Resolve Parser_result_built Parser_zero_built Parser_item_built
  Parser_lazy_built : built.

Lemma parserOf_built x h l h' : parserOf x h = Ok l h' -> built h h'.
Proof.
  destruct x; simpl; intros H.
  - mbreak. apply built_refl.
  - now apply Parser_result_built in H.
Qed.

Lemma mapM_parserOf_built xs h ls h' : mapM parserOf xs h = Ok ls h' -> built h h'.
Proof.
  revert h ls h'. induction xs as [|x xs IH]; simpl; intros h ls h' H; mbreak.
  - apply built_refl.
  - eapply built_trans; [eapply parserOf_built|]; eauto.
Qed.

#[export] Hint Resolve parserOf_built mapM_parserOf_built : built.

(** From the runs of the steps to the facts about the stores between
    them, and from those to the whole run. *)
Ltac built_facts :=
  repeat match goal with
  | H : _ ?h = Ok ?a ?h1 |- _ =>
      lazymatch goal with B : built h h1 |- _ => fail | _ => idtac end;
      first [ assert (built h h1 /\ length (objs h) <= a) as [? ?]
                by (eauto 2 with built)
            | assert (built h h1) by (eauto 2 with built) ];
      pose proof (built_length_objs h h1 ltac:(assumption))
  end.

Ltac built_solve :=
  repeat match goal with
  | |- built ?h ?h => apply built_refl
  | B : built ?h ?h' |- built ?h ?h' => exact B
  | B : built ?h ?h1 |- built ?h ?h' => apply (built_trans h h1 h' B)
  end.

Ltac built_auto := mbreak; built_facts; try (split; [built_solve|lia]); built_solve.

Lemma then_built n this next acs h l h' :
  then_ n this next acs h = Ok l h' -> built h h' /\ length (objs h) <= l.
Proof.
  unfold then_. intros H.
  destruct next as [c|p|v]; [| |destruct v];
    solve [ eapply BindedParser_new_built; eauto using copy_built
          | eapply Parser_zero_built; eauto ].
Qed.
#[export] Hint Resolve then_built : built.

Lemma or_built n this alts h l h' :
  or_ n this alts h = Ok l h' -> built h h' /\ length (objs h) <= l.
Proof.
  unfold or_. intros H. mbreak.
  pose proof (mapM_parserOf_built _ _ _ _ H0) as B1.
  eapply AddedParser_new_built in H as [B2 F]; eauto using copy_built.
  pose proof (built_length_objs _ _ B1).
  split; [eapply built_trans; eauto|lia].
Qed.
#[export] Hint Resolve or_built : built.

Lemma not_built n this h l h' :
  not_ n this h = Ok l h' -> built h h' /\ length (objs h) <= l.
Proof. apply NegatedParser_new_built. apply copy_built. Qed.

Lemma orNone_built n this empty h l h' :
  orNone n this empty h = Ok l h' -> built h h' /\ length (objs h) <= l.
Proof. apply or_built. Qed.

Lemma satisfy_built n this condition h l h' :
  satisfy n this condition h = Ok l h' -> built h h' /\ length (objs h) <= l.
Proof. apply then_built. Qed.

Lemma equals_built n this v h l h' :
  equals n this v h = Ok l h' -> built h h' /\ length (objs h) <= l.
Proof. apply then_built. Qed.

Lemma many_built n this type h l h' :
  many n this type h = Ok l h' -> built h h' /\ length (objs h) <= l.
Proof. apply then_built. Qed.
#[export] Hint Resolve not_built orNone_built satisfy_built equals_built many_built : built.

Lemma manyOrNone_built n this empty type h l h' :
  manyOrNone n this empty type h = Ok l h' -> built h h' /\ length (objs h) <= l.
Proof. unfold manyOrNone. intros H. built_auto. Qed.

Lemma startsWith_built n this v partial h l h' :
  startsWith n this v partial h = Ok l h' -> built h h' /\ length (objs h) <= l.
Proof. unfold startsWith. intros H. built_auto. Qed.

Lemma chain_built n this operation def h l h' :
  chain n this operation def h = Ok l h' -> built h h' /\ length (objs h) <= l.
Proof. unfold chain. intros H. built_auto. Qed.

Lemma chainRight_built n this operation def h l h' :
  chainRight n this operation def h = Ok l h' -> built h h' /\ length (objs h) <= l.
Proof. unfold chainRight. intros H. built_auto. Qed.
#[export] Hint Resolve manyOrNone_built startsWith_built chain_built chainRight_built : built.

Lemma apply_cb_built host n cb v input h x h' :
  apply_cb host n cb v input h = Ok x h' -> built h h'.
Proof. unfold apply_cb, call. intros H. destruct cb; built_auto. Qed.
#[export] Hint Resolve apply_cb_built : built.

Lemma parserifyCb_built host n cb v input h l h' :
  parserifyCb host n cb v input h = Ok l h' -> built h h' /\ length (objs h) <= l.
Proof. unfold parserifyCb. intros H. built_auto. Qed.
#[export] Hint Resolve parserifyCb_built : built.

(** ** A run keeps the units and their mappings *)

Lemma keeps_refl h : keeps_units h h.
Proof. intros l o H. eauto. Qed.

Lemma keeps_trans h1 h2 h3 : keeps_units h1 h2 -> keeps_units h2 h3 -> keeps_units h1 h3.
Proof.
  intros K1 K2 l o H. destruct (K1 _ _ H) as (o2 & H2 & E2).
  destruct (K2 _ _ H2) as (o3 & H3 & E3). exists o3. split; [assumption|congruence].
Qed.

Lemma built_keeps h h' : built h h' -> keeps_units h h'.
Proof. intros B l o H. exists o. split; [now apply (built_objs _ _ B)|reflexivity]. Qed.

Lemma same_objs_keeps h h' : objs h' = objs h -> keeps_units h h'.
Proof. intros E l o H. exists o. now rewrite E. Qed.

Lemma set_result_keeps l r h u h' : set_result l r h = Ok u h' -> keeps_units h h'.
Proof.
  intros H. apply set_result_Ok in H as (o & Ho & ->). intros k x Hk. simpl.
  destruct (decide (k = l)) as [->|Hne].
  - rewrite list_lookup_insert_eq by (eapply lookup_lt_Some; eauto).
    eexists; split; [reflexivity|]. simpl. congruence.
  - rewrite list_lookup_insert_ne by congruence. eauto.
Qed.

Lemma set_cls_keeps l c h u h' : set_cls l c h = Ok u h' -> keeps_units h h'.
Proof.
  intros H. apply set_cls_Ok in H as (o & Ho & ->). intros k x Hk. simpl.
  destruct (decide (k = l)) as [->|Hne].
  - rewrite list_lookup_insert_eq by (eapply lookup_lt_Some; eauto).
    eexists; split; [reflexivity|]. simpl. congruence.
  - rewrite list_lookup_insert_ne by congruence. eauto.
Qed.

Lemma Result_entries_Ok r h ds h' :
  Result_entries r h = Ok ds h' -> h' = h /\ results h !! r = Some ds.
Proof.
  unfold Result_entries. destruct (results h !! r); [|discriminate].
  intros [= -> ->]. auto.
Qed.

Lemma Result_length_Ok r h n h' :
  Result_length r h = Ok n h' ->
  h' = h /\ exists ds, results h !! r = Some ds /\ n = length ds.
Proof.
  unfold Result_length. intros H. mbreak. apply Result_entries_Ok in H0 as [-> Hr]. eauto.
Qed.

Lemma this_result_Ok l h r h' :
  this_result l h = Ok r h' -> h' = h /\ exists o, objs h !! l = Some o /\ r = result o.
Proof.
  unfold this_result. intros H. mbreak. apply get_obj_Ok in H0 as [-> Hl]. eauto.
Qed.

Lemma Result_push_Ok r v rest h a h' :
  Result_push r v rest h = Ok a h' ->
  a = r /\ exists ds, results h !! r = Some ds /\
                      h' = Heap (objs h) (<[r := ds ++ [(v, rest)]]> (results h)).
Proof.
  unfold Result_push. intros H. mbreak. apply Result_entries_Ok in H0 as [-> Hr].
  injection H1 as <-. eauto.
Qed.

Lemma Result_new_Ok h r h' :
  Result_new h = Ok r h' ->
  r = length (results h) /\ h' = Heap (objs h) (results h ++ [[]]).
Proof. intros [= <- <-]. auto. Qed.

Lemma Result_concat_Ok r1 r2 h a h' :
  Result_concat r1 r2 h = Ok a h' ->
  a = length (results h) /\
  exists ds1 ds2, results h !! r1 = Some ds1 /\ results h !! r2 = Some ds2 /\
                  h' = Heap (objs h) (results h ++ [ds1 ++ ds2]).
Proof.
  unfold Result_concat. intros H.
  apply bind_Ok in H as (ds1 & h1 & H1 & H). apply Result_entries_Ok in H1 as [-> Hr1].
  apply bind_Ok in H as (ds2 & h2 & H2 & H). apply Result_entries_Ok in H2 as [-> Hr2].
  apply bind_Ok in H as (r & h3 & H3 & H). apply Result_new_Ok in H3 as [-> ->].
  injection H as <- <-. split; [reflexivity|].
  exists ds1, ds2. repeat split; try assumption. simpl. f_equal.
  rewrite insert_app_r_alt by lia. now rewrite Nat.sub_diag.
Qed.

Lemma Result_map_values_Ok r f h u h' :
  Result_map_values r f h = Ok u h' ->
  exists ds, results h !! r = Some ds /\
             h' = Heap (objs h) (<[r := map_entries f ds]> (results h)).
Proof.
  unfold Result_map_values. intros H. mbreak. apply Result_entries_Ok in H0 as [-> Hr].
  injection H as <-. eauto.
Qed.

Lemma get_obj_keeps l h o h' : get_obj l h = Ok o h' -> keeps_units h h'.
Proof. intros H. apply get_obj_Ok in H as [-> _]. apply keeps_refl. Qed.

Lemma this_result_keeps l h r h' : this_result l h = Ok r h' -> keeps_units h h'.
Proof. intros H. apply this_result_Ok in H as [-> _]. apply keeps_refl. Qed.

Lemma Result_entries_keeps r h ds h' : Result_entries r h = Ok ds h' -> keeps_units h h'.
Proof. intros H. apply Result_entries_Ok in H as [-> _]. apply keeps_refl. Qed.

Lemma Result_length_keeps r h n h' : Result_length r h = Ok n h' -> keeps_units h h'.
Proof. intros H. apply Result_length_Ok in H as [-> _]. apply keeps_refl. Qed.

Lemma Result_push_keeps r v rest h a h' :
  Result_push r v rest h = Ok a h' -> keeps_units h h'.
Proof. intros H. apply Result_push_Ok in H as (_ & ds & _ & ->). now apply same_objs_keeps. Qed.

Lemma Result_concat_keeps r1 r2 h a h' :
  Result_concat r1 r2 h = Ok a h' -> keeps_units h h'.
Proof.
  intros H. apply Result_concat_Ok in H as (_ & ds1 & ds2 & _ & _ & ->).
  now apply same_objs_keeps.
Qed.

Lemma Result_map_values_keeps r f h u h' :
  Result_map_values r f h = Ok u h' -> keeps_units h h'.
Proof. intros H. apply Result_map_values_Ok in H as (ds & _ & ->). now apply same_objs_keeps. Qed.

Lemma Result_new_keeps h r h' : Result_new h = Ok r h' -> keeps_units h h'.
Proof. intros H. apply Result_new_Ok in H as [_ ->]. now apply same_objs_keeps. Qed.

Lemma copy_keeps n l h a h' : copy n l h = Ok a h' -> keeps_units h h'.
Proof. intros H. apply copy_built in H as [B _]. now apply built_keeps. Qed.

Lemma parserifyCb_keeps host n cb v input h l h' :
  parserifyCb host n cb v input h = Ok l h' -> keeps_units h h'.
Proof. intros H. apply parserifyCb_built in H as [B _]. now apply built_keeps. Qed.

Create HintDb keeps discriminated.
#[export] Hint Resolve set_result_keeps set_cls_keeps get_obj_keeps this_result_keeps
  Result_entries_keeps Result_length_keeps Result_push_keeps Result_concat_keeps
  Result_map_values_keeps Result_new_keeps copy_keeps parserifyCb_keeps : keeps.

Ltac keeps_facts :=
  repeat match goal with
  | H : _ ?h = Ok ?a ?h1 |- _ =>
      lazymatch goal with B : keeps_units h h1 |- _ => fail | _ => idtac end;
      assert (keeps_units h h1) by (eauto 2 with keeps)
  end.

Ltac keeps_solve :=
  repeat match goal with
  | |- keeps_units ?h ?h => apply keeps_refl
  | B : keeps_units ?h ?h' |- keeps_units ?h ?h' => exact B
  | B : keeps_units ?h ?h1 |- keeps_units ?h ?h' => apply (keeps_trans h h1 h' B)
  end.

Ltac keeps_auto := mbreak; keeps_facts; keeps_solve.

Section KeepsProcess.
Variable host : nat -> value -> value -> failure + value.
Variable n : nat.
Variable sub_parse sub_process : loc -> value -> M loc.
Hypothesis sub_parse_keeps : forall l input h r h',
  sub_parse l input h = Ok r h' -> keeps_units h h'.
Hypothesis sub_process_keeps : forall l input h r h',
  sub_process l input h = Ok r h' -> keeps_units h h'.

Lemma binded_loop_keeps l cb ds h u h' :
  binded_loop host n sub_parse l cb ds h = Ok u h' -> keeps_units h h'.
Proof.
  revert h u h'. induction ds as [|[v s] ds IH]; simpl; intros h u h' H.
  - keeps_auto.
  - mbreak. apply IH in H. keeps_auto.
Qed.

Lemma added_loop_keeps l ps input h r h' :
  added_loop sub_parse l ps input h = Ok r h' -> keeps_units h h'.
Proof.
  revert h r h'. induction ps as [|p ps IH]; simpl; intros h r h' H.
  - keeps_auto.
  - mbreak; [|apply IH in H]; keeps_auto.
Qed.

Lemma process_body_keeps l input h r h' :
  process_body host n sub_parse sub_process l input h = Ok r h' -> keeps_units h h'.
Proof.
  unfold process_body. intros H.
  pose proof binded_loop_keeps. pose proof added_loop_keeps.
  keeps_auto.
Qed.
End KeepsProcess.

Lemma parse_with_keeps proc l input h r h' :
  (forall l input h r h', proc l input h = Ok r h' -> keeps_units h h') ->
  parse_with proc l input h = Ok r h' -> keeps_units h h'.
Proof. unfold parse_with. intros Hp H. keeps_auto. Qed.

Lemma process_keeps host n l input h r h' :
  process host n l input h = Ok r h' -> keeps_units h h'.
Proof.
  revert l input h r h'. induction n as [|n IH]; intros l input h r h' H; [discriminate|].
  simpl in H. eapply process_body_keeps; [| |exact H]; [|exact IH].
  intros. eapply parse_with_keeps; eauto.
Qed.

Lemma parse_keeps host n l input h r h' :
  parse host n l input h = Ok r h' -> keeps_units h h'.
Proof. apply parse_with_keeps. apply process_keeps. Qed.

(** ** A unit that is not called keeps its buffer *)

Section Owned.
Variable ad : loc.
Variable oad : pobj.
Variable r0 : loc.
Variable ds0 : list derivation.
Hypothesis not_leaf : is_leaf (cls oad) = false.

#[local] Abbreviation own := (owned ad oad r0 ds0).

Lemma owned_unit_lt h : own h -> ad < length (objs h).
Proof. intros I. eapply lookup_lt_Some, owned_unit; eauto. Qed.

Lemma owned_buffer_lt h : own h -> r0 < length (results h).
Proof. intros I. eapply lookup_lt_Some, owned_buffer; eauto. Qed.

Lemma built_owned h h' : built h h' -> own h -> own h'.
Proof.
  intros B I. pose proof (owned_unit_lt _ I). pose proof (owned_buffer_lt _ I).
  destruct I as [Hc Hu Hb Ha]. split.
  - intros l o Hl Hge. destruct (decide (l < length (objs h))) as [Hlt|Hnlt].
    + destruct (lookup_lt_is_Some_2 _ _ Hlt) as [o1 Ho1].
      rewrite (built_objs _ _ B _ _ Ho1) in Hl. injection Hl as <-. eauto.
    + destruct (built_new _ _ B l o Hl) as [Hch _]; [lia|].
      eapply Forall_impl; [exact Hch|]. simpl. intros; lia.
  - now apply (built_objs _ _ B).
  - now apply (built_results _ _ B).
  - intros l o Hl Hr. destruct (decide (l < length (objs h))) as [Hlt|Hnlt].
    + destruct (lookup_lt_is_Some_2 _ _ Hlt) as [o1 Ho1].
      rewrite (built_objs _ _ B _ _ Ho1) in Hl. injection Hl as <-. eauto.
    + destruct (built_new _ _ B l o Hl) as [_ [Hn|(l0 & o0 & Hl0 & Hr0 & Hleaf)]]; [lia|lia|].
      assert (l0 = ad) as -> by (eapply Ha; eauto; congruence).
      rewrite Hu in Hl0. injection Hl0 as <-. congruence.
Qed.

Lemma built_owned_fresh h h' a :
  built h h' /\ length (objs h) <= a -> own h -> own h' /\ ad < a.
Proof.
  intros [B F] I. split; [eapply built_owned; eauto|].
  pose proof (owned_unit_lt _ I). lia.
Qed.

Lemma set_result_owned l r h u h' :
  set_result l r h = Ok u h' -> own h -> ad < l -> r <> r0 -> own h'.
Proof.
  intros H [Hc Hu Hb Ha] Hl Hr. apply set_result_Ok in H as (o & Ho & ->).
  split; simpl; [| |assumption|].
  - intros k x Hk Hge. destruct (decide (k = l)) as [->|Hne].
    + rewrite list_lookup_insert_eq in Hk by (eapply lookup_lt_Some; eauto).
      injection Hk as <-. simpl. eauto.
    + rewrite list_lookup_insert_ne in Hk by congruence. eauto.
  - rewrite list_lookup_insert_ne by lia. assumption.
  - intros k x Hk Hx. destruct (decide (k = l)) as [->|Hne].
    + rewrite list_lookup_insert_eq in Hk by (eapply lookup_lt_Some; eauto).
      injection Hk as <-. simpl in Hx. congruence.
    + rewrite list_lookup_insert_ne in Hk by congruence. eauto.
Qed.

Lemma set_cls_owned l c h u h' :
  set_cls l c h = Ok u h' -> own h -> ad < l ->
  Forall (fun x => ad < x) (children c) -> own h'.
Proof.
  intros H [Hc Hu Hb Ha] Hl Hch. apply set_cls_Ok in H as (o & Ho & ->).
  split; simpl; [| |assumption|].
  - intros k x Hk Hge. destruct (decide (k = l)) as [->|Hne].
    + rewrite list_lookup_insert_eq in Hk by (eapply lookup_lt_Some; eauto).
      injection Hk as <-. simpl. assumption.
    + rewrite list_lookup_insert_ne in Hk by congruence. eauto.
  - rewrite list_lookup_insert_ne by lia. assumption.
  - intros k x Hk Hx. destruct (decide (k = l)) as [->|Hne].
    + rewrite list_lookup_insert_eq in Hk by (eapply lookup_lt_Some; eauto).
      injection Hk as <-. simpl in Hx. eauto.
    + rewrite list_lookup_insert_ne in Hk by congruence. eauto.
Qed.

Lemma put_owned h r ds : own h -> r <> r0 -> own (Heap (objs h) (<[r := ds]> (results h))).
Proof.
  intros [Hc Hu Hb Ha] Hr. split; simpl; try assumption.
  rewrite list_lookup_insert_ne by congruence. assumption.
Qed.

Lemma snoc_owned h ds : own h -> own (Heap (objs h) (results h ++ [ds])).
Proof.
  intros I. pose proof (owned_buffer_lt _ I). destruct I as [Hc Hu Hb Ha].
  split; simpl; try assumption. rewrite lookup_app_l by assumption. assumption.
Qed.

Lemma Result_new_owned h r h' : Result_new h = Ok r h' -> own h -> own h' /\ r <> r0.
Proof.
  intros H I. apply Result_new_Ok in H as [-> ->]. pose proof (owned_buffer_lt _ I).
  split; [now apply snoc_owned|lia].
Qed.

Lemma Result_concat_owned r1 r2 h a h' :
  Result_concat r1 r2 h = Ok a h' -> own h -> own h' /\ a <> r0.
Proof.
  intros H I. apply Result_concat_Ok in H as (-> & ds1 & ds2 & _ & _ & ->).
  pose proof (owned_buffer_lt _ I). split; [now apply snoc_owned|lia].
Qed.

Lemma Result_push_owned r v rest h a h' :
  Result_push r v rest h = Ok a h' -> own h -> r <> r0 -> own h' /\ a <> r0.
Proof.
  intros H I Hr. apply Result_push_Ok in H as (-> & ds & _ & ->).
  split; [now apply put_owned|assumption].
Qed.

Lemma Result_map_values_owned r f h u h' :
  Result_map_values r f h = Ok u h' -> own h -> r <> r0 -> own h'.
Proof.
  intros H I Hr. apply Result_map_values_Ok in H as (ds & _ & ->). now apply put_owned.
Qed.

Lemma Result_entries_owned r h ds h' : Result_entries r h = Ok ds h' -> own h -> own h'.
Proof. intros H I. now apply Result_entries_Ok in H as [-> _]. Qed.

Lemma Result_length_owned r h n h' : Result_length r h = Ok n h' -> own h -> own h'.
Proof. intros H I. now apply Result_length_Ok in H as [-> _]. Qed.

Lemma get_obj_owned l h o h' :
  get_obj l h = Ok o h' -> own h -> ad < l ->
  own h' /\ result o <> r0 /\ Forall (fun c => ad < c) (children (cls o)).
Proof.
  intros H I Hl. apply get_obj_Ok in H as [-> Ho]. split; [assumption|]. split.
  - intros E. pose proof (owned_alone _ _ _ _ _ I _ _ Ho E). lia.
  - eapply (owned_closed _ _ _ _ _ I); eauto. lia.
Qed.

Lemma this_result_owned l h r h' :
  this_result l h = Ok r h' -> own h -> ad < l -> own h' /\ r <> r0.
Proof.
  intros H I Hl. apply this_result_Ok in H as (-> & o & Ho & ->). split; [assumption|].
  intros E. pose proof (owned_alone _ _ _ _ _ I _ _ Ho E). lia.
Qed.

Lemma copy_owned n l h a h' : copy n l h = Ok a h' -> own h -> own h' /\ ad < a.
Proof. intros H. apply built_owned_fresh. eapply copy_built; eauto. Qed.

Lemma parserifyCb_owned host n cb v input h a h' :
  parserifyCb host n cb v input h = Ok a h' -> own h -> own h' /\ ad < a.
Proof. intros H. apply built_owned_fresh. eapply parserifyCb_built; eauto. Qed.

Create HintDb owned discriminated.
#[local] Hint Resolve set_result_owned set_cls_owned Result_new_owned Result_concat_owned
  Result_push_owned Result_map_values_owned Result_entries_owned Result_length_owned
  get_obj_owned this_result_owned copy_owned parserifyCb_owned : owned.
#[local] Hint Extern 1 (Forall _ (children _)) =>
  simpl; repeat constructor; assumption : owned.

Ltac owned_facts :=
  repeat match goal with
  | I : own ?h, H : _ ?h = Ok ?a ?h1 |- _ =>
      lazymatch goal with I1 : own h1 |- _ => fail | _ => idtac end;
      first [ assert (own h1 /\ a <> r0) as [? ?] by (eauto 3 with owned)
            | assert (own h1 /\ ad < a) as [? ?] by (eauto 3 with owned)
            | assert (own h1 /\ result a <> r0 /\
                      Forall (fun c => ad < c) (children (cls a))) as (? & ? & ?)
                by (eauto 3 with owned)
            | assert (own h1) by (eauto 3 with owned) ]
  end.

Section OwnedProcess.
Variable host : nat -> value -> value -> failure + value.
Variable n : nat.
Variable sub_parse sub_process : loc -> value -> M loc.
Hypothesis sub_parse_owned : forall l input h r h',
  sub_parse l input h = Ok r h' -> own h -> ad < l -> own h' /\ r <> r0.
Hypothesis sub_process_owned : forall l input h r h',
  sub_process l input h = Ok r h' -> own h -> ad < l -> own h' /\ r <> r0.

Lemma binded_loop_owned l cb ds h u h' :
  binded_loop host n sub_parse l cb ds h = Ok u h' -> own h -> ad < l -> own h'.
Proof.
  revert h u h'. induction ds as [|[v s] ds IH]; simpl; intros h u h' H I Hl.
  - mbreak. assumption.
  - mbreak. owned_facts. eauto.
Qed.

Lemma added_loop_owned l ps input h r h' :
  added_loop sub_parse l ps input h = Ok r h' -> own h -> ad < l ->
  Forall (fun c => ad < c) ps -> own h' /\ r <> r0.
Proof.
  revert h r h'. induction ps as [|p ps IH]; simpl; intros h r h' H I Hl Hps.
  - eapply this_result_owned; eauto.
  - apply Forall_cons_1 in Hps as [Hp Hps]. mbreak; owned_facts; eauto.
Qed.

Lemma process_body_owned l input h r h' :
  process_body host n sub_parse sub_process l input h = Ok r h' ->
  own h -> ad < l -> own h' /\ r <> r0.
Proof.
  unfold process_body. intros H I Hl.
  apply bind_Ok in H as (o & h0 & Hg & H).
  destruct (get_obj_owned _ _ _ _ Hg I Hl) as (I0 & Hr & Hch).
  apply get_obj_Ok in Hg as [-> Ho].
  destruct (cls o) as [| | |v|p cb acs|ps|p|fn [c|]] eqn:E; simpl in Hch.
  - discriminate.
  - mbreak; owned_facts; eauto.
  - mbreak; eauto.
  - mbreak; owned_facts; eauto.
  - apply Forall_cons_1 in Hch as [Hp _]. mbreak; owned_facts.
    + eauto.
    + match goal with H : binded_loop _ _ _ _ _ _ _ = Ok _ _ |- _ =>
        eapply binded_loop_owned in H; eauto end.
      owned_facts. eauto.
  - eapply added_loop_owned; eauto.
  - apply Forall_cons_1 in Hch as [Hp _]. mbreak; owned_facts; eauto.
  - apply Forall_cons_1 in Hch as [Hp _]. mbreak; owned_facts; eauto.
  - mbreak; owned_facts; eauto.
Qed.
End OwnedProcess.

Lemma parse_with_owned proc l input h r h' :
  (forall l input h r h', proc l input h = Ok r h' -> own h -> ad < l -> own h' /\ r <> r0) ->
  parse_with proc l input h = Ok r h' -> own h -> ad < l -> own h' /\ r <> r0.
Proof.
  unfold parse_with. intros Hp H I Hl. mbreak; owned_facts; eauto.
Qed.

Lemma process_owned host n l input h r h' :
  process host n l input h = Ok r h' -> own h -> ad < l -> own h' /\ r <> r0.
Proof.
  revert l input h r h'. induction n as [|n IH]; intros l input h r h' H; [discriminate|].
  simpl in H. eapply process_body_owned; [| |exact H]; [|exact IH].
  intros. eapply parse_with_owned; eauto.
Qed.

Lemma parse_owned host n l input h r h' :
  parse host n l input h = Ok r h' -> own h -> ad < l -> own h' /\ r <> r0.
Proof. apply parse_with_owned. apply process_owned. Qed.
End Owned.

(** ** Every run keeps the store well-formed *)

Lemma units_ok_spec nres os k l o :
  units_ok nres k os = true -> os !! l = Some o ->
  Forall (fun c => k + l < c) (children (cls o)) /\ result o < nres.
Proof.
  revert k l. induction os as [|x os IH]; intros k l H Hl; [discriminate|].
  simpl in H. apply andb_prop in H as [Hx Hos]. destruct l as [|l]; simpl in Hl.
  - injection Hl as ->. unfold unit_ok in Hx. apply andb_prop in Hx as [Hc Hr].
    apply Nat.ltb_lt in Hr. split; [|assumption].
    rewrite forallb_forall in Hc. apply List.Forall_forall. intros c Hin.
    apply Hc, Nat.ltb_lt in Hin. lia.
  - destruct (IH (S k) l Hos Hl) as [Hc Hr]. split; [|assumption].
    eapply Forall_impl; [exact Hc|]. simpl. intros; lia.
Qed.

Lemma wf_heap_spec h l o :
  wf_heap h = true -> objs h !! l = Some o ->
  Forall (fun c => l < c) (children (cls o)) /\ result o < length (results h).
Proof. intros H Hl. apply (units_ok_spec _ _ 0 l o H Hl). Qed.

Lemma units_ok_complete nres os k :
  (forall l o, os !! l = Some o ->
     Forall (fun c => k + l < c) (children (cls o)) /\ result o < nres) ->
  units_ok nres k os = true.
Proof.
  revert k. induction os as [|x os IH]; intros k H; [reflexivity|].
  simpl. apply andb_true_intro. split.
  - destruct (H 0 x eq_refl) as [Hc Hr]. unfold unit_ok. apply andb_true_intro. split.
    + apply forallb_forall. intros c Hin. apply Nat.ltb_lt.
      rewrite List.Forall_forall in Hc. specialize (Hc c Hin). lia.
    + now apply Nat.ltb_lt.
  - apply IH. intros l o Hl. destruct (H (S l) o Hl) as [Hc Hr]. split; [|assumption].
    eapply Forall_impl; [exact Hc|]. simpl. intros; lia.
Qed.

Lemma wf_heap_iff h : wf_heap h = true <-> well_formed h.
Proof.
  split.
  - intros H l o Hl. now apply wf_heap_spec.
  - intros H. apply units_ok_complete. intros l o Hl. now apply H.
Qed.

Lemma built_wf h h' : built h h' -> well_formed h -> well_formed h'.
Proof.
  intros B W l o Hl. pose proof (built_length_results _ _ B).
  destruct (decide (l < length (objs h))) as [Hlt|Hnlt].
  - destruct (lookup_lt_is_Some_2 _ _ Hlt) as [o1 Ho1].
    rewrite (built_objs _ _ B _ _ Ho1) in Hl. injection Hl as <-.
    destruct (W _ _ Ho1). split; [assumption|lia].
  - destruct (built_new _ _ B l o Hl) as [Hc Hr]; [lia|]. split.
    + eapply Forall_impl; [exact Hc|]. simpl. intros; lia.
    + destruct Hr as [Hr|(l0 & o0 & Hl0 & Hr0 & _)]; [lia|].
      destruct (W _ _ Hl0). lia.
Qed.

Section WellFormed.
#[local] Abbreviation wf_step h h' :=
  (well_formed h' /\ length (results h) <= length (results h')).

Lemma built_wf_step h h' : built h h' -> well_formed h -> wf_step h h'.
Proof. intros B W. split; [eapply built_wf; eauto|now apply built_length_results]. Qed.

Lemma set_result_wf l r h u h' :
  set_result l r h = Ok u h' -> well_formed h -> r < length (results h) -> wf_step h h'.
Proof.
  intros H W Hr. apply set_result_Ok in H as (o & Ho & ->). split; [|simpl; lia].
  intros k x Hk. simpl in *. destruct (decide (k = l)) as [->|Hne].
  - rewrite list_lookup_insert_eq in Hk by (eapply lookup_lt_Some; eauto).
    injection Hk as <-. simpl. split; [apply (W _ _ Ho)|assumption].
  - rewrite list_lookup_insert_ne in Hk by congruence. eauto.
Qed.

Lemma set_cls_wf l c h u h' :
  set_cls l c h = Ok u h' -> well_formed h ->
  Forall (fun x => l < x) (children c) -> wf_step h h'.
Proof.
  intros H W Hc. apply set_cls_Ok in H as (o & Ho & ->). split; [|simpl; lia].
  intros k x Hk. simpl in *. destruct (decide (k = l)) as [->|Hne].
  - rewrite list_lookup_insert_eq in Hk by (eapply lookup_lt_Some; eauto).
    injection Hk as <-. simpl. split; [assumption|apply (W _ _ Ho)].
  - rewrite list_lookup_insert_ne in Hk by congruence. eauto.
Qed.

Lemma put_wf h r ds :
  well_formed h -> well_formed (Heap (objs h) (<[r := ds]> (results h))).
Proof. intros W l o Hl. simpl in *. rewrite length_insert. eauto. Qed.

Lemma snoc_wf h ds :
  well_formed h -> well_formed (Heap (objs h) (results h ++ [ds])).
Proof.
  intros W l o Hl. simpl in *. rewrite length_app. simpl.
  destruct (W _ _ Hl). split; [assumption|lia].
Qed.

Lemma Result_new_wf h r h' :
  Result_new h = Ok r h' -> well_formed h -> wf_step h h' /\ r < length (results h').
Proof.
  intros H W. apply Result_new_Ok in H as [-> ->]. simpl. rewrite length_app. simpl.
  split; [split|]; [now apply snoc_wf|lia|lia].
Qed.

Lemma Result_concat_wf r1 r2 h a h' :
  Result_concat r1 r2 h = Ok a h' -> well_formed h ->
  wf_step h h' /\ a < length (results h').
Proof.
  intros H W. apply Result_concat_Ok in H as (-> & ds1 & ds2 & _ & _ & ->).
  simpl. rewrite length_app. simpl. split; [split|]; [now apply snoc_wf|lia|lia].
Qed.

Lemma Result_push_wf r v rest h a h' :
  Result_push r v rest h = Ok a h' -> well_formed h ->
  wf_step h h' /\ a < length (results h').
Proof.
  intros H W. apply Result_push_Ok in H as (-> & ds & Hr & ->).
  apply lookup_lt_Some in Hr. simpl. rewrite length_insert.
  split; [split|]; [now apply put_wf|lia|lia].
Qed.

Lemma Result_map_values_wf r f h u h' :
  Result_map_values r f h = Ok u h' -> well_formed h -> wf_step h h'.
Proof.
  intros H W. apply Result_map_values_Ok in H as (ds & _ & ->).
  simpl. rewrite length_insert. split; [now apply put_wf|lia].
Qed.

Lemma Result_entries_wf r h ds h' :
  Result_entries r h = Ok ds h' -> well_formed h -> wf_step h h'.
Proof. intros H W. apply Result_entries_Ok in H as [-> _]. auto. Qed.

Lemma Result_length_wf r h n h' :
  Result_length r h = Ok n h' -> well_formed h -> wf_step h h'.
Proof. intros H W. apply Result_length_Ok in H as [-> _]. auto. Qed.

Lemma get_obj_wf l h o h' :
  get_obj l h = Ok o h' -> well_formed h -> wf_step h h'.
Proof. intros H W. apply get_obj_Ok in H as [-> _]. auto. Qed.

Lemma this_result_wf l h r h' :
  this_result l h = Ok r h' -> well_formed h ->
  wf_step h h' /\ r < length (results h').
Proof.
  intros H W. apply this_result_Ok in H as (-> & o & Ho & ->).
  split; [split|]; [assumption|lia|apply (W _ _ Ho)].
Qed.

Lemma copy_wf n l h a h' :
  copy n l h = Ok a h' -> well_formed h -> wf_step h h' /\ length (objs h) <= a.
Proof.
  intros H W. apply copy_built in H as [B F]. split; [now apply built_wf_step|assumption].
Qed.

Lemma parserifyCb_wf host n cb v input h a h' :
  parserifyCb host n cb v input h = Ok a h' -> well_formed h ->
  wf_step h h' /\ length (objs h) <= a.
Proof.
  intros H W. apply parserifyCb_built in H as [B F].
  split; [now apply built_wf_step|assumption].
Qed.

Create HintDb wf discriminated.
#[local] Hint Resolve set_result_wf set_cls_wf Result_new_wf Result_concat_wf
  Result_push_wf Result_map_values_wf Result_entries_wf Result_length_wf
  get_obj_wf this_result_wf copy_wf parserifyCb_wf : wf.
#[local] Hint Extern 1 (Forall _ (children _)) => simpl; repeat constructor; lia : wf.
#[local] Hint Extern 2 (_ < _) => lia : wf.

Ltac wf_facts :=
  repeat match goal with
  | W : well_formed ?h, H : _ ?h = Ok ?a ?h1 |- _ =>
      lazymatch goal with W1 : well_formed h1 |- _ => fail | _ => idtac end;
      first [ assert (wf_step h h1 /\ a < length (results h1)) as [[? ?] ?]
                by (eauto 3 with wf)
            | assert (wf_step h h1 /\ length (objs h) <= a) as [[? ?] ?]
                by (eauto 3 with wf)
            | assert (wf_step h h1) as [? ?] by (eauto 3 with wf) ]
  end.

Ltac wf_done :=
  repeat match goal with |- _ /\ _ => split end; first [assumption | lia].

Section WellFormedProcess.
Variable host : nat -> value -> value -> failure + value.
Variable n : nat.
Variable sub_parse sub_process : loc -> value -> M loc.
Hypothesis sub_parse_wf : forall l input h r h',
  sub_parse l input h = Ok r h' -> well_formed h ->
  wf_step h h' /\ r < length (results h').
Hypothesis sub_process_wf : forall l input h r h',
  sub_process l input h = Ok r h' -> well_formed h ->
  wf_step h h' /\ r < length (results h').

Lemma binded_loop_wf l cb ds h u h' :
  binded_loop host n sub_parse l cb ds h = Ok u h' -> well_formed h -> wf_step h h'.
Proof.
  revert h u h'. induction ds as [|[v s] ds IH]; simpl; intros h u h' H W.
  - mbreak. auto.
  - mbreak. wf_facts. apply IH in H as [? ?]; [|assumption]. wf_done.
Qed.

Lemma added_loop_wf l ps input h r h' :
  added_loop sub_parse l ps input h = Ok r h' -> well_formed h ->
  wf_step h h' /\ r < length (results h').
Proof.
  revert h r h'. induction ps as [|p ps IH]; simpl; intros h r h' H W.
  - eapply this_result_wf; eauto.
  - mbreak; wf_facts; [wf_done|]. apply IH in H as [[? ?] ?]; [|assumption]. wf_done.
Qed.

Lemma process_body_wf l input h r h' :
  process_body host n sub_parse sub_process l input h = Ok r h' -> well_formed h ->
  wf_step h h' /\ r < length (results h').
Proof.
  unfold process_body. intros H W.
  apply bind_Ok in H as (o & h0 & Hg & H). apply get_obj_Ok in Hg as [-> Ho].
  destruct (W _ _ Ho) as [Hc Hr]. pose proof (lookup_lt_Some _ _ _ Ho) as Hlt.
  destruct (cls o) as [| | |v|p cb acs|ps|p|fn [c|]] eqn:E.
  - discriminate.
  - mbreak; wf_facts; wf_done.
  - mbreak; wf_done.
  - mbreak; wf_facts; wf_done.
  - mbreak; wf_facts; [wf_done|].
    match goal with H : binded_loop _ _ _ _ _ _ _ = Ok _ _ |- _ =>
      eapply binded_loop_wf in H as [? ?]; [|assumption] end.
    wf_facts. wf_done.
  - eapply added_loop_wf; eauto.
  - mbreak; wf_facts; wf_done.
  - mbreak; wf_facts; wf_done.
  - mbreak; wf_facts; wf_done.
Qed.
End WellFormedProcess.

Lemma parse_with_wf proc l input h r h' :
  (forall l input h r h', proc l input h = Ok r h' -> well_formed h ->
     wf_step h h' /\ r < length (results h')) ->
  parse_with proc l input h = Ok r h' -> well_formed h ->
  wf_step h h' /\ r < length (results h').
Proof. unfold parse_with. intros Hp H W. mbreak; wf_facts; wf_done. Qed.

Lemma process_wf host n l input h r h' :
  process host n l input h = Ok r h' -> well_formed h ->
  wf_step h h' /\ r < length (results h').
Proof.
  revert l input h r h'. induction n as [|n IH]; intros l input h r h' H; [discriminate|].
  simpl in H. eapply process_body_wf; [| |exact H]; [|exact IH].
  intros. eapply parse_with_wf; eauto.
Qed.
End WellFormed.

(** The stores reached from the empty store are well-formed: the empty
    store is, and the combinators and [parse] keep a store so. *)
Lemma parse_wf host n l input h r h' :
  parse host n l input h = Ok r h' -> wf_heap h = true -> wf_heap h' = true.
Proof.
  intros H W. apply wf_heap_iff. apply wf_heap_iff in W.
  eapply parse_with_wf in H as [[? ?] ?]; eauto. apply process_wf.
Qed.

Lemma built_wf_heap h h' : built h h' -> wf_heap h = true -> wf_heap h' = true.
Proof. intros B W. apply wf_heap_iff. apply wf_heap_iff in W. eapply built_wf; eauto. Qed.

Lemma map_wf this f h a h' :
  map_ this f h = Ok a h' -> wf_heap h = true -> wf_heap h' = true.
Proof.
  unfold map_, set_mapValues. intros H W. apply wf_heap_iff. apply wf_heap_iff in W.
  apply bind_Ok in H as (u & h1 & H1 & H). injection H as _ <-.
  apply bind_Ok in H1 as (o & h0 & Hg & Hs).
  apply get_obj_Ok in Hg as [-> Ho]. injection Hs as _ <-.
  intros k x Hk. simpl in *. destruct (decide (k = this)) as [->|Hne].
  - rewrite list_lookup_insert_eq in Hk by (eapply lookup_lt_Some; eauto).
    injection Hk as <-. simpl. apply (W _ _ Ho).
  - rewrite list_lookup_insert_ne in Hk by congruence. eauto.
Qed.

Lemma empty_heap_wf : wf_heap empty_heap = true.
Proof. reflexivity. Qed.

(** The store of a well-formed store after the reset of [parse]. *)
Lemma reset_owned h ad o :
  wf_heap h = true -> objs h !! ad = Some o ->
  owned ad (PObj (cls o) (length (results h)) (mapValues o)) (length (results h)) []
        (reset_heap ad o h).
Proof.
  intros W Ho. pose proof (lookup_lt_Some _ _ _ Ho) as Hlt. split; simpl.
  - intros l x Hl Hge. destruct (decide (l = ad)) as [->|Hne].
    + rewrite list_lookup_insert_eq in Hl by assumption. injection Hl as <-. simpl.
      apply (wf_heap_spec _ _ _ W Ho).
    + rewrite list_lookup_insert_ne in Hl by congruence.
      destruct (wf_heap_spec _ _ _ W Hl) as [Hc _].
      eapply Forall_impl; [exact Hc|]. simpl. intros; lia.
  - now apply list_lookup_insert_eq.
  - apply lookup_snoc.
  - intros l x Hl Hr. destruct (decide (l = ad)) as [->|Hne]; [reflexivity|].
    rewrite list_lookup_insert_ne in Hl by congruence.
    destruct (wf_heap_spec _ _ _ W Hl) as [_ Hx]. lia.
Qed.

(** ** The primitive units under [parse] *)

(** From any store, an Item unit without mapping parses a non-empty
    string to its first character and the rest. *)
Lemma parse_item_string host n l o c s h :
  objs h !! l = Some o -> cls o = ItemParser -> mapValues o = None ->
  exists r h',
    parse host (S n) l (VStr (String c s)) h = Ok r h' /\
    results h' !! r = Some [(VStr (String c ""), VStr s)].
Proof.
  intros Hl Hc Hm. pose proof (lookup_lt_Some _ _ _ Hl) as Hlt.
  assert (Hl0 : objs (reset_heap l o h) !! l
                = Some (PObj (cls o) (length (results h)) (mapValues o)))
    by (simpl; now apply list_lookup_insert_eq).
  pose proof (process_item_string host n l _ c s _ [] Hl0 Hc (lookup_snoc _ _)) as Hp.
  simpl result in Hp. simpl objs in Hp. simpl results in Hp.
  unfold parse. erewrite parse_with_run; [|exact Hl|exact Hp|exact Hl0].
  simpl. rewrite Hm. eexists _, _. split; [reflexivity|]. simpl.
  apply list_lookup_insert_eq. rewrite length_app. simpl. lia.
Qed.

(** From a well-formed store, a negation without mapping parses to
    [(input, input)] when the [process] of its unit, run on the buffer
    that unit has, returns an empty Result, and to the empty Result
    otherwise. *)
Lemma parse_negated host n l o p input h res h1 ds :
  wf_heap h = true ->
  objs h !! l = Some o -> cls o = NegatedParser p -> mapValues o = None ->
  process host n p input (reset_heap l o h) = Ok res h1 ->
  results h1 !! res = Some ds ->
  exists r h',
    parse host (S n) l input h = Ok r h' /\
    results h' !! r = Some (match ds with [] => [(input, input)] | _ => [] end).
Proof.
  intros W Hl Hc Hm Hp Hr.
  pose proof (reset_owned _ _ _ W Hl) as I0.
  set (oad := PObj (cls o) (length (results h)) (mapValues o)) in *.
  assert (Hleaf : is_leaf (cls oad) = false) by (simpl; now rewrite Hc).
  assert (Hlt : l < p).
  { destruct (wf_heap_spec _ _ _ W Hl) as [H _]. rewrite Hc in H.
    now apply Forall_cons_1 in H as [H _]. }
  destruct (process_owned _ _ _ _ Hleaf _ _ _ _ _ _ _ Hp I0 Hlt) as [[_ Hu Hb _] _].
  assert (Hq : process host (S n) l input (reset_heap l o h) =
               match ds with
               | [] => Ok (length (results h))
                          (Heap (objs h1)
                                (<[length (results h) := [(input, input)]]> (results h1)))
               | _ => Ok (length (results h)) h1
               end).
  { simpl. unfold process_body.
    rewrite (bind_run _ _ _ _ _ (get_obj_run _ _ _ (owned_unit _ _ _ _ _ I0))).
    replace (cls oad) with (NegatedParser p) by (symmetry; exact Hc).
    rewrite (bind_run _ _ _ _ _ Hp).
    rewrite (bind_run _ _ _ _ _ (Result_length_run _ _ _ Hr)).
    rewrite (bind_run _ _ _ _ _ (this_result_run _ _ _ Hu)). simpl result.
    destruct ds; simpl; [|reflexivity].
    now rewrite (Result_push_run _ _ _ _ _ Hb). }
  unfold parse. destruct ds as [|d ds].
  - erewrite parse_with_run; [|exact Hl|exact Hq|exact Hu].
    simpl. rewrite Hm. eexists _, _. split; [reflexivity|]. simpl.
    apply list_lookup_insert_eq. eapply lookup_lt_Some; eauto.
  - erewrite parse_with_run; [|exact Hl|exact Hq|exact Hu].
    simpl. rewrite Hm. eexists _, _. split; [reflexivity|]. exact Hb.
Qed.

(** ** C1: ordered choice *)

Section Choice.
Variable host : nat -> value -> value -> failure + value.
Variable n : nat.
Variable input : value.

Lemma process_added ad o ps h :
  objs h !! ad = Some o -> cls o = AddedParser ps ->
  process host (S n) ad input h = added_loop (parse host n) ad ps input h.
Proof.
  intros Ho Hc. simpl. unfold process_body.
  rewrite (bind_run _ _ _ _ _ (get_obj_run _ _ _ Ho)), Hc. reflexivity.
Qed.

Lemma added_loop_some ad ps h r h' :
  alternatives host n input ps h (Some r) h' ->
  added_loop (parse host n) ad ps input h = Ok r h'.
Proof.
  intros A. remember (Some r) as res eqn:E. revert E.
  induction A as [h|p ps h r1 h1 ds Hp Hr Hlen|p ps h r1 h1 res h2 Hp Hr A IH];
    intros E; [discriminate| |]; simpl.
  - injection E as ->. rewrite (bind_run _ _ _ _ _ Hp).
    rewrite (bind_run _ _ _ _ _ (Result_length_run _ _ _ Hr)).
    destruct (length ds); [lia|reflexivity].
  - rewrite (bind_run _ _ _ _ _ Hp).
    rewrite (bind_run _ _ _ _ _ (Result_length_run _ _ _ Hr)). simpl. auto.
Qed.

Lemma added_loop_none ad ps h h' o' :
  alternatives host n input ps h None h' ->
  objs h' !! ad = Some o' ->
  added_loop (parse host n) ad ps input h = Ok (result o') h'.
Proof.
  intros A. remember None as res eqn:E. revert E.
  induction A as [h|p ps h r1 h1 ds Hp Hr Hlen|p ps h r1 h1 res h2 Hp Hr A IH];
    intros E Ho; [|discriminate|]; simpl.
  - now apply this_result_run.
  - rewrite (bind_run _ _ _ _ _ Hp).
    rewrite (bind_run _ _ _ _ _ (Result_length_run _ _ _ Hr)). simpl. auto.
Qed.

Lemma alternatives_owned ad oad r0 ds0 ps h h' :
  is_leaf (cls oad) = false ->
  alternatives host n input ps h None h' ->
  owned ad oad r0 ds0 h -> Forall (fun c => ad < c) ps ->
  owned ad oad r0 ds0 h'.
Proof.
  intros Hleaf A. remember None as res eqn:E. revert E.
  induction A as [h|p ps h r1 h1 ds Hp Hr Hlen|p ps h r1 h1 res h2 Hp Hr A IH];
    intros E I Hps; [assumption|discriminate|].
  apply Forall_cons_1 in Hps as [Hlt Hps].
  destruct (parse_owned ad oad r0 ds0 Hleaf host _ _ _ _ _ _ Hp I Hlt) as [I1 _].
  auto.
Qed.

(** When no alternative yields a derivation, [parse] of the choice
    yields the empty Result. *)
Lemma parse_added_none ad o ps h hk :
  wf_heap h = true ->
  objs h !! ad = Some o -> cls o = AddedParser ps ->
  alternatives host n input ps (reset_heap ad o h) None hk ->
  exists r h', parse host (S n) ad input h = Ok r h' /\ results h' !! r = Some [].
Proof.
  intros W Ho Hc A.
  pose proof (reset_owned _ _ _ W Ho) as I0.
  set (oad := PObj (cls o) (length (results h)) (mapValues o)) in *.
  assert (Hleaf : is_leaf (cls oad) = false) by (simpl; now rewrite Hc).
  assert (Hps : Forall (fun c => ad < c) ps).
  { destruct (wf_heap_spec _ _ _ W Ho) as [H _]. now rewrite Hc in H. }
  pose proof (alternatives_owned _ _ _ _ _ _ _ Hleaf A I0 Hps) as [_ Hu Hb _].
  assert (Hp : process host (S n) ad input (reset_heap ad o h)
               = Ok (length (results h)) hk).
  { erewrite process_added; [|apply (owned_unit _ _ _ _ _ I0)|exact Hc].
    apply (added_loop_none _ _ _ _ oad A Hu). }
  unfold parse. rewrite (parse_with_run _ _ _ _ _ _ _ _ Ho Hp Hu).
  destruct (mapValues oad) as [f|].
  - rewrite Hb. eexists _, _. split; [reflexivity|]. simpl.
    apply list_lookup_insert_eq. eapply lookup_lt_Some; eauto.
  - eexists _, _. split; [reflexivity|]. exact Hb.
Qed.
End Choice.

Lemma copy_leaf m q h p h1 oq :
  copy m q h = Ok p h1 -> objs h !! q = Some oq -> is_leaf (cls oq) = true ->
  objs h1 !! p = Some oq.
Proof.
  destruct m as [|m]; [discriminate|]. simpl. unfold copy_body. intros H Hq Hleaf.
  rewrite (bind_run _ _ _ _ _ (get_obj_run _ _ _ Hq)) in H.
  assert (Hb : (l' ← Parser_new (cls oq); set_obj l' oq;; mret l') h = Ok p h1)
    by (destruct (cls oq); try discriminate; exact H).
  clear H. rewrite (bind_run _ _ _ _ _ (Parser_new_run _ _)) in Hb.
  injection Hb as <- <-. simpl. apply list_lookup_insert_eq.
  rewrite length_app. simpl. lia.
Qed.

Lemma mapM_length {A B} (f : A -> M B) xs h ys h' :
  mapM f xs h = Ok ys h' -> length ys = length xs.
Proof.
  revert h ys h'. induction xs as [|x xs IH]; simpl; intros h ys h' H; mbreak.
  - reflexivity.
  - simpl. f_equal. eauto.
Qed.

Lemma mapM_parserOf_values xs h ls h1 i v :
  mapM parserOf xs h = Ok ls h1 -> xs !! i = Some (RValue v) ->
  exists q r, ls !! i = Some q /\ objs h1 !! q = Some (PObj (ResultParser v) r None).
Proof.
  revert h ls h1 i. induction xs as [|x xs IH]; simpl; intros h ls h1 i H Hi;
    [discriminate|]. mbreak. destruct i as [|i]; simpl in Hi.
  - injection Hi as ->. simpl in H0. apply Parser_new_Ok in H0 as [-> ->].
    exists (length (objs h)), (length (results h)). split; [reflexivity|].
    apply (built_objs _ _ (mapM_parserOf_built _ _ _ _ H1)). simpl. apply lookup_snoc.
  - simpl. eauto.
Qed.

Lemma mapM_copy_leaves m qs h ps h1 i q oq :
  mapM (copy m) qs h = Ok ps h1 ->
  qs !! i = Some q -> objs h !! q = Some oq -> is_leaf (cls oq) = true ->
  exists p, ps !! i = Some p /\ objs h1 !! p = Some oq /\ length (objs h) <= p.
Proof.
  revert h ps h1 i. induction qs as [|x qs IH]; simpl; intros h ps h1 i H Hi Hq Hleaf;
    [discriminate|]. mbreak.
  destruct (copy_built _ _ _ _ _ H0) as [B0 F0].
  destruct (mapM_copy_built _ (copy_built m) _ _ _ _ H1) as [B1 _].
  destruct i as [|i]; simpl in Hi.
  - injection Hi as ->. exists a. split; [reflexivity|]. split; [|assumption].
    apply (built_objs _ _ B1). eapply copy_leaf; eauto.
  - destruct (IH _ _ _ _ H1 Hi (built_objs _ _ B0 _ _ Hq) Hleaf) as (p & Hp & Ho & Hge).
    exists p. repeat split; try assumption. pose proof (built_length_objs _ _ B0). lia.
Qed.

(** The unit that [or] builds: a choice between a copy of [this] and
    one unit for each argument; for an argument that is not a unit,
    a [result] unit of that value. *)
Lemma or_units m this alts h ad h' :
  or_ m this alts h = Ok ad h' ->
  exists o p ps,
    objs h' !! ad = Some o /\ cls o = AddedParser (p :: ps) /\ mapValues o = None /\
    length ps = length alts /\
    forall i v, alts !! i = Some (RValue v) ->
      exists q oq, ps !! i = Some q /\ objs h' !! q = Some oq /\
                   cls oq = ResultParser v /\ mapValues oq = None.
Proof.
  unfold or_, AddedParser_new. intros H.
  apply bind_Ok in H as (qs & h1 & Hqs & H).
  apply bind_Ok in H as (l & h2 & Hl & H).
  apply bind_Ok in H as (ps & h3 & Hps & H).
  apply bind_Ok in H as (u & h4 & Hs & H). injection H as <- <-.
  pose proof (mapM_length _ _ _ _ _ Hqs) as Lq. simpl in Lq.
  pose proof (mapM_length _ _ _ _ _ Hps) as Lp.
  destruct ps as [|p ps]; [simpl in Lp; lia|].
  apply Parser_new_Ok in Hl as [-> ->].
  apply set_cls_Ok in Hs as (o & Ho & ->). simpl.
  pose proof (lookup_lt_Some _ _ _ Ho) as Hlt.
  destruct (mapM_copy_built _ (copy_built m) _ _ _ _ Hps) as [Bps _].
  pose proof (built_objs _ _ Bps (length (objs h1)) _ (lookup_snoc _ _)) as Ho'.
  simpl in Ho'. rewrite Ho in Ho'. injection Ho' as ->.
  eexists _, p, ps. split; [now apply list_lookup_insert_eq|]. split; [reflexivity|].
  split; [reflexivity|].
  split; [simpl in Lp; lia|]. intros i v Hi.
  destruct (mapM_parserOf_values _ _ _ _ (S i) v Hqs Hi) as (q0 & r & Hq0 & Hoq0).
  destruct (mapM_copy_leaves _ _ _ _ _ (S i) q0 (PObj (ResultParser v) r None) Hps Hq0)
    as (q & Hq & Hoq & Hge);
    [simpl; rewrite lookup_app_l by (eapply lookup_lt_Some; eauto); exact Hoq0
    |reflexivity|].
  simpl in Hq, Hge. rewrite length_app in Hge. simpl in Hge.
  exists q. eexists. split; [exact Hq|].
  split; [rewrite list_lookup_insert_ne by lia; exact Hoq|]. auto.
Qed.

(** A [result] unit yields its value, or the input when it has none,
    and consumes nothing. *)
Lemma parse_result_unit host n q oq v input h :
  objs h !! q = Some oq -> cls oq = ResultParser v -> mapValues oq = None ->
  exists r h',
    parse host (S n) q input h = Ok r h' /\
    results h' !! r = Some [(match v with VUndef => input | _ => v end, input)].
Proof.
  intros Hq Hc Hm. pose proof (lookup_lt_Some _ _ _ Hq) as Hlt.
  assert (Hq0 : objs (reset_heap q oq h) !! q
                = Some (PObj (cls oq) (length (results h)) (mapValues oq)))
    by (simpl; now apply list_lookup_insert_eq).
  pose proof (process_result host n q _ v input _ [] Hq0 Hc (lookup_snoc _ _)) as Hp.
  simpl result in Hp. simpl objs in Hp. simpl results in Hp.
  unfold parse. erewrite parse_with_run; [|exact Hq|exact Hp|exact Hq0].
  simpl. rewrite Hm. eexists _, _. split; [reflexivity|]. simpl.
  apply list_lookup_insert_eq. rewrite length_app. simpl. lia.
Qed.

(** With no mapping on the choice, [parse] hands on the Result of the
    alternative that won. *)
Lemma parse_added_some host n input ad o ps h r h1 ds :
  objs h !! ad = Some o -> cls o = AddedParser ps -> mapValues o = None ->
  alternatives host n input ps (reset_heap ad o h) (Some r) h1 ->
  results h1 !! r = Some ds ->
  exists h', parse host (S n) ad input h = Ok r h' /\ results h' !! r = Some ds.
Proof.
  intros Ho Hc Hm A Hr. pose proof (lookup_lt_Some _ _ _ Ho) as Hlt.
  assert (Ho0 : objs (reset_heap ad o h) !! ad
                = Some (PObj (cls o) (length (results h)) (mapValues o)))
    by (simpl; now apply list_lookup_insert_eq).
  assert (Hp : process host (S n) ad input (reset_heap ad o h) = Ok r h1).
  { erewrite process_added; [|exact Ho0|exact Hc]. now apply added_loop_some. }
  destruct (process_keeps _ _ _ _ _ _ _ Hp _ _ Ho0) as (o1 & Ho1 & Hm1).
  simpl in Hm1. rewrite Hm in Hm1.
  unfold parse. rewrite (parse_with_run _ _ _ _ _ _ _ _ Ho Hp Ho1), Hm1.
  eexists. split; [reflexivity|]. exact Hr.
Qed.

(** The units of a choice, in order.  [or] builds a choice of one unit
    for [this] and one per argument, an argument that is not a unit
    being wrapped as the unit that yields that value (the input, when
    the value is [undefined]) and consumes nothing; a well-formed store
    stays so.  [process] of a choice parses the units it holds in
    order: when the first yields a derivation, its Result is returned
    as it is, in the store that this parse left, so that no later unit
    has run; otherwise the first Result that is not empty is returned;
    when there is none, the buffer of the choice is returned, and
    [parse] of the choice, from a well-formed store, then yields the
    empty Result. *)
Theorem ordered_choice host (n : nat) (input : value) :
  (forall m this alts h ad h',
     or_ m this alts h = Ok ad h' ->
     exists o p ps,
       objs h' !! ad = Some o /\ cls o = AddedParser (p :: ps) /\ mapValues o = None /\
       length ps = length alts /\
       (wf_heap h = true -> wf_heap h' = true) /\
       forall i v, alts !! i = Some (RValue v) ->
         exists q r h3,
           ps !! i = Some q /\
           parse host (S n) q input h' = Ok r h3 /\
           results h3 !! r = Some [(match v with VUndef => input | _ => v end, input)]) /\
  (forall ad o ps h,
     objs h !! ad = Some o -> cls o = AddedParser ps ->
     (forall p rest r h1 ds,
        ps = p :: rest ->
        parse host n p input h = Ok r h1 -> results h1 !! r = Some ds -> 0 < length ds ->
        process host (S n) ad input h = Ok r h1) /\
     (forall r h',
        alternatives host n input ps h (Some r) h' ->
        process host (S n) ad input h = Ok r h') /\
     (forall h' o',
        alternatives host n input ps h None h' -> objs h' !! ad = Some o' ->
        process host (S n) ad input h = Ok (result o') h') /\
     (forall r h1 ds,
        mapValues o = None ->
        alternatives host n input ps (reset_heap ad o h) (Some r) h1 ->
        results h1 !! r = Some ds ->
        exists h', parse host (S n) ad input h = Ok r h' /\ results h' !! r = Some ds) /\
     (forall hk,
        wf_heap h = true ->
        alternatives host n input ps (reset_heap ad o h) None hk ->
        exists r h', parse host (S n) ad input h = Ok r h' /\ results h' !! r = Some [])).
Proof.
  split.
  - intros m this alts h ad h' H.
    destruct (or_units _ _ _ _ _ _ H) as (o & p & ps & Ho & Hc & Hm & Hlen & Hv).
    exists o, p, ps. repeat (split; [assumption|]).
    split; [apply built_wf_heap; now apply or_built in H|]. intros i v Hi.
    destruct (Hv i v Hi) as (q & oq & Hq & Hoq & Hcq & Hmq).
    destruct (parse_result_unit host n q oq v input h' Hoq Hcq Hmq) as (r & h3 & Hp & Hr).
    eauto 6.
  - intros ad o ps h Ho Hc. repeat split.
    + intros p rest r h1 ds -> Hp Hr Hlen.
      rewrite (process_added _ _ _ _ _ _ _ Ho Hc).
      apply added_loop_some. eapply alt_here; eauto.
    + intros r h' A. rewrite (process_added _ _ _ _ _ _ _ Ho Hc).
      now apply added_loop_some.
    + intros h' o' A Ho'. rewrite (process_added _ _ _ _ _ _ _ Ho Hc).
      now apply added_loop_none.
    + intros r h1 ds Hm A Hr. eapply parse_added_some; eauto.
    + intros hk W A. eapply parse_added_none; eauto.
Qed.

(** An instance, [item().or(item().equals('a'))]: on the empty input
    both units fail and the choice parses to the empty Result; on ['b']
    the first unit yields [('b', '')] and so does the choice. *)
Lemma ordered_choice_witness :
  (exists r h',
     parse host0 4 item_or_a_unit (VStr "") item_or_a_heap = Ok r h' /\
     results h' !! r = Some []) /\
  (exists r h',
     parse host0 4 item_or_a_unit (VStr "b") item_or_a_heap = Ok r h' /\
     results h' !! r = Some [(VStr "b", VStr "")]).
Proof.
  assert (W : wf_heap item_or_a_heap = true) by (vm_compute; reflexivity).
  assert (Ho : objs item_or_a_heap !! item_or_a_unit
               = Some (PObj (AddedParser [4; 5]) 3 None)) by (vm_compute; reflexivity).
  split.
  - refine (proj2 (proj2 (proj2 (proj2
              (proj2 (ordered_choice host0 3 (VStr "")) item_or_a_unit _ [4; 5]
                     item_or_a_heap Ho eq_refl)))) _ W _).
    eapply alt_next; [lazy; reflexivity|lazy; reflexivity|].
    eapply alt_next; [lazy; reflexivity|lazy; reflexivity|].
    apply alt_none.
  - eexists.
    refine (proj1 (proj2 (proj2 (proj2
              (proj2 (ordered_choice host0 3 (VStr "b")) item_or_a_unit _ [4; 5]
                     item_or_a_heap Ho eq_refl)))) _ _ _ eq_refl _ _).
    + eapply alt_here; [lazy; reflexivity|lazy; reflexivity|simpl; lia].
    + lazy; reflexivity.
Defined.

(** C1, evaluated: the unit [a = item().then(x => x).map(_ => 1)]
    yields [(1, '')] on ['a'], and [a.or('z')] yields [('a', '')]
    there: the choice holds a copy of [a], and the copy of a [then]
    unit has lost the mapping.  Over [item().map(_ => 1)], whose copy
    keeps the mapping, the choice yields [(1, '')] as the unit does. *)
Theorem or_drops_mapping :
  run (or_of_mapped (fun _ => VNum 1)) =
    inr ([(VNum 1, VStr "")], [(VStr "a", VStr "")]) /\
  run (or_of_mapped_item (fun _ => VNum 1)) =
    inr ([(VNum 1, VStr "")], [(VNum 1, VStr "")]).
Proof. split; vm_compute; reflexivity. Qed.

(** ** C2: copies *)

(** C2, evaluated: the copy of [item().not()] yields [("", "")] on ['']
    when run alone and nothing once the original has parsed ['a']; the
    copy of a mapped [then] unit has lost the mapping; the copy of a
    used [item()] starts with the buffer of the original. *)
Theorem copy_shares_and_drops :
  run (copy_of_not false) = inr [(VStr "", VStr "")] /\
  run (copy_of_not true) = inr [] /\
  run (copy_of_mapped (fun _ => VNum 1)) =
    inr ([(VNum 1, VStr "")], [(VStr "a", VStr "")]) /\
  run copy_after_parse = inr [(VStr "a", VStr "")].
Proof. repeat split; vm_compute; reflexivity. Qed.

(** ** C3: consumption *)

(** C3, evaluated: the second parse of [lazy(() => item())], on ['cd'],
    still holds the derivation [('a', 'b')] of the first; and the lazy
    unit over an [item()] that has parsed ['ab'] yields [('a', 'b')] on
    the empty input. *)
Theorem lazy_item_keeps_derivations :
  run lazy_item_twice =
    inr ([(VStr "a", VStr "b")],
         [(VStr "a", VStr "b"); (VStr "c", VStr "d")]) /\
  run lazy_of_used_item = inr [(VStr "a", VStr "b")].
Proof. split; vm_compute; reflexivity. Qed.

(** ** C4: [startsWith] with an empty target *)

(** C4, as the code has it: [startsWith] with a target of length zero
    does not throw; it returns a new failure unit, so the failure shows
    at parse time, as the empty Result on every input. *)
Theorem startsWith_empty_is_failure_unit host (n : nat) (this : loc) (v : value)
    (partial : bool) (h : heap) :
  js_length v = inr (Some 0) ->
  exists z h',
    startsWith n this v partial h = Ok z h' /\
    (exists o, objs h' !! z = Some o /\ cls o = ZeroParser) /\
    forall m input,
      exists r h'', parse host (S m) z input h' = Ok r h'' /\ results h'' !! r = Some [].
Proof.
  intros Hlen. unfold startsWith. rewrite Hlen. simpl lift. rewrite ret_bind.
  destruct (Parser_zero_unit host h) as (z & h' & Hz & Ho & Hp).
  exists z, h'. split; [exact Hz|]. split; [exact Ho|].
  intros m input. apply Hp.
Qed.

(** An instance: the empty string as target, in the empty store. *)
Lemma startsWith_empty_is_failure_unit_witness :
  js_length (VStr "") = inr (Some 0) /\
  exists z h',
    startsWith 5 0 (VStr "") false empty_heap = Ok z h' /\
    (exists o, objs h' !! z = Some o /\ cls o = ZeroParser) /\
    forall m input,
      exists r h'', parse host0 (S m) z input h' = Ok r h'' /\ results h'' !! r = Some [].
Proof.
  split; [reflexivity|].
  apply (startsWith_empty_is_failure_unit host0 5 0 (VStr "") false empty_heap).
  reflexivity.
Defined.

(** C4, as stated, fails: [item().startsWith('')] raises nothing, it
    returns a unit. *)
Lemma startsWith_empty_does_not_throw :
  run startsWith_empty = inr 1 /\ forall f, run startsWith_empty <> inl f.
Proof. split; [reflexivity|]. intros f. vm_compute. discriminate. Qed.

(** ** C5: [then] without a continuation *)

(** C5. [p.then()] does not throw: it returns a new failure unit, and
    both [process] and [parse] of that unit yield the empty Result on
    every input. *)
Theorem then_without_continuation host (n : nat) (this : loc) (acs : bool) (h : heap) :
  exists z h',
    then_ n this (NextValue VUndef) acs h = Ok z h' /\
    (exists o, objs h' !! z = Some o /\ cls o = ZeroParser) /\
    forall m input,
      (exists r, process host (S m) z input h' = Ok r h' /\ results h' !! r = Some []) /\
      (exists r h'', parse host (S m) z input h' = Ok r h'' /\ results h'' !! r = Some []).
Proof. unfold then_. apply Parser_zero_unit. Qed.

(** ** C6: negation *)

(** C6, evaluated: once [p = item()] has parsed ['a'], [p.not()] fails
    on [''] although [p] yields no derivation there; and one negation
    unit answers [''] differently before and after it has seen ['a']. *)
Theorem negation_reads_stale_buffer :
  run not_after_parse = inr ([], []) /\
  run not_reused = inr ([(VStr "", VStr "")], [], []).
Proof. split; vm_compute; reflexivity. Qed.

(** ** C7: repetition on concrete inputs *)

(** C7. [item().many()] on ["abc"] yields the single derivation
    [("abc", "")], on [""] it yields the empty Result, and
    [item().manyOrNone()] on [""] yields the single derivation
    [("", "")]. *)
Theorem repetition_examples :
  run (item_many "abc") = inr [(VStr "abc", VStr "")] /\
  run (item_many "") = inr [] /\
  run (item_manyOrNone "") = inr [(VStr "", VStr "")].
Proof. repeat split; vm_compute; reflexivity. Qed.

(** ** C8: the default of [chain] and [chainRight] *)

(** C8. With the default [''] or [0], [chain] builds the choice between
    the chained unit and the default, [chainRight] builds the chained
    unit alone; on an input with no first match, [chain] yields the
    default unconsumed and [chainRight] yields the empty Result.  With
    a truthy default both yield it, with none both fail. *)
Theorem chain_default_falsy :
  (forall (zero : bool) n this operation h,
      let def := if zero then VNum 0 else VStr "" in
      chain n this operation (RValue def) h =
        (parser ← then_ n this (NextCb (CChainRest this operation)) false;
         or_ n parser [RValue def]) h /\
      chainRight n this operation (RValue def) h =
        then_ n this (NextCb (CChainRightRest this operation)) false h) /\
  run (chain_on false (VStr "") "") = inr [(VStr "", VStr "")] /\
  run (chain_on true (VStr "") "") = inr [] /\
  run (chain_on false (VNum 0) "") = inr [(VNum 0, VStr "")] /\
  run (chain_on true (VNum 0) "") = inr [] /\
  run (chain_on false (VStr "x") "") = inr [(VStr "x", VStr "")] /\
  run (chain_on true (VStr "x") "") = inr [(VStr "x", VStr "")] /\
  run (chain_on false VUndef "") = inr [] /\
  run (chain_on true VUndef "") = inr [].
Proof.
  split.
  - intros zero n this operation h def. split.
    + destruct zero; reflexivity.
    + unfold chainRight. destruct zero; simpl; apply bind_mret.
  - repeat split; vm_compute; reflexivity.
Qed.

(** ** C9: the mapping of [parse] *)

Lemma map_entries_shape f ds :
  length (map_entries f ds) = length ds /\
  map snd (map_entries f ds) = map snd ds /\
  map fst (map_entries f ds) = map f (map fst ds).
Proof.
  unfold map_entries. rewrite length_map, !map_map. simpl. auto.
Qed.

(** C9. [map(f)] stores [f] in the unit.  From then on, when [process]
    returns the Result [r] with the derivations [ds], [parse] returns
    [r] holding [ds] with [f] applied to every value: same remainders,
    same number, same order; and the unit keeps the mapping for the
    parses that follow. *)
Theorem parse_applies_mapping host (n : nat) (l : loc) (f : value -> value) :
  (forall h a h', map_ l f h = Ok a h' ->
     a = l /\ exists o, objs h' !! l = Some o /\ mapValues o = Some f) /\
  (forall input h o r h2 ds,
     objs h !! l = Some o -> mapValues o = Some f ->
     process host n l input (reset_heap l o h) = Ok r h2 ->
     results h2 !! r = Some ds ->
     exists h3 o3,
       parse host n l input h = Ok r h3 /\
       results h3 !! r = Some (map_entries f ds) /\
       length (map_entries f ds) = length ds /\
       map snd (map_entries f ds) = map snd ds /\
       map fst (map_entries f ds) = map f (map fst ds) /\
       objs h3 !! l = Some o3 /\ mapValues o3 = Some f).
Proof.
  split.
  - unfold map_, set_mapValues. intros h a h' H.
    apply bind_Ok in H as (u & h1 & H1 & H). injection H as <- <-.
    apply bind_Ok in H1 as (o & h0 & Hg & Hs).
    apply get_obj_Ok in Hg as [-> Hl]. injection Hs as _ <-. split; [reflexivity|].
    simpl. eexists. split; [apply list_lookup_insert_eq; eapply lookup_lt_Some; eauto|].
    reflexivity.
  - intros input h o r h2 ds Hl Hf Hp Hr.
    assert (Hl0 : objs (reset_heap l o h) !! l
                  = Some (PObj (cls o) (length (results h)) (mapValues o))).
    { simpl. apply list_lookup_insert_eq. eapply lookup_lt_Some; eauto. }
    destruct (process_keeps _ _ _ _ _ _ _ Hp _ _ Hl0) as (o2 & Hl2 & Hm2).
    simpl in Hm2. rewrite Hf in Hm2.
    unfold parse. rewrite (parse_with_run _ _ _ _ _ _ _ _ Hl Hp Hl2), Hm2, Hr.
    destruct (map_entries_shape f ds) as (E1 & E2 & E3).
    eexists. exists (PObj (cls o2) r (Some f)). split; [reflexivity|]. simpl.
    split; [apply list_lookup_insert_eq; eapply lookup_lt_Some; eauto|].
    repeat (split; [assumption|]). split; [|reflexivity].
    rewrite <- Hm2. apply list_lookup_insert_eq. eapply lookup_lt_Some; eauto.
Qed.

(** An instance: an Item unit with the mapping [_ => 1] on ['ab']. *)
Lemma parse_applies_mapping_witness :
  let f := fun _ : value => VNum 1 in
  let h := Heap [PObj ItemParser 0 (Some f)] [[]] in
  exists h3 o3,
    parse host0 2 0 (VStr "ab") h = Ok 1 h3 /\
    results h3 !! 1 = Some (map_entries f [(VStr "a", VStr "b")]) /\
    length (map_entries f [(VStr "a", VStr "b")]) = 1 /\
    map snd (map_entries f [(VStr "a", VStr "b")]) = [VStr "b"] /\
    map fst (map_entries f [(VStr "a", VStr "b")]) = map f [VStr "a"] /\
    objs h3 !! 0 = Some o3 /\ mapValues o3 = Some f.
Proof.
  intros f h.
  apply (proj2 (parse_applies_mapping host0 2 0 f) (VStr "ab") h
           (PObj ItemParser 0 (Some f)) 1
           (Heap [PObj ItemParser 1 (Some f)] [[]; [(VStr "a", VStr "b")]])
           [(VStr "a", VStr "b")]).
  - reflexivity.
  - reflexivity.
  - reflexivity.
  - reflexivity.
Defined.

(** ** C10: the Item unit on an absent input *)

(** C10, as the code has it.  On [null] or [undefined] the [process]
    of an Item unit does not throw: it pushes nothing, returns the
    buffer of the unit and leaves the store as it is.  Through [parse],
    which gives the unit a new buffer first, and on a new [item()],
    that Result is empty. *)
Theorem item_absent_input host (n : nat) (l : loc) (o : pobj) (input : value) (h : heap) :
  objs h !! l = Some o -> cls o = ItemParser ->
  input = VNull \/ input = VUndef ->
  process host (S n) l input h = Ok (result o) h /\
  (exists r h', parse host (S n) l input h = Ok r h' /\ results h' !! r = Some []) /\
  (forall h0, exists r h',
      (it ← Parser_item; process host (S n) it input) h0 = Ok r h' /\
      results h' !! r = Some []).
Proof.
  intros Hl Hc Hi.
  assert (Hf : truthy input = false) by (destruct Hi; subst; reflexivity).
  split; [now apply process_item_falsy|]. split.
  - destruct (parse_idle host (S n) l o input h Hl) as (h' & Hp & Hr); [|eauto].
    intros h1 o1 H1 Hc1. apply process_item_falsy; congruence.
  - intros h0. exists (length (results h0)). eexists.
    unfold Parser_item. rewrite (bind_run _ _ _ _ _ (Parser_new_run _ _)). split.
    + apply (process_item_falsy host n _ (PObj ItemParser (length (results h0)) None)); auto.
      apply lookup_snoc.
    + apply lookup_snoc.
Qed.

(** C10, as stated, fails: once [p = item()] has parsed ['ab'],
    [p.process(null)] and [p.process(undefined)] return the buffer that
    this parse left, which holds [('a', 'b')]. *)
Lemma item_absent_input_not_empty :
  run (process_after_parse VNull) = inr [(VStr "a", VStr "b")] /\
  run (process_after_parse VUndef) = inr [(VStr "a", VStr "b")] /\
  run (process_after_parse VNull) <> inr [].
Proof.
  split; [vm_compute; reflexivity|]. split; [vm_compute; reflexivity|].
  vm_compute. discriminate.
Qed.

(** An instance: a new Item unit on [null]. *)
Lemma item_absent_input_witness :
  process host0 3 0 VNull (Heap [PObj ItemParser 0 None] [[]]) =
    Ok 0 (Heap [PObj ItemParser 0 None] [[]]) /\
  (exists r h', parse host0 3 0 VNull (Heap [PObj ItemParser 0 None] [[]]) = Ok r h' /\
                results h' !! r = Some []) /\
  (forall h0, exists r h',
      (it ← Parser_item; process host0 3 it VNull) h0 = Ok r h' /\
      results h' !! r = Some []).
Proof.
  apply (item_absent_input host0 2 0 (PObj ItemParser 0 None) VNull
           (Heap [PObj ItemParser 0 None] [[]])).
  - reflexivity.
  - reflexivity.
  - left; reflexivity.
Defined.

(** * Further properties of the engine *)

(** ** [parse] in terms of [process] *)

(** [parse] returns the Result that [process] returns from the store
    with a new buffer, its values mapped when the unit has a mapping. *)
Lemma parse_of_process host n l o input h r h2 ds :
  objs h !! l = Some o ->
  process host n l input (reset_heap l o h) = Ok r h2 ->
  results h2 !! r = Some ds ->
  exists h',
    parse host n l input h = Ok r h' /\
    results h' !! r = Some (match mapValues o with
                            | Some f => map_entries f ds
                            | None => ds
                            end).
Proof.
  intros Hl Hp Hr.
  assert (Hl0 : objs (reset_heap l o h) !! l
                = Some (PObj (cls o) (length (results h)) (mapValues o))).
  { simpl. apply list_lookup_insert_eq. eapply lookup_lt_Some; eauto. }
  destruct (process_keeps _ _ _ _ _ _ _ Hp _ _ Hl0) as (o2 & Hl2 & Hm2).
  simpl in Hm2. pose proof (lookup_lt_Some _ _ _ Hr) as Hltr.
  unfold parse. rewrite (parse_with_run _ _ _ _ _ _ _ _ Hl Hp Hl2), Hm2.
  destruct (mapValues o) as [f|].
  - rewrite Hr. eexists. split; [reflexivity|]. simpl.
    now apply list_lookup_insert_eq.
  - eexists. split; [reflexivity|]. exact Hr.
Qed.

Lemma reset_lookup l o h :
  objs h !! l = Some o ->
  objs (reset_heap l o h) !! l = Some (PObj (cls o) (length (results h)) (mapValues o)).
Proof. intros Hl. simpl. apply list_lookup_insert_eq. eapply lookup_lt_Some; eauto. Qed.

(** ** A run keeps the classes of the units *)

Lemma classes_refl h : keeps_classes h h.
Proof. intros l o H. exists o. auto. Qed.

Lemma classes_trans h1 h2 h3 :
  keeps_classes h1 h2 -> keeps_classes h2 h3 -> keeps_classes h1 h3.
Proof.
  intros K1 K2 l o H. destruct (K1 _ _ H) as (o2 & H2 & M2 & C2).
  destruct (K2 _ _ H2) as (o3 & H3 & M3 & C3). exists o3.
  split; [assumption|]. split; [congruence|].
  destruct C2 as [C2|(fn & c & C2 & C2')].
  - destruct C3 as [C3|(fn & c & C3 & C3')]; [left; congruence|right].
    exists fn, c. split; congruence.
  - right. exists fn, c. split; [assumption|].
    destruct C3 as [C3|(fn' & c' & C3 & C3')]; congruence.
Qed.

Lemma built_classes h h' : built h h' -> keeps_classes h h'.
Proof. intros B l o H. exists o. split; [now apply (built_objs _ _ B)|auto]. Qed.

Lemma same_objs_classes h h' : objs h' = objs h -> keeps_classes h h'.
Proof. intros E l o H. exists o. rewrite E. auto. Qed.

Lemma set_result_classes l r h u h' : set_result l r h = Ok u h' -> keeps_classes h h'.
Proof.
  intros H. apply set_result_Ok in H as (o & Ho & ->). intros k x Hk. simpl.
  destruct (decide (k = l)) as [->|Hne].
  - rewrite list_lookup_insert_eq by (eapply lookup_lt_Some; eauto).
    eexists; split; [reflexivity|]. simpl. split; [congruence|left; congruence].
  - rewrite list_lookup_insert_ne by congruence. eauto.
Qed.

(** A lazy unit without a definition gets one. *)
Lemma set_cls_classes l fn c h u h' o :
  set_cls l (LazyParser fn (Some c)) h = Ok u h' ->
  objs h !! l = Some o -> cls o = LazyParser fn None ->
  keeps_classes h h'.
Proof.
  intros H Hl Hc. apply set_cls_Ok in H as (o1 & Ho & ->).
  rewrite Hl in Ho. injection Ho as <-. intros k x Hk. simpl.
  destruct (decide (k = l)) as [->|Hne].
  - rewrite list_lookup_insert_eq by (eapply lookup_lt_Some; eauto).
    eexists; split; [reflexivity|]. simpl. rewrite Hl in Hk. injection Hk as <-.
    split; [reflexivity|right]. eauto.
  - rewrite list_lookup_insert_ne by congruence. eauto.
Qed.

Lemma get_obj_classes l h o h' : get_obj l h = Ok o h' -> keeps_classes h h'.
Proof. intros H. apply get_obj_Ok in H as [-> _]. apply classes_refl. Qed.

Lemma this_result_classes l h r h' : this_result l h = Ok r h' -> keeps_classes h h'.
Proof. intros H. apply this_result_Ok in H as [-> _]. apply classes_refl. Qed.

Lemma Result_entries_classes r h ds h' :
  Result_entries r h = Ok ds h' -> keeps_classes h h'.
Proof. intros H. apply Result_entries_Ok in H as [-> _]. apply classes_refl. Qed.

Lemma Result_length_classes r h n h' :
  Result_length r h = Ok n h' -> keeps_classes h h'.
Proof. intros H. apply Result_length_Ok in H as [-> _]. apply classes_refl. Qed.

Lemma Result_push_classes r v rest h a h' :
  Result_push r v rest h = Ok a h' -> keeps_classes h h'.
Proof.
  intros H. apply Result_push_Ok in H as (_ & ds & _ & ->). now apply same_objs_classes.
Qed.

Lemma Result_concat_classes r1 r2 h a h' :
  Result_concat r1 r2 h = Ok a h' -> keeps_classes h h'.
Proof.
  intros H. apply Result_concat_Ok in H as (_ & ds1 & ds2 & _ & _ & ->).
  now apply same_objs_classes.
Qed.

Lemma Result_map_values_classes r f h u h' :
  Result_map_values r f h = Ok u h' -> keeps_classes h h'.
Proof.
  intros H. apply Result_map_values_Ok in H as (ds & _ & ->). now apply same_objs_classes.
Qed.

Lemma Result_new_classes h r h' : Result_new h = Ok r h' -> keeps_classes h h'.
Proof. intros H. apply Result_new_Ok in H as [_ ->]. now apply same_objs_classes. Qed.

Lemma copy_classes n l h a h' : copy n l h = Ok a h' -> keeps_classes h h'.
Proof. intros H. apply copy_built in H as [B _]. now apply built_classes. Qed.

Lemma parserifyCb_classes host n cb v input h l h' :
  parserifyCb host n cb v input h = Ok l h' -> keeps_classes h h'.
Proof. intros H. apply parserifyCb_built in H as [B _]. now apply built_classes. Qed.

Create HintDb classes discriminated.
#[export] Hint Resolve set_result_classes get_obj_classes this_result_classes
  Result_entries_classes Result_length_classes Result_push_classes Result_concat_classes
  Result_map_values_classes Result_new_classes copy_classes parserifyCb_classes : classes.

Ltac classes_facts :=
  repeat match goal with
  | H : _ ?h = Ok ?a ?h1 |- _ =>
      lazymatch goal with B : keeps_classes h h1 |- _ => fail | _ => idtac end;
      assert (keeps_classes h h1) by (eauto 2 with classes)
  end.

Ltac classes_solve :=
  repeat match goal with
  | |- keeps_classes ?h ?h => apply classes_refl
  | B : keeps_classes ?h ?h' |- keeps_classes ?h ?h' => exact B
  | B : keeps_classes ?h ?h1 |- keeps_classes ?h ?h' => apply (classes_trans h h1 h' B)
  end.

Ltac classes_auto := mbreak; classes_facts; classes_solve.

Section ClassesProcess.
Variable host : nat -> value -> value -> failure + value.
Variable n : nat.
Variable sub_parse sub_process : loc -> value -> M loc.
Hypothesis sub_parse_classes : forall l input h r h',
  sub_parse l input h = Ok r h' -> keeps_classes h h'.
Hypothesis sub_process_classes : forall l input h r h',
  sub_process l input h = Ok r h' -> keeps_classes h h'.

Lemma binded_loop_classes l cb ds h u h' :
  binded_loop host n sub_parse l cb ds h = Ok u h' -> keeps_classes h h'.
Proof.
  revert h u h'. induction ds as [|[v s] ds IH]; simpl; intros h u h' H.
  - classes_auto.
  - mbreak. apply IH in H. classes_auto.
Qed.

Lemma added_loop_classes l ps input h r h' :
  added_loop sub_parse l ps input h = Ok r h' -> keeps_classes h h'.
Proof.
  revert h r h'. induction ps as [|p ps IH]; simpl; intros h r h' H.
  - classes_auto.
  - mbreak; [|apply IH in H]; classes_auto.
Qed.

Lemma process_body_classes l input h r h' :
  process_body host n sub_parse sub_process l input h = Ok r h' -> keeps_classes h h'.
Proof.
  unfold process_body. intros H.
  pose proof binded_loop_classes. pose proof added_loop_classes.
  apply bind_Ok in H as (o & h0 & Hg & H). apply get_obj_Ok in Hg as [-> Ho].
  destruct (cls o) as [| | |v|p cb acs|ps|p|fn [c|]] eqn:E; try solve [classes_auto].
  apply bind_Ok in H as (c & h1 & Hc & H). apply bind_Ok in H as (u & h2 & Hs & H).
  destruct (copy_built _ _ _ _ _ Hc) as [B _].
  pose proof (set_cls_classes _ _ _ _ _ _ _ Hs (built_objs _ _ B _ _ Ho) E).
  classes_auto.
Qed.
End ClassesProcess.

Lemma parse_with_classes proc l input h r h' :
  (forall l input h r h', proc l input h = Ok r h' -> keeps_classes h h') ->
  parse_with proc l input h = Ok r h' -> keeps_classes h h'.
Proof. unfold parse_with. intros Hp H. classes_auto. Qed.

Lemma process_classes host n l input h r h' :
  process host n l input h = Ok r h' -> keeps_classes h h'.
Proof.
  revert l input h r h'. induction n as [|n IH]; intros l input h r h' H; [discriminate|].
  simpl in H. eapply process_body_classes; [| |exact H]; [|exact IH].
  intros. eapply parse_with_classes; eauto.
Qed.

Lemma parse_classes host n l input h r h' :
  parse host n l input h = Ok r h' -> keeps_classes h h'.
Proof. apply parse_with_classes. apply process_classes. Qed.

(** ** The shape of a unit of a derived class *)

Lemma fill_shape h l0 h1 h2 c u h' :
  Parser_new Unbuilt h = Ok l0 h1 ->
  built h1 h2 ->
  set_cls l0 c h2 = Ok u h' ->
  l0 = length (objs h) /\
  objs h' !! l0 = Some (PObj c (length (results h)) None) /\
  results h' !! length (results h) = Some [].
Proof.
  intros Hn B Hs. apply Parser_new_Ok in Hn as [-> ->].
  apply set_cls_Ok in Hs as (o & Ho & ->).
  pose proof (built_objs _ _ B (length (objs h)) _ (lookup_snoc _ _)) as Ho'.
  simpl in Ho'. rewrite Ho in Ho'. injection Ho' as ->. simpl.
  split; [reflexivity|]. split.
  - apply list_lookup_insert_eq. eapply lookup_lt_Some; eauto.
  - apply (built_results _ _ B). simpl. apply lookup_snoc.
Qed.

Ltac conj_split := repeat match goal with |- _ /\ _ => split end.

Lemma operations_from_built n parser nexts h l h' :
  operations_from n parser nexts h = Ok l h' ->
  built h h' /\ (length (objs h) <= l \/ l = parser).
Proof.
  revert parser h l h'.
  induction nexts as [|next nexts IH]; intros parser h l h' H; cbn [operations_from] in H.
  - mbreak. split; [apply built_refl|auto].
  - apply bind_Ok in H as (t & h1 & Ht & H). apply bind_Ok in H as (o & h2 & Ho & H).
    apply then_built in Ht as [B1 F1]. apply or_built in Ho as [B2 F2].
    apply IH in H as [B3 F3].
    pose proof (built_length_objs _ _ B1). pose proof (built_length_objs _ _ B2).
    split; [eauto using built_trans|]. left. destruct F3; lia.
Qed.

Lemma Parser_operations_built n nexts h l h' :
  Parser_operations n nexts h = Ok l h' -> built h h' /\ length (objs h) <= l.
Proof.
  unfold Parser_operations. intros H. apply bind_Ok in H as (z & h1 & Hz & H).
  apply Parser_zero_built in Hz as [B1 F1]. apply operations_from_built in H as [B2 F2].
  pose proof (built_length_objs _ _ B1).
  split; [eauto using built_trans|]. destruct F2; lia.
Qed.

(** X1. The combinators, the constructors and [copy] only allocate:
    every unit and every buffer of the store is left as it was, the
    unit returned is a new one, and the units that a new unit holds in
    its fields [parser] and [parsers] are new too, each allocated after
    it.  The same holds for the unit that a continuation hands to
    [then].  Nothing is said of the units that a callback or the
    function of a lazy unit names: those may be older units. *)
Theorem construction_only_allocates host (n : nat) :
  (forall l h a h', copy n l h = Ok a h' -> built h h' /\ length (objs h) <= a) /\
  (forall this next acs h a h',
     then_ n this next acs h = Ok a h' -> built h h' /\ length (objs h) <= a) /\
  (forall this alts h a h',
     or_ n this alts h = Ok a h' -> built h h' /\ length (objs h) <= a) /\
  (forall this empty h a h',
     orNone n this empty h = Ok a h' -> built h h' /\ length (objs h) <= a) /\
  (forall this h a h', not_ n this h = Ok a h' -> built h h' /\ length (objs h) <= a) /\
  (forall this condition h a h',
     satisfy n this condition h = Ok a h' -> built h h' /\ length (objs h) <= a) /\
  (forall this condition h a h',
     filter n this condition h = Ok a h' -> built h h' /\ length (objs h) <= a) /\
  (forall this v h a h',
     equals n this v h = Ok a h' -> built h h' /\ length (objs h) <= a) /\
  (forall this type h a h',
     many n this type h = Ok a h' -> built h h' /\ length (objs h) <= a) /\
  (forall this empty type h a h',
     manyOrNone n this empty type h = Ok a h' -> built h h' /\ length (objs h) <= a) /\
  (forall this v partial h a h',
     startsWith n this v partial h = Ok a h' -> built h h' /\ length (objs h) <= a) /\
  (forall this operation def h a h',
     chain n this operation def h = Ok a h' -> built h h' /\ length (objs h) <= a) /\
  (forall this operation def h a h',
     chainRight n this operation def h = Ok a h' -> built h h' /\ length (objs h) <= a) /\
  (forall nexts h a h',
     Parser_operations n nexts h = Ok a h' -> built h h' /\ length (objs h) <= a) /\
  (forall v h a h', Parser_result v h = Ok a h' -> built h h' /\ length (objs h) <= a) /\
  (forall h a h', Parser_zero h = Ok a h' -> built h h' /\ length (objs h) <= a) /\
  (forall h a h', Parser_item h = Ok a h' -> built h h' /\ length (objs h) <= a) /\
  (forall fn h a h', Parser_lazy fn h = Ok a h' -> built h h' /\ length (objs h) <= a) /\
  (forall cb v input h a h',
     parserifyCb host n cb v input h = Ok a h' -> built h h' /\ length (objs h) <= a).
Proof.
  conj_split; intros;
    first [ eapply Parser_operations_built; eassumption
          | eapply satisfy_built; eassumption
          | eauto 2 with built ].
Qed.

(** X2. [copy] by class.  The copy of a primitive unit is a new object
    with the fields of the original: it has the buffer and the mapping
    of the original.  The copy of a [then], [or] or [not] unit is a new
    unit of that class over new units, with the callback and the flag
    of the original, a new empty buffer and no mapping; so is the copy
    of a lazy unit without a definition.  The copy of a lazy unit with
    a definition is the copy of that definition. *)
Theorem copy_by_class (n : nat) (l : loc) (o : pobj) (h : heap) (l' : loc) (h' : heap) :
  copy (S n) l h = Ok l' h' -> objs h !! l = Some o ->
  match cls o with
  | Unbuilt => False
  | ItemParser | ZeroParser | ResultParser _ =>
      l' = length (objs h) /\ objs h' !! l' = Some o
  | BindedParser p cb acs =>
      l' = length (objs h) /\
      results h' !! length (results h) = Some [] /\
      exists q, objs h' !! l' = Some (PObj (BindedParser q cb acs) (length (results h)) None) /\
                l' < q
  | AddedParser ps =>
      l' = length (objs h) /\
      results h' !! length (results h) = Some [] /\
      exists qs, objs h' !! l' = Some (PObj (AddedParser qs) (length (results h)) None) /\
                 length qs = length ps /\ Forall (fun q => l' < q) qs
  | NegatedParser p =>
      l' = length (objs h) /\
      results h' !! length (results h) = Some [] /\
      exists q, objs h' !! l' = Some (PObj (NegatedParser q) (length (results h)) None) /\
                l' < q
  | LazyParser fn None =>
      l' = length (objs h) /\
      results h' !! length (results h) = Some [] /\
      objs h' !! l' = Some (PObj (LazyParser fn None) (length (results h)) None)
  | LazyParser fn (Some p) => copy n p h = Ok l' h'
  end.
Proof.
  intros H Hl. pose proof H as Hcopy. simpl in H. unfold copy_body in H.
  rewrite (bind_run _ _ _ _ _ (get_obj_run _ _ _ Hl)) in H.
  assert (Hleaf : is_leaf (cls o) = true ->
                  l' = length (objs h) /\ objs h' !! l' = Some o).
  { intros L. split; [|eapply copy_leaf; eauto].
    assert (Hb : (l1 ← Parser_new (cls o); set_obj l1 o;; mret l1) h = Ok l' h')
      by (destruct (cls o); try discriminate; exact H).
    rewrite (bind_run _ _ _ _ _ (Parser_new_run _ _)) in Hb. now injection Hb as <- _. }
  destruct (cls o) as [| | |v|p cb acs|ps|p|fn [c|]] eqn:E; try (now apply Hleaf).
  - discriminate.
  - unfold BindedParser_new in H.
    apply bind_Ok in H as (l0 & h1 & Hn & H). apply bind_Ok in H as (q & h2 & Hq & H).
    apply bind_Ok in H as (u & h3 & Hs & H). injection H as <- <-.
    apply copy_built in Hq as [B Hq].
    destruct (fill_shape _ _ _ _ _ _ _ Hn B Hs) as (-> & Ho & Hr).
    apply Parser_new_Ok in Hn as [_ ->]. simpl in Hq. rewrite length_app in Hq. simpl in Hq.
    split; [reflexivity|]. split; [assumption|]. exists q. split; [assumption|lia].
  - unfold AddedParser_new in H.
    apply bind_Ok in H as (l0 & h1 & Hn & H). apply bind_Ok in H as (qs & h2 & Hq & H).
    apply bind_Ok in H as (u & h3 & Hs & H). injection H as <- <-.
    pose proof (mapM_length _ _ _ _ _ Hq) as Hlen.
    apply (mapM_copy_built _ (copy_built n)) in Hq as [B Hq].
    destruct (fill_shape _ _ _ _ _ _ _ Hn B Hs) as (-> & Ho & Hr).
    apply Parser_new_Ok in Hn as [_ ->]. simpl in Hq. rewrite length_app in Hq. simpl in Hq.
    split; [reflexivity|]. split; [assumption|]. exists qs. split; [assumption|].
    split; [assumption|]. eapply Forall_impl; [exact Hq|]. simpl. intros; lia.
  - unfold NegatedParser_new in H.
    apply bind_Ok in H as (l0 & h1 & Hn & H). apply bind_Ok in H as (q & h2 & Hq & H).
    apply bind_Ok in H as (u & h3 & Hs & H). injection H as <- <-.
    apply copy_built in Hq as [B Hq].
    destruct (fill_shape _ _ _ _ _ _ _ Hn B Hs) as (-> & Ho & Hr).
    apply Parser_new_Ok in Hn as [_ ->]. simpl in Hq. rewrite length_app in Hq. simpl in Hq.
    split; [reflexivity|]. split; [assumption|]. exists q. split; [assumption|lia].
  - exact H.
  - apply Parser_new_Ok in H as [-> ->]. simpl.
    split; [reflexivity|]. split; apply lookup_snoc.
Qed.

(** An instance: the copy of a used Item unit has its buffer. *)
Lemma copy_by_class_witness :
  let h := Heap [PObj ItemParser 0 None] [[(VStr "a", VStr "")]] in
  exists h', copy 1 0 h = Ok 1 h' /\ objs h' !! 1 = Some (PObj ItemParser 0 None).
Proof.
  intros h. eexists. split; [reflexivity|].
  apply (copy_by_class 0 0 (PObj ItemParser 0 None) h 1 _ eq_refl eq_refl).
Defined.

(** X3. A run of [parse] or [process] removes no unit and changes no
    mapping and no class: a unit stays a unit of its class with the
    fields of that class, the units of a choice and the callback of a
    [then] for instance.  The one change is that a lazy unit without a
    definition may get one, which it keeps. *)
Theorem runs_keep_classes host (n : nat) (l : loc) (input : value) (h : heap)
    (r : loc) (h' : heap) :
  process host n l input h = Ok r h' \/ parse host n l input h = Ok r h' ->
  keeps_classes h h'.
Proof. intros [H|H]; [eapply process_classes|eapply parse_classes]; eauto. Qed.

(** An instance: a lazy unit over an Item unit, parsed once. *)
Lemma runs_keep_classes_witness :
  let h := Heap [PObj ItemParser 0 None; PObj (LazyParser 0 None) 1 None] [[]; []] in
  exists r h', parse host0 3 1 (VStr "ab") h = Ok r h' /\ keeps_classes h h' /\
               objs h' !! 1 = Some (PObj (LazyParser 0 (Some 2)) 0 None).
Proof.
  intros h. eexists _, _. split; [reflexivity|]. split; [|reflexivity].
  eapply (runs_keep_classes host0 3 1 (VStr "ab") h). right. reflexivity.
Defined.

(** X4. Well-formed stores: the empty store is well-formed, and the
    constructors, the combinators, [copy], [map], [parse] and
    [process] keep a store well-formed.  In every store reached from
    the empty one, then, the units that a unit holds in its fields
    [parser] and [parsers] were allocated after it, and the buffer of
    every unit exists.  Nothing is said of the units that a callback
    or the function of a lazy unit names. *)
Theorem store_stays_well_formed host (n : nat) :
  wf_heap empty_heap = true /\
  (forall l h a h', copy n l h = Ok a h' -> wf_heap h = true -> wf_heap h' = true) /\
  (forall this next acs h a h',
     then_ n this next acs h = Ok a h' -> wf_heap h = true -> wf_heap h' = true) /\
  (forall this alts h a h',
     or_ n this alts h = Ok a h' -> wf_heap h = true -> wf_heap h' = true) /\
  (forall this empty h a h',
     orNone n this empty h = Ok a h' -> wf_heap h = true -> wf_heap h' = true) /\
  (forall this h a h', not_ n this h = Ok a h' -> wf_heap h = true -> wf_heap h' = true) /\
  (forall this condition h a h',
     satisfy n this condition h = Ok a h' -> wf_heap h = true -> wf_heap h' = true) /\
  (forall this v h a h',
     equals n this v h = Ok a h' -> wf_heap h = true -> wf_heap h' = true) /\
  (forall this type h a h',
     many n this type h = Ok a h' -> wf_heap h = true -> wf_heap h' = true) /\
  (forall this empty type h a h',
     manyOrNone n this empty type h = Ok a h' -> wf_heap h = true -> wf_heap h' = true) /\
  (forall this v partial h a h',
     startsWith n this v partial h = Ok a h' -> wf_heap h = true -> wf_heap h' = true) /\
  (forall this operation def h a h',
     chain n this operation def h = Ok a h' -> wf_heap h = true -> wf_heap h' = true) /\
  (forall this operation def h a h',
     chainRight n this operation def h = Ok a h' -> wf_heap h = true -> wf_heap h' = true) /\
  (forall nexts h a h',
     Parser_operations n nexts h = Ok a h' -> wf_heap h = true -> wf_heap h' = true) /\
  (forall v h a h', Parser_result v h = Ok a h' -> wf_heap h = true -> wf_heap h' = true) /\
  (forall h a h', Parser_zero h = Ok a h' -> wf_heap h = true -> wf_heap h' = true) /\
  (forall h a h', Parser_item h = Ok a h' -> wf_heap h = true -> wf_heap h' = true) /\
  (forall fn h a h', Parser_lazy fn h = Ok a h' -> wf_heap h = true -> wf_heap h' = true) /\
  (forall this f h a h', map_ this f h = Ok a h' -> wf_heap h = true -> wf_heap h' = true) /\
  (forall l input h r h',
     parse host n l input h = Ok r h' -> wf_heap h = true -> wf_heap h' = true) /\
  (forall l input h r h',
     process host n l input h = Ok r h' -> wf_heap h = true -> wf_heap h' = true) /\
  (forall h l o, wf_heap h = true -> objs h !! l = Some o ->
     Forall (fun c => l < c) (children (cls o)) /\ result o < length (results h)).
Proof.
  assert (Hb : forall h h' a, built h h' /\ length (objs h) <= a ->
                              wf_heap h = true -> wf_heap h' = true)
    by (intros h h' a [B _]; now apply built_wf_heap).
  conj_split; try reflexivity; intros;
    try solve [ eapply Hb; [|eassumption];
                first [ eapply Parser_operations_built; eassumption
                      | eapply satisfy_built; eassumption
                      | eauto 2 with built ] ].
  - eapply map_wf; eauto.
  - eapply parse_wf; eauto.
  - apply wf_heap_iff. eapply process_wf; eauto. now apply wf_heap_iff.
  - now apply wf_heap_spec.
Qed.

Lemma process_item_array host n l o x xs h ds :
  objs h !! l = Some o -> cls o = ItemParser ->
  results h !! result o = Some ds ->
  process host (S n) l (VArr (x :: xs)) h =
    Ok (result o) (Heap (objs h) (<[result o := ds ++ [(x, VArr xs)]]> (results h))).
Proof.
  intros Hl Hc Hr. simpl. unfold process_body.
  rewrite (bind_run _ _ _ _ _ (get_obj_run _ _ _ Hl)), Hc. simpl.
  rewrite !ret_bind. now rewrite (Result_push_run _ _ _ _ _ Hr).
Qed.

(** X5. A primitive unit under [parse], from any store: the Result
    does not depend on what the unit parsed before.  A Zero unit yields
    nothing.  A Result unit yields its value, or the input when it has
    none, and consumes nothing.  An Item unit yields the first element
    of a non-empty string or array with the rest as remainder, and
    nothing on any other input that is not a function; what it does on
    a function depends on the number of its parameters, which the
    model does not have.  A mapping of the unit is applied to the
    values. *)
Theorem primitive_units_under_parse host (n : nat) (l : loc) (o : pobj) (input : value)
    (h : heap) :
  objs h !! l = Some o ->
  let mapped ds := match mapValues o with Some f => map_entries f ds | None => ds end in
  (cls o = ZeroParser ->
   exists r h', parse host (S n) l input h = Ok r h' /\ results h' !! r = Some []) /\
  (forall v, cls o = ResultParser v ->
   exists r h', parse host (S n) l input h = Ok r h' /\
     results h' !! r = Some (mapped [(match v with VUndef => input | _ => v end, input)])) /\
  (cls o = ItemParser -> (forall k, input <> VFun k) ->
   exists r h', parse host (S n) l input h = Ok r h' /\
     results h' !! r = Some (mapped match input with
                                    | VStr (String c s) => [(VStr (String c ""), VStr s)]
                                    | VArr (x :: xs) => [(x, VArr xs)]
                                    | _ => []
                                    end)).
Proof.
  intros Hl mapped. pose proof (reset_lookup _ _ _ Hl) as Hl0.
  assert (Hput : forall ds,
            results (Heap (objs (reset_heap l o h))
                          (<[length (results h) := ds]> (results (reset_heap l o h))))
              !! length (results h) = Some ds).
  { intros ds. simpl. apply list_lookup_insert_eq. rewrite length_app. simpl. lia. }
  assert (Hidle : (forall h1 o1, objs h1 !! l = Some o1 -> cls o1 = cls o ->
                     process host (S n) l input h1 = Ok (result o1) h1) ->
                  exists r h', parse host (S n) l input h = Ok r h' /\
                               results h' !! r = Some (mapped [])).
  { intros Hp. destruct (parse_idle host (S n) l o input h Hl Hp) as (h' & Hq & Hr).
    exists (length (results h)), h'. split; [assumption|].
    unfold mapped. now destruct (mapValues o). }
  split; [|split].
  - intros Hc. destruct (parse_zero host n l o input h Hl Hc) as (h' & Hp & Hr). eauto.
  - intros v Hc.
    pose proof (process_result host n l _ v input _ [] Hl0 Hc (lookup_snoc _ _)) as Hp.
    simpl result in Hp.
    destruct (parse_of_process _ _ _ _ _ _ _ _ _ Hl Hp (Hput _)) as (h' & Hq & Hr).
    eauto.
  - intros Hc Hfun.
    assert (Hfalsy : forall h1 o1, objs h1 !! l = Some o1 -> cls o1 = cls o ->
              match input with
              | VStr (String _ _) | VArr (_ :: _) | VFun _ => True
              | _ => process host (S n) l input h1 = Ok (result o1) h1
              end).
    { intros h1 o1 H1 Hc1. simpl. unfold process_body.
      rewrite (bind_run _ _ _ _ _ (get_obj_run _ _ _ H1)), Hc1, Hc.
      destruct input as [| |b|z|s|xs|k]; try reflexivity.
      - now destruct b.
      - simpl. now destruct (Z.eqb z 0).
      - now destruct s.
      - now destruct xs. }
    destruct input as [| |b|z|[|c s]|[|x xs]|k]; try (apply Hidle; exact Hfalsy).
    + pose proof (process_item_string host n l _ c s _ [] Hl0 Hc (lookup_snoc _ _)) as Hp.
      simpl result in Hp.
      destruct (parse_of_process _ _ _ _ _ _ _ _ _ Hl Hp (Hput _)) as (h' & Hq & Hr).
      eauto.
    + pose proof (process_item_array host n l _ x xs _ [] Hl0 Hc (lookup_snoc _ _)) as Hp.
      simpl result in Hp.
      destruct (parse_of_process _ _ _ _ _ _ _ _ _ Hl Hp (Hput _)) as (h' & Hq & Hr).
      eauto.
    + now destruct (Hfun k).
Qed.

(** An instance: an Item unit that has parsed ['a'] already, on an
    array. *)
Lemma primitive_units_under_parse_witness :
  let h := Heap [PObj ItemParser 0 None] [[(VStr "a", VStr "")]] in
  exists r h', parse host0 1 0 (VArr [VNum 1; VNum 2]) h = Ok r h' /\
               results h' !! r = Some [(VNum 1, VArr [VNum 2])].
Proof.
  intros h.
  refine (proj2 (proj2 (primitive_units_under_parse host0 0 0 (PObj ItemParser 0 None)
                          (VArr [VNum 1; VNum 2]) h eq_refl)) eq_refl _).
  intros k. discriminate.
Defined.

(** X6. A negation under [parse], from a well-formed store: its unit is
    run by [process], on the buffer that unit has; when the Result of
    that run is empty the negation yields the input as value and as
    remainder, otherwise it yields nothing.  A mapping of the negation
    is applied to the value. *)
Theorem negation_under_parse host (n : nat) (l : loc) (o : pobj) (p : loc) (input : value)
    (h : heap) (res : loc) (h1 : heap) (ds : list (value * value)) :
  wf_heap h = true ->
  objs h !! l = Some o -> cls o = NegatedParser p ->
  process host n p input (reset_heap l o h) = Ok res h1 ->
  results h1 !! res = Some ds ->
  exists r h',
    parse host (S n) l input h = Ok r h' /\
    results h' !! r =
      Some (match ds, mapValues o with
            | [], Some f => [(f input, input)]
            | [], None => [(input, input)]
            | _, _ => []
            end).
Proof.
  intros W Hl Hc Hp Hr.
  pose proof (reset_owned _ _ _ W Hl) as I0.
  set (oad := PObj (cls o) (length (results h)) (mapValues o)) in *.
  assert (Hleaf : is_leaf (cls oad) = false) by (simpl; now rewrite Hc).
  assert (Hlt : l < p).
  { destruct (wf_heap_spec _ _ _ W Hl) as [H _]. rewrite Hc in H.
    now apply Forall_cons_1 in H as [H _]. }
  destruct (process_owned _ _ _ _ Hleaf _ _ _ _ _ _ _ Hp I0 Hlt) as [[_ Hu Hb _] _].
  assert (Hq : process host (S n) l input (reset_heap l o h) =
               match ds with
               | [] => Ok (length (results h))
                          (Heap (objs h1)
                                (<[length (results h) := [(input, input)]]> (results h1)))
               | _ => Ok (length (results h)) h1
               end).
  { simpl. unfold process_body.
    rewrite (bind_run _ _ _ _ _ (get_obj_run _ _ _ (owned_unit _ _ _ _ _ I0))).
    replace (cls oad) with (NegatedParser p) by (symmetry; exact Hc).
    rewrite (bind_run _ _ _ _ _ Hp).
    rewrite (bind_run _ _ _ _ _ (Result_length_run _ _ _ Hr)).
    rewrite (bind_run _ _ _ _ _ (this_result_run _ _ _ Hu)). simpl result.
    destruct ds; simpl; [|reflexivity].
    now rewrite (Result_push_run _ _ _ _ _ Hb). }
  destruct ds as [|d ds].
  - edestruct (parse_of_process host (S n) l o input h) as (h' & Hq' & Hr');
      [exact Hl|exact Hq| |].
    + simpl. apply list_lookup_insert_eq. eapply lookup_lt_Some; eauto.
    + exists (length (results h)), h'. split; [assumption|].
      rewrite Hr'. now destruct (mapValues o).
  - edestruct (parse_of_process host (S n) l o input h) as (h' & Hq' & Hr');
      [exact Hl|exact Hq|exact Hb|].
    exists (length (results h)), h'. split; [assumption|].
    rewrite Hr'. now destruct (mapValues o).
Qed.

(** An instance: [item().not()] in the store it is built in, on ['']
    and on ['a']. *)
Lemma negation_under_parse_witness :
  let h := Heap [PObj ItemParser 0 None; PObj (NegatedParser 2) 1 None;
                 PObj ItemParser 0 None] [[]; []] in
  (exists r h', parse host0 2 1 (VStr "") h = Ok r h' /\
                results h' !! r = Some [(VStr "", VStr "")]) /\
  (exists r h', parse host0 2 1 (VStr "a") h = Ok r h' /\ results h' !! r = Some []).
Proof.
  intros h. split.
  - apply (negation_under_parse host0 1 1 (PObj (NegatedParser 2) 1 None) 2 (VStr "") h
             0 (reset_heap 1 (PObj (NegatedParser 2) 1 None) h) []); reflexivity.
  - apply (negation_under_parse host0 1 1 (PObj (NegatedParser 2) 1 None) 2 (VStr "a") h
             0 (Heap (objs (reset_heap 1 (PObj (NegatedParser 2) 1 None) h))
                     [[(VStr "a", VStr "")]; []; []]) [(VStr "a", VStr "")]); reflexivity.
Defined.

(** ** [then]: the loop over the derivations of the first unit *)

Lemma Result_concat_run r1 r2 h ds1 ds2 :
  results h !! r1 = Some ds1 -> results h !! r2 = Some ds2 ->
  Result_concat r1 r2 h = Ok (length (results h)) (Heap (objs h) (results h ++ [ds1 ++ ds2])).
Proof.
  intros H1 H2. unfold Result_concat.
  rewrite (bind_run _ _ _ _ _ (Result_entries_run _ _ _ H1)).
  rewrite (bind_run _ _ _ _ _ (Result_entries_run _ _ _ H2)).
  rewrite (bind_run _ _ h (length (results h)) (Heap (objs h) (results h ++ [[]])))
    by reflexivity.
  unfold Result_put, mbind, M_bind, bind, mret, M_ret, ret. simpl. do 2 f_equal.
  rewrite insert_app_r_alt by lia. now rewrite Nat.sub_diag.
Qed.

Lemma parse_well_formed host n l input h r h' :
  parse host n l input h = Ok r h' -> well_formed h ->
  well_formed h' /\ length (results h) <= length (results h') /\ r < length (results h').
Proof.
  intros H W. eapply parse_with_wf in H as [[? ?] ?]; eauto. apply process_wf.
Qed.

Lemma advance_wf ad o h ds :
  well_formed h -> objs h !! ad = Some o ->
  well_formed (Heap (<[ad := PObj (cls o) (length (results h)) (mapValues o)]> (objs h))
                    (results h ++ [ds])).
Proof.
  intros W Ho k x Hk. simpl in *. rewrite length_app. simpl.
  destruct (decide (k = ad)) as [->|Hne].
  - rewrite list_lookup_insert_eq in Hk by (eapply lookup_lt_Some; eauto).
    injection Hk as <-. simpl. split; [apply (W _ _ Ho)|lia].
  - rewrite list_lookup_insert_ne in Hk by congruence.
    destruct (W _ _ Hk). split; [assumption|lia].
Qed.

Lemma reset_wf ad o h :
  well_formed h -> objs h !! ad = Some o -> well_formed (reset_heap ad o h).
Proof. apply advance_wf. Qed.

(** The unit [ad] gets a new buffer: it is the only unit with it. *)
Lemma owned_advance ad oad r0 ds0 h ds :
  owned ad oad r0 ds0 h -> well_formed h ->
  owned ad (PObj (cls oad) (length (results h)) (mapValues oad)) (length (results h)) ds
        (Heap (<[ad := PObj (cls oad) (length (results h)) (mapValues oad)]> (objs h))
              (results h ++ [ds])).
Proof.
  intros [Hc Hu Hb Ha] W. pose proof (lookup_lt_Some _ _ _ Hu) as Hlt. split; simpl.
  - intros k x Hk Hge. destruct (decide (k = ad)) as [->|Hne].
    + rewrite list_lookup_insert_eq in Hk by assumption. injection Hk as <-. simpl. eauto.
    + rewrite list_lookup_insert_ne in Hk by congruence. eauto.
  - now apply list_lookup_insert_eq.
  - apply lookup_snoc.
  - intros k x Hk Hr. destruct (decide (k = ad)) as [->|Hne]; [reflexivity|].
    rewrite list_lookup_insert_ne in Hk by congruence.
    destruct (W _ _ Hk) as [_ Hx]. lia.
Qed.

Lemma process_binded host n l o p cb acs input h :
  objs h !! l = Some o -> cls o = BindedParser p cb acs ->
  process host (S n) l input h =
    (firstResult ← parse host n p input;
     len ← Result_length firstResult;
     if acs && (len =? 0)%nat then
       next ← parserifyCb host n cb (VStr "") input;
       parse host n next input
     else
       ds ← Result_entries firstResult;
       binded_loop host n (parse host n) l cb ds;;
       this_result l) h.
Proof.
  intros Hl Hc. simpl. unfold process_body.
  rewrite (bind_run _ _ _ _ _ (get_obj_run _ _ _ Hl)), Hc. reflexivity.
Qed.

Section Continuations.
Variable host : nat -> value -> value -> failure + value.
Variable n : nat.
Variable l : loc.
Variable cb : closure.

(** The relation follows the loop. *)
Lemma continuations_loop ds h rs h' :
  continuations host n l cb ds h rs h' ->
  binded_loop host n (parse host n) l cb ds h = Ok tt h'.
Proof.
  induction 1 as [h|v s ds h cur next h1 r h2 out new h3 h4 rest h5
                    Hcur Hcb Hp Hout Hcat Hset K IH]; simpl; [reflexivity|].
  rewrite (bind_run _ _ _ _ _ Hcur), (bind_run _ _ _ _ _ Hcb), (bind_run _ _ _ _ _ Hp).
  rewrite (bind_run _ _ _ _ _ Hcat), (bind_run _ _ _ _ _ Hset). exact IH.
Qed.

(** The buffer of [l] accumulates the Results of the continuations:
    no run of a continuation touches the unit [l] or its buffer. *)
Lemma continuations_owned ds h rs h' oad acc :
  is_leaf (cls oad) = false ->
  continuations host n l cb ds h rs h' ->
  well_formed h -> owned l oad (result oad) acc h ->
  exists ra, well_formed h' /\
             owned l (PObj (cls oad) ra (mapValues oad)) ra (acc ++ rs) h'.
Proof.
  intros Hleaf K. revert oad acc Hleaf.
  induction K as [h|v s ds h cur next h1 r h2 out new h3 h4 rest h5
                    Hcur Hcb Hp Hout Hcat Hset K IH]; intros oad acc Hleaf W I.
  - exists (result oad). split; [assumption|]. rewrite app_nil_r. now destruct oad.
  - destruct (parserifyCb_owned _ _ _ _ Hleaf _ _ _ _ _ _ _ _ Hcb I) as [I1 Hlt].
    destruct (parserifyCb_wf _ _ _ _ _ _ _ _ Hcb W) as [[W1 _] _].
    destruct (parse_owned _ _ _ _ Hleaf _ _ _ _ _ _ _ Hp I1 Hlt) as [I2 Hne].
    destruct (parse_well_formed _ _ _ _ _ _ _ Hp W1) as (W2 & _ & _).
    apply this_result_Ok in Hcur as (_ & o0 & Ho0 & ->).
    rewrite (owned_unit _ _ _ _ _ I) in Ho0. injection Ho0 as <-.
    apply Result_concat_Ok in Hcat as (-> & ds1 & ds2 & H1 & H2 & ->).
    rewrite (owned_buffer _ _ _ _ _ I2) in H1. injection H1 as <-.
    rewrite Hout in H2. injection H2 as <-.
    apply set_result_Ok in Hset as (o3 & Ho3 & ->). simpl in Ho3.
    rewrite (owned_unit _ _ _ _ _ I2) in Ho3. injection Ho3 as <-.
    pose proof (owned_advance _ _ _ _ _ (acc ++ out) I2 W2) as I4.
    pose proof (advance_wf _ _ _ (acc ++ out) W2 (owned_unit _ _ _ _ _ I2)) as W4.
    simpl objs in *. simpl results in *.
    destruct (IH (PObj (cls oad) (length (results h2)) (mapValues oad)) (acc ++ out)
                 Hleaf W4 I4) as (ra & W5 & I5). simpl in I5.
    exists ra. split; [assumption|]. now rewrite app_assoc.
Qed.
End Continuations.

(** [parse] of a [then] unit whose flag does not apply: the Result holds
    the derivations of the continuations. *)
Lemma parse_binded_loop host n l o p cb acs input h fr h1 ds rs h2 :
  wf_heap h = true ->
  objs h !! l = Some o -> cls o = BindedParser p cb acs ->
  parse host n p input (reset_heap l o h) = Ok fr h1 ->
  results h1 !! fr = Some ds ->
  acs && (length ds =? 0)%nat = false ->
  continuations host n l cb ds h1 rs h2 ->
  exists r h',
    parse host (S n) l input h = Ok r h' /\
    results h' !! r = Some (match mapValues o with
                            | Some f => map_entries f rs
                            | None => rs
                            end).
Proof.
  intros W Hl Hc Hp Hr Hacs K.
  pose proof (reset_owned _ _ _ W Hl) as I0.
  apply wf_heap_iff in W. pose proof (reset_wf _ _ _ W Hl) as W0.
  set (oad := PObj (cls o) (length (results h)) (mapValues o)) in *.
  assert (Hleaf : is_leaf (cls oad) = false) by (simpl; now rewrite Hc).
  assert (Hlt : l < p).
  { destruct (W _ _ Hl) as [H _]. rewrite Hc in H. now apply Forall_cons_1 in H as [H _]. }
  destruct (parse_owned _ _ _ _ Hleaf _ _ _ _ _ _ _ Hp I0 Hlt) as [I1 _].
  destruct (parse_well_formed _ _ _ _ _ _ _ Hp W0) as (W1 & _ & _).
  destruct (continuations_owned _ _ _ _ _ _ _ _ oad [] Hleaf K W1 I1) as (ra & W2 & I2).
  simpl in I2.
  assert (Hq : process host (S n) l input (reset_heap l o h) = Ok ra h2).
  { rewrite (process_binded _ _ _ _ _ _ _ _ _ (owned_unit _ _ _ _ _ I0) Hc).
    rewrite (bind_run _ _ _ _ _ Hp).
    rewrite (bind_run _ _ _ _ _ (Result_length_run _ _ _ Hr)). rewrite Hacs.
    rewrite (bind_run _ _ _ _ _ (Result_entries_run _ _ _ Hr)).
    rewrite (bind_run _ _ _ _ _ (continuations_loop _ _ _ _ _ _ _ _ K)).
    now rewrite (this_result_run _ _ _ (owned_unit _ _ _ _ _ I2)). }
  destruct (parse_of_process _ _ _ _ _ _ _ _ _ Hl Hq (owned_buffer _ _ _ _ _ I2))
    as (h' & Hq' & Hr').
  eauto.
Qed.

(** X7. [then] on the derivations of its first unit.  From a
    well-formed store, [parse] of a [then] unit parses the first unit
    and, for each of its derivations [(value, rest)] in order, parses
    on [rest] the unit that the callback gives for [(value, rest)];
    the Result holds the derivations of these parses, in that order,
    mapped when the unit has a mapping.  In particular it is empty
    when the first unit yields nothing. *)
Theorem then_concatenates host (n : nat) (l : loc) (o : pobj) (p : loc) (cb : closure)
    (acs : bool) (input : value) (h : heap) (fr : loc) (h1 : heap)
    (ds rs : list (value * value)) (h2 : heap) :
  wf_heap h = true ->
  objs h !! l = Some o -> cls o = BindedParser p cb acs ->
  parse host n p input (reset_heap l o h) = Ok fr h1 ->
  results h1 !! fr = Some ds ->
  acs && (length ds =? 0)%nat = false ->
  continuations host n l cb ds h1 rs h2 ->
  exists r h',
    parse host (S n) l input h = Ok r h' /\
    results h' !! r = Some (match mapValues o with
                            | Some f => map_entries f rs
                            | None => rs
                            end).
Proof. intros W Hl Hc Hp Hr Hacs K. eapply parse_binded_loop; eauto. Qed.

(** An instance: [item().then((x) => x)] on ['ab']. *)
Lemma then_concatenates_witness :
  exists r h',
    parse host0 3 1 (VStr "ab") item_then_id_heap = Ok r h' /\
    results h' !! r = Some [(VStr "a", VStr "b")].
Proof.
  eapply (then_concatenates host0 2 1 (PObj (BindedParser 2 (CUser (fun x _ => RValue x)) false)
                                            1 None)
            2 _ false (VStr "ab") item_then_id_heap _ _ [(VStr "a", VStr "b")]
            [(VStr "a", VStr "b")]).
  - reflexivity.
  - reflexivity.
  - reflexivity.
  - lazy. reflexivity.
  - lazy. reflexivity.
  - reflexivity.
  - eapply (cont_step host0 2 1 _ _ _ [] _ _ _ _ _ _ [(VStr "a", VStr "b")] _ _ _ []).
    + lazy. reflexivity.
    + lazy. reflexivity.
    + lazy. reflexivity.
    + lazy. reflexivity.
    + lazy. reflexivity.
    + lazy. reflexivity.
    + apply cont_done.
Defined.

(** [parse] of a [then] unit whose flag applies. *)
Lemma parse_binded_second host n l o p cb input h fr h1 next h2 r h3 out :
  objs h !! l = Some o -> cls o = BindedParser p cb true ->
  parse host n p input (reset_heap l o h) = Ok fr h1 ->
  results h1 !! fr = Some [] ->
  parserifyCb host n cb (VStr "") input h1 = Ok next h2 ->
  parse host n next input h2 = Ok r h3 ->
  results h3 !! r = Some out ->
  exists h',
    parse host (S n) l input h = Ok r h' /\
    results h' !! r = Some (match mapValues o with
                            | Some f => map_entries f out
                            | None => out
                            end).
Proof.
  intros Hl Hc Hp Hr Hcb Hn Hout.
  assert (Hq : process host (S n) l input (reset_heap l o h) = Ok r h3).
  { rewrite (process_binded _ _ _ _ _ _ _ _ _ (reset_lookup _ _ _ Hl) Hc).
    rewrite (bind_run _ _ _ _ _ Hp).
    rewrite (bind_run _ _ _ _ _ (Result_length_run _ _ _ Hr)). simpl.
    rewrite (bind_run _ _ _ _ _ Hcb). exact Hn. }
  apply (parse_of_process _ _ _ _ _ _ _ _ _ Hl Hq Hout).
Qed.

(** X8. [then] with [alwaysCheckSecond].  When the flag is set and the
    first unit yields nothing, the callback is called once, with the
    empty string as value and the whole input, and [parse] returns the
    Result of the unit it gives, parsed on the whole input, mapped when
    the [then] unit has a mapping. *)
Theorem then_checks_second host (n : nat) (l : loc) (o : pobj) (p : loc) (cb : closure)
    (input : value) (h : heap) (fr : loc) (h1 : heap) (next : loc) (h2 : heap)
    (r : loc) (h3 : heap) (out : list (value * value)) :
  objs h !! l = Some o -> cls o = BindedParser p cb true ->
  parse host n p input (reset_heap l o h) = Ok fr h1 ->
  results h1 !! fr = Some [] ->
  parserifyCb host n cb (VStr "") input h1 = Ok next h2 ->
  parse host n next input h2 = Ok r h3 ->
  results h3 !! r = Some out ->
  exists h',
    parse host (S n) l input h = Ok r h' /\
    results h' !! r = Some (match mapValues o with
                            | Some f => map_entries f out
                            | None => out
                            end).
Proof. intros. eapply parse_binded_second; eauto. Qed.

(** An instance: [item().then(() => 'x', true)] on the empty input. *)
Lemma then_checks_second_witness :
  exists h',
    parse host0 3 1 (VStr "") item_then_x_heap = Ok 7 h' /\
    results h' !! 7 = Some [(VStr "x", VStr "")].
Proof.
  eapply (then_checks_second host0 2 1 (PObj (BindedParser 2 (CConst (RValue (VStr "x"))) true)
                                             1 None)
            2 _ (VStr "") item_then_x_heap).
  - reflexivity.
  - reflexivity.
  - lazy. reflexivity.
  - lazy. reflexivity.
  - lazy. reflexivity.
  - lazy. reflexivity.
  - lazy. reflexivity.
Defined.

(** ** Runs that succeed *)

Lemma copy_leaf_run m q h oq :
  objs h !! q = Some oq -> is_leaf (cls oq) = true ->
  copy (S m) q h = Ok (length (objs h)) (Heap (objs h ++ [oq]) (results h ++ [[]])).
Proof.
  intros Hq Hleaf. simpl. unfold copy_body.
  rewrite (bind_run _ _ _ _ _ (get_obj_run _ _ _ Hq)).
  assert (E : (l' ← Parser_new (cls oq); set_obj l' oq;; mret l') h =
              Ok (length (objs h)) (Heap (objs h ++ [oq]) (results h ++ [[]]))).
  { rewrite (bind_run _ _ _ _ _ (Parser_new_run _ _)).
    unfold set_obj, mbind, M_bind, bind, mret, M_ret, ret. simpl. do 2 f_equal.
    rewrite insert_app_r_alt by lia. now rewrite Nat.sub_diag. }
  destruct (cls oq); try discriminate; exact E.
Qed.

(** The unit that [parserifyCb] makes of a value: a copy of a new
    [result] unit. *)
Lemma parserifyCb_value host n cb v input h x h0 :
  apply_cb host (S n) cb v input h = Ok (RValue x) h0 ->
  exists next h1 o,
    parserifyCb host (S n) cb v input h = Ok next h1 /\
    objs h1 !! next = Some o /\ cls o = ResultParser x /\ mapValues o = None.
Proof.
  intros Ha. unfold parserifyCb. rewrite (bind_run _ _ _ _ _ Ha). simpl parserOf.
  unfold Parser_result. rewrite (bind_run _ _ _ _ _ (Parser_new_run _ _)).
  erewrite copy_leaf_run; [|apply lookup_snoc|reflexivity].
  eexists _, _, _. split; [reflexivity|]. simpl. split; [apply lookup_snoc|auto].
Qed.

(** The unit that [parserifyCb] makes of a primitive unit: a copy. *)
Lemma parserifyCb_leaf host n cb v input h q h0 oq :
  apply_cb host (S n) cb v input h = Ok (RParser q) h0 ->
  objs h0 !! q = Some oq -> is_leaf (cls oq) = true ->
  exists next h1,
    parserifyCb host (S n) cb v input h = Ok next h1 /\ objs h1 !! next = Some oq.
Proof.
  intros Ha Hq Hleaf. unfold parserifyCb. rewrite (bind_run _ _ _ _ _ Ha). simpl parserOf.
  rewrite ret_bind. erewrite copy_leaf_run; [|exact Hq|exact Hleaf].
  eexists _, _. split; [reflexivity|]. simpl. apply lookup_snoc.
Qed.

(** ** The continuations exist *)

Section ContinuationsExist.
Variable host : nat -> value -> value -> failure + value.
Variable n : nat.
Variable l : loc.
Variable cb : closure.
(** What the continuation of a derivation yields. *)
Variable f : value * value -> list (value * value).
(** What the callback needs of the store, and of a derivation. *)
Variable P : heap -> Prop.
Variable Q : value * value -> Prop.
Hypothesis P_stable : forall h h', P h -> keeps_classes h h' -> P h'.
Hypothesis step : forall v s h, well_formed h -> P h -> Q (v, s) ->
  exists next h1 r h2,
    parserifyCb host n cb v s h = Ok next h1 /\
    parse host n next s h1 = Ok r h2 /\
    results h2 !! r = Some (f (v, s)).

Lemma continuations_exist ds h :
  Forall Q ds -> well_formed h -> P h -> l < length (objs h) ->
  exists h', continuations host n l cb ds h (flat_map f ds) h' /\
             well_formed h' /\ keeps_classes h h'.
Proof.
  intros HQ. revert h. induction HQ as [|[v s] ds Hq HQ IH]; intros h W Ph Hlt.
  - exists h. split; [constructor|]. split; [assumption|apply classes_refl].
  - destruct (lookup_lt_is_Some_2 _ _ Hlt) as [o Ho].
    destruct (step v s h W Ph Hq) as (next & h1 & r & h2 & Hcb & Hp & Hout).
    pose proof (parserifyCb_classes _ _ _ _ _ _ _ _ Hcb) as K1.
    pose proof (parse_classes _ _ _ _ _ _ _ Hp) as K2.
    destruct (parserifyCb_wf _ _ _ _ _ _ _ _ Hcb W) as [[W1 L1] _].
    destruct (parse_well_formed _ _ _ _ _ _ _ Hp W1) as (W2 & L2 & _).
    destruct (K1 _ _ Ho) as (o1 & Ho1 & _). destruct (K2 _ _ Ho1) as (o2 & Ho2 & _).
    destruct (W _ _ Ho) as [_ Hr].
    destruct (lookup_lt_is_Some_2 (results h2) (result o)) as [acc Hacc]; [lia|].
    pose proof (Result_concat_run _ _ _ _ _ Hacc Hout) as Hcat.
    pose proof (set_result_run l (length (results h2))
                  (Heap (objs h2) (results h2 ++ [acc ++ f (v, s)])) o2 Ho2) as Hset.
    simpl objs in Hset. simpl results in Hset.
    pose proof (classes_trans _ _ _ (Result_concat_classes _ _ _ _ _ Hcat)
                  (set_result_classes _ _ _ _ _ Hset)) as K4.
    pose proof (advance_wf _ _ _ (acc ++ f (v, s)) W2 Ho2) as W4.
    pose proof (classes_trans _ _ _ K1 (classes_trans _ _ _ K2 K4)) as K.
    destruct (IH _ W4 (P_stable _ _ Ph K)) as (h' & Kc & W' & K').
    { simpl. rewrite length_insert. eapply lookup_lt_Some; eauto. }
    exists h'. split; [|split; [assumption|eapply classes_trans; eauto]].
    simpl. eapply cont_step; eauto. now apply this_result_run.
Qed.
End ContinuationsExist.

(** ** [satisfy] *)

Lemma then_cb_unit m this c acs h l h' :
  then_ m this (NextCb c) acs h = Ok l h' ->
  l = length (objs h) /\
  results h' !! length (results h) = Some [] /\
  exists p, objs h' !! l = Some (PObj (BindedParser p c acs) (length (results h)) None) /\
            l < p /\
            forall othis, objs h !! this = Some othis -> is_leaf (cls othis) = true ->
                          objs h' !! p = Some othis.
Proof.
  unfold then_, BindedParser_new. intros H.
  apply bind_Ok in H as (l0 & h1 & Hn & H). apply bind_Ok in H as (q & h2 & Hq & H).
  apply bind_Ok in H as (u & h3 & Hs & H). injection H as <- <-.
  destruct (copy_built _ _ _ _ _ Hq) as [B Hge].
  destruct (fill_shape _ _ _ _ _ _ _ Hn B Hs) as (-> & Ho & Hr).
  pose proof Hn as Hn'. apply Parser_new_Ok in Hn' as [_ ->].
  simpl in Hge. rewrite length_app in Hge. simpl in Hge.
  split; [reflexivity|]. split; [assumption|]. exists q. split; [assumption|].
  split; [lia|]. intros othis Hthis Hleaf.
  apply set_cls_Ok in Hs as (o & _ & ->). simpl.
  rewrite list_lookup_insert_ne by lia.
  eapply copy_leaf; [exact Hq| |exact Hleaf]. simpl.
  rewrite lookup_app_l by (eapply lookup_lt_Some; eauto). exact Hthis.
Qed.

Lemma set_cls_run l c h o :
  objs h !! l = Some o ->
  set_cls l c h = Ok tt (Heap (<[l := PObj c (result o) (mapValues o)]> (objs h)) (results h)).
Proof. intros H. unfold set_cls. now rewrite (bind_run _ _ _ _ _ (get_obj_run _ _ _ H)). Qed.

(** [then] copies [this], in the store where the new unit is under
    construction, and stores the copy with the callback. *)
Lemma then_copies m this c acs h l h' :
  then_ m this (NextCb c) acs h = Ok l h' ->
  l = length (objs h) /\
  exists p hb,
    copy m this (under_construction h) = Ok p hb /\
    h' = Heap (<[l := PObj (BindedParser p c acs) (length (results h)) None]> (objs hb))
              (results hb).
Proof.
  unfold then_, BindedParser_new. intros H.
  apply bind_Ok in H as (l0 & h1 & Hn & H). apply bind_Ok in H as (q & h2 & Hq & H).
  apply bind_Ok in H as (u & h3 & Hs & H). injection H as <- <-.
  rewrite Parser_new_run in Hn. injection Hn as <- <-.
  split; [reflexivity|]. exists q, h2. split; [exact Hq|].
  destruct (copy_built _ _ _ _ _ Hq) as [B _].
  assert (Hl : objs h2 !! length (objs h) = Some (PObj Unbuilt (length (results h)) None)).
  { apply (built_objs _ _ B). apply lookup_snoc. }
  rewrite (set_cls_run _ _ _ _ Hl) in Hs. now injection Hs as <-.
Qed.

Lemma then_leaf_run m this othis c acs h :
  objs h !! this = Some othis -> is_leaf (cls othis) = true ->
  exists l h', then_ (S m) this (NextCb c) acs h = Ok l h'.
Proof.
  intros Hthis Hleaf. unfold then_, BindedParser_new.
  pose proof (lookup_lt_Some _ _ _ Hthis) as Hlt.
  rewrite (bind_run _ _ _ _ _ (Parser_new_run _ _)).
  assert (H1 : objs (Heap (objs h ++ [PObj Unbuilt (length (results h)) None])
                          (results h ++ [[]])) !! this = Some othis)
    by (simpl; now rewrite lookup_app_l).
  rewrite (bind_run _ _ _ _ _ (copy_leaf_run m this _ othis H1 Hleaf)).
  assert (H2 : objs (Heap ((objs h ++ [PObj Unbuilt (length (results h)) None]) ++ [othis])
                          ((results h ++ [[]]) ++ [[]])) !! length (objs h)
               = Some (PObj Unbuilt (length (results h)) None)).
  { simpl. rewrite lookup_app_l by (rewrite length_app; simpl; lia). apply lookup_snoc. }
  simpl objs. simpl results.
  rewrite (bind_run _ _ _ _ _ (set_cls_run _ _ _ _ H2)).
  eexists _, _. reflexivity.
Qed.

(** What the continuation of [satisfy] keeps of a derivation, when the
    test answers [b]. *)
Lemma satisfy_step host n condition v s h b :
  condition v = inr b ->
  exists next h1 r h2,
    parserifyCb host (S n) (CSatisfy condition) v s h = Ok next h1 /\
    parse host (S n) next s h1 = Ok r h2 /\
    results h2 !! r =
      Some (if b then [(match v with VUndef => s | _ => v end, s)] else []).
Proof.
  intros E. destruct b.
  - destruct (parserifyCb_value host n (CSatisfy condition) v s h v h)
      as (next & h1 & o & Hcb & Ho & Hc & Hm).
    { unfold apply_cb. rewrite E. reflexivity. }
    destruct (parse_result_unit host n next o v s h1 Ho Hc Hm) as (r & h2 & Hp & Hr).
    eauto 8.
  - destruct (parserifyCb_leaf host n (CSatisfy condition) v s h (length (objs h))
                (Heap (objs h ++ [PObj ZeroParser (length (results h)) None])
                      (results h ++ [[]]))
                (PObj ZeroParser (length (results h)) None))
      as (next & h1 & Hcb & Ho).
    { unfold apply_cb. rewrite E. reflexivity. }
    { apply lookup_snoc. }
    { reflexivity. }
    destruct (parse_zero host n next _ s h1 Ho eq_refl) as (h2 & Hp & Hr).
    eauto 8.
Qed.

(** [parse] of the unit of [satisfy], when the test answers on every
    value that the first unit yields. *)
Lemma parse_satisfy host n l o p condition input h fr h1 ds :
  wf_heap h = true ->
  objs h !! l = Some o -> cls o = BindedParser p (CSatisfy condition) false ->
  parse host (S n) p input (reset_heap l o h) = Ok fr h1 ->
  results h1 !! fr = Some ds ->
  Forall (fun d => exists b, condition (fst d) = inr b) ds ->
  exists r h',
    parse host (S (S n)) l input h = Ok r h' /\
    results h' !! r =
      Some (let kept :=
              flat_map (fun '(v, s) => match condition v with
                                       | inr true => [(match v with VUndef => s | _ => v end, s)]
                                       | _ => []
                                       end) ds in
            match mapValues o with Some f => map_entries f kept | None => kept end).
Proof.
  intros W Hl Hc Hp Hr Hans. pose proof W as W'. apply wf_heap_iff in W'.
  pose proof (reset_wf _ _ _ W' Hl) as W0.
  destruct (parse_well_formed _ _ _ _ _ _ _ Hp W0) as (W1 & _ & _).
  pose proof (parse_classes _ _ _ _ _ _ _ Hp) as K1.
  destruct (K1 _ _ (reset_lookup _ _ _ Hl)) as (o1 & Ho1 & _).
  set (f := fun '((v, s) : value * value) =>
              match condition v with
              | inr true => [(match v with VUndef => s | _ => v end, s)]
              | _ => []
              end).
  assert (Hstep : forall v s h0, well_formed h0 -> True ->
            (exists b, condition (fst (v, s)) = inr b) ->
            exists next h2 r h3,
              parserifyCb host (S n) (CSatisfy condition) v s h0 = Ok next h2 /\
              parse host (S n) next s h2 = Ok r h3 /\
              results h3 !! r = Some (f (v, s))).
  { intros v s h0 _ _ [b E]. simpl in E.
    destruct (satisfy_step host n condition v s h0 b E) as (next & h2 & r & h3 & Hcb & Hq & Hres).
    exists next, h2, r, h3. split; [exact Hcb|]. split; [exact Hq|].
    rewrite Hres. unfold f. rewrite E. now destruct b. }
  destruct (continuations_exist host (S n) l (CSatisfy condition) f
              (fun _ => True) (fun d => exists b, condition (fst d) = inr b)
              (fun _ _ _ _ => I) Hstep ds h1 Hans)
    as (h2 & K & _ & _); auto.
  { eapply lookup_lt_Some; eauto. }
  eapply parse_binded_loop; eauto.
Qed.

(** [v === x] has an answer unless both are arrays. *)
Lemma strict_eq_answers v x :
  (forall xs, v <> VArr xs) \/ (forall xs, x <> VArr xs) -> exists b, strict_eq v x = inr b.
Proof.
  intros [H|H]; destruct v, x; simpl; eauto; now edestruct H.
Qed.

(** X9. [satisfy], [filter] and [equals].  They build a [then] unit:
    [this] is copied, in the store where the new unit is under
    construction, and the new unit holds that copy, with the test as
    callback (for [equals], the test [v === input]), a new buffer and
    no mapping.  Under [parse], from a well-formed store, and when the
    test answers on every value that the first unit yields, that unit
    keeps, in order, the derivations of the first unit whose value
    passes the test and drops the others; remainders are kept as they
    are, and a value [undefined] that passes is replaced by the
    remainder.  A mapping of the unit is applied to the values kept.
    The test of [equals] answers on every value when [v] is not an
    array. *)
Theorem satisfy_filters host (n : nat) (condition : value -> failure + bool) :
  (forall m this h0 l h,
     satisfy m this condition h0 = Ok l h \/ filter m this condition h0 = Ok l h ->
     l = length (objs h0) /\
     exists p hb,
       copy m this (under_construction h0) = Ok p hb /\
       h = Heap (<[l := PObj (BindedParser p (CSatisfy condition) false)
                              (length (results h0)) None]> (objs hb)) (results hb)) /\
  (forall m this v h0 l h,
     equals m this v h0 = Ok l h ->
     l = length (objs h0) /\
     exists p hb,
       copy m this (under_construction h0) = Ok p hb /\
       h = Heap (<[l := PObj (BindedParser p (CSatisfy (strict_eq v)) false)
                              (length (results h0)) None]> (objs hb)) (results hb)) /\
  (forall l o p input h fr h1 ds,
     wf_heap h = true ->
     objs h !! l = Some o -> cls o = BindedParser p (CSatisfy condition) false ->
     parse host (S n) p input (reset_heap l o h) = Ok fr h1 ->
     results h1 !! fr = Some ds ->
     Forall (fun d => exists b, condition (fst d) = inr b) ds ->
     exists r h',
       parse host (S (S n)) l input h = Ok r h' /\
       results h' !! r =
         Some (let kept :=
                 flat_map (fun '(v, s) =>
                             match condition v with
                             | inr true => [(match v with VUndef => s | _ => v end, s)]
                             | _ => []
                             end) ds in
               match mapValues o with Some f => map_entries f kept | None => kept end)) /\
  (forall v ds, (forall xs, v <> VArr xs) ->
     Forall (fun d : value * value => exists b, strict_eq v (fst d) = inr b) ds).
Proof.
  split; [|split; [|split]].
  - intros m this h0 l h [H|H]; now apply then_copies in H.
  - intros m this v h0 l h H. now apply then_copies in H.
  - intros. eapply parse_satisfy; eauto.
  - intros v ds Hv. apply List.Forall_forall. intros d _. apply strict_eq_answers. now left.
Qed.

(** An instance: a unit of [equals('a')] over an Item unit, on ['ab']. *)
Lemma satisfy_filters_witness :
  let h := Heap [PObj (BindedParser 1 (CSatisfy (strict_eq (VStr "a"))) false) 0 None;
                 PObj ItemParser 1 None] [[]; []] in
  exists r h',
    parse host0 3 0 (VStr "ab") h = Ok r h' /\ results h' !! r = Some [(VStr "a", VStr "b")].
Proof.
  intros h.
  eapply (proj1 (proj2 (proj2 (satisfy_filters host0 1 (strict_eq (VStr "a"))))) 0
            (PObj (BindedParser 1 (CSatisfy (strict_eq (VStr "a"))) false) 0 None) 1
            (VStr "ab") h _ _ [(VStr "a", VStr "b")]).
  - reflexivity.
  - reflexivity.
  - reflexivity.
  - lazy. reflexivity.
  - lazy. reflexivity.
  - apply (proj2 (proj2 (proj2 (satisfy_filters host0 1 (strict_eq (VStr "a")))))).
    intros xs. discriminate.
Defined.

(** ** One token *)

Lemma parse_item_any_string host n l o s h :
  objs h !! l = Some o -> cls o = ItemParser -> mapValues o = None ->
  exists r h',
    parse host (S n) l (VStr s) h = Ok r h' /\
    results h' !! r = Some match s with
                           | String c s' => [(VStr (String c ""), VStr s')]
                           | "" => []
                           end.
Proof.
  intros Hl Hc Hm. destruct s as [|c s].
  - destruct (parse_idle host (S n) l o (VStr "") h Hl) as (h' & Hp & Hr); [|eauto].
    intros h1 o1 H1 Hc1. apply process_item_falsy; [assumption|congruence|reflexivity].
  - eapply parse_item_string; eauto.
Qed.

(** X10. [item().equals(v)], built in any well-formed store and parsed
    on a string: when the string starts with the character [v] the
    Result is that character with the rest of the string; otherwise,
    and on the empty string, the Result is empty. *)
Theorem item_equals_token host (n m : nat) (v : value) (s : string) (h0 : heap) :
  wf_heap h0 = true ->
  exists r h',
    (it ← Parser_item; e ← equals (S m) it v; parse host (S (S n)) e (VStr s)) h0 = Ok r h' /\
    results h' !! r =
      Some match s with
           | String c s' =>
               match strict_eq v (VStr (String c "")) with
               | inr true => [(VStr (String c ""), VStr s')]
               | _ => []
               end
           | "" => []
           end.
Proof.
  intros W.
  rewrite (bind_run _ _ _ _ _ (Parser_new_run ItemParser h0)).
  set (ha := Heap (objs h0 ++ [PObj ItemParser (length (results h0)) None])
                  (results h0 ++ [[]])).
  assert (Ba : built h0 ha) by (eapply Parser_item_built; reflexivity).
  assert (Hit : objs ha !! length (objs h0) = Some (PObj ItemParser (length (results h0)) None))
    by apply lookup_snoc.
  destruct (then_leaf_run m (length (objs h0)) _ (CSatisfy (strict_eq v)) false ha Hit eq_refl)
    as (e & h & He).
  change (equals (S m) (length (objs h0)) v ha = Ok e h) in He.
  rewrite (bind_run _ _ _ _ _ He).
  pose proof (built_wf_heap _ _ (proj1 (equals_built _ _ _ _ _ _ He))
                (built_wf_heap _ _ Ba W)) as Wh.
  apply then_cb_unit in He as (_ & _ & p & Ho & Hlt & Hp).
  specialize (Hp _ Hit eq_refl).
  set (o := PObj (BindedParser p (CSatisfy (strict_eq v)) false) (length (results ha)) None)
    in *.
  assert (Hp0 : objs (reset_heap e o h) !! p = Some (PObj ItemParser (length (results h0)) None)).
  { simpl. rewrite list_lookup_insert_ne by lia. exact Hp. }
  destruct (parse_item_any_string host n p _ s _ Hp0 eq_refl eq_refl) as (fr & h1 & Hq & Hr).
  destruct (parse_satisfy host n e o p (strict_eq v) (VStr s) h fr h1 _ Wh Ho eq_refl Hq Hr)
    as (r & h' & Hq' & Hr').
  { destruct s as [|c s]; constructor; [|constructor].
    apply strict_eq_answers. right. intros xs. simpl. discriminate. }
  exists r, h'. split; [exact Hq'|]. rewrite Hr'. simpl.
  destruct s as [|c s]; [reflexivity|]. simpl.
  destruct (strict_eq v (VStr (String c ""))) as [f|[|]]; reflexivity.
Qed.

(** An instance: in the empty store, on ['ab'] and on ['ba']. *)
Lemma item_equals_token_witness :
  (exists r h', item_equals 3 (VStr "a") "ab" empty_heap = Ok r h' /\
                results h' !! r = Some [(VStr "a", VStr "b")]) /\
  (exists r h', item_equals 3 (VStr "a") "ba" empty_heap = Ok r h' /\
                results h' !! r = Some []).
Proof.
  split.
  - apply (item_equals_token host0 1 2 (VStr "a") "ab" empty_heap eq_refl).
  - apply (item_equals_token host0 1 2 (VStr "a") "ba" empty_heap eq_refl).
Defined.

(** ** A choice with a default *)

Lemma parse_or_value host n ad o p q oq d input h r1 h1 ds1 :
  wf_heap h = true ->
  objs h !! ad = Some o -> cls o = AddedParser [p; q] -> mapValues o = None ->
  objs h !! q = Some oq -> cls oq = ResultParser d -> mapValues oq = None ->
  parse host (S n) p input (reset_heap ad o h) = Ok r1 h1 ->
  results h1 !! r1 = Some ds1 ->
  exists r h',
    parse host (S (S n)) ad input h = Ok r h' /\
    results h' !! r = Some match ds1 with
                           | [] => [(match d with VUndef => input | _ => d end, input)]
                           | _ => ds1
                           end.
Proof.
  intros W Ho Hc Hm Hq Hcq Hmq Hp Hr.
  destruct ds1 as [|d1 ds1].
  - assert (Hne : q <> ad).
    { destruct (wf_heap_spec _ _ _ W Ho) as [H _]. rewrite Hc in H.
      apply Forall_cons_1 in H as [_ H]. apply Forall_cons_1 in H as [H _]. lia. }
    assert (Hq0 : objs (reset_heap ad o h) !! q = Some oq).
    { simpl. now rewrite list_lookup_insert_ne by congruence. }
    destruct (parse_classes _ _ _ _ _ _ _ Hp _ _ Hq0) as (oq1 & Hq1 & Hmq1 & Hcq1).
    assert (Hcq1' : cls oq1 = ResultParser d).
    { destruct Hcq1 as [E|(fn & c & E & _)]; congruence. }
    destruct (parse_result_unit host n q oq1 d input h1 Hq1 Hcq1') as (r & h' & Hp' & Hr');
      [congruence|].
    assert (A : alternatives host (S n) input [p; q] (reset_heap ad o h) (Some r) h').
    { eapply alt_next; [exact Hp|exact Hr|].
      eapply alt_here; [exact Hp'|exact Hr'|simpl; lia]. }
    destruct (parse_added_some host (S n) input ad o [p; q] h r h' _ Ho Hc Hm A Hr')
      as (h'' & Hp'' & Hr'').
    eauto.
  - assert (A : alternatives host (S n) input [p; q] (reset_heap ad o h) (Some r1) h1).
    { eapply alt_here; [exact Hp|exact Hr|simpl; lia]. }
    destruct (parse_added_some host (S n) input ad o [p; q] h r1 h1 _ Ho Hc Hm A Hr)
      as (h'' & Hp'' & Hr'').
    eauto.
Qed.

Lemma or_value_units m this d h0 ad h :
  or_ m this [RValue d] h0 = Ok ad h ->
  exists o p q oq,
    objs h !! ad = Some o /\ cls o = AddedParser [p; q] /\ mapValues o = None /\
    objs h !! q = Some oq /\ cls oq = ResultParser d /\ mapValues oq = None.
Proof.
  intros H. destruct (or_units _ _ _ _ _ _ H) as (o & p & ps & Ho & Hc & Hm & Hlen & Hv).
  destruct ps as [|q [|q' ps]]; try discriminate.
  destruct (Hv 0 d eq_refl) as (q0 & oq & Hq0 & Hoq & Hcq & Hmq).
  injection Hq0 as <-. exists o, p, q, oq. auto 6.
Qed.

(** [or] with one value: the value is wrapped as a [result] unit, then
    [this] and that unit are copied, in this order, in the store where
    the choice is under construction, and the choice holds the two
    copies. *)
Lemma or_value_copies m this d h0 ad h :
  or_ m this [RValue d] h0 = Ok ad h ->
  exists q0 h1 p hb q hc,
    Parser_result d h0 = Ok q0 h1 /\
    copy m this (under_construction h1) = Ok p hb /\
    copy m q0 hb = Ok q hc /\
    ad = length (objs h1) /\
    h = Heap (<[ad := PObj (AddedParser [p; q]) (length (results h1)) None]> (objs hc))
             (results hc).
Proof.
  unfold or_, AddedParser_new. intros H.
  apply bind_Ok in H as (ps0 & h1 & Hm & H). simpl in Hm.
  rewrite ret_bind in Hm. apply bind_Ok in Hm as (ys & h1' & Hm & E). injection E as <- ->.
  apply bind_Ok in Hm as (q0 & h1'' & Hq0 & E). injection E as <- ->.
  apply bind_Ok in H as (l0 & h2 & Hn & H). apply bind_Ok in H as (ps & h3 & Hc & H).
  apply bind_Ok in H as (u & h4 & Hs & H). injection H as <- <-.
  rewrite Parser_new_run in Hn. injection Hn as <- <-.
  simpl in Hc. apply bind_Ok in Hc as (p & hb & Hp & Hc).
  apply bind_Ok in Hc as (qs & hc & Hq & E). injection E as <- <-.
  apply bind_Ok in Hq as (q & hc' & Hq & E). injection E as <- ->.
  exists q0, h1, p, hb, q, hc. split; [exact Hq0|]. split; [exact Hp|]. split; [exact Hq|].
  split; [reflexivity|].
  destruct (copy_built _ _ _ _ _ Hp) as [B1 _]. destruct (copy_built _ _ _ _ _ Hq) as [B2 _].
  assert (Hl : objs hc !! length (objs h1) = Some (PObj Unbuilt (length (results h1)) None)).
  { apply (built_objs _ _ B2), (built_objs _ _ B1). apply lookup_snoc. }
  rewrite (set_cls_run _ _ _ _ Hl) in Hs. now injection Hs as <-.
Qed.

(** X11. A choice with a default is never empty.  [orNone(empty)]
    wraps the default ([''] when [empty] is left out) as a [result]
    unit and builds a choice that holds a copy of [this] and a copy of
    that unit; [manyOrNone(empty, type)] does so over the unit of
    [many(type)].  Under [parse], in the store they are built in, the
    Result is that of the first unit when it holds a derivation, and
    otherwise the single derivation of the default with the whole input
    as remainder. *)
Theorem default_never_empty host (n : nat) (input : value) :
  (forall m this empty h0 ad h,
     orNone m this empty h0 = Ok ad h -> wf_heap h0 = true ->
     exists q0 h1 p hb q hc o,
       Parser_result (or_default (VStr "") empty) h0 = Ok q0 h1 /\
       copy m this (under_construction h1) = Ok p hb /\
       copy m q0 hb = Ok q hc /\
       objs h !! ad = Some o /\ cls o = AddedParser [p; q] /\
       forall r1 h2 ds1,
         parse host (S n) p input (reset_heap ad o h) = Ok r1 h2 ->
         results h2 !! r1 = Some ds1 ->
         exists r h' ds,
           parse host (S (S n)) ad input h = Ok r h' /\ results h' !! r = Some ds /\
           ds = match ds1 with [] => [(or_default (VStr "") empty, input)] | _ => ds1 end /\
           ds <> []) /\
  (forall m this empty type h0 ad h,
     manyOrNone m this empty type h0 = Ok ad h -> wf_heap h0 = true ->
     exists mn hm q0 h1 p hb q hc o,
       many m this type h0 = Ok mn hm /\
       Parser_result (or_default (VStr "") empty) hm = Ok q0 h1 /\
       copy m mn (under_construction h1) = Ok p hb /\
       copy m q0 hb = Ok q hc /\
       objs h !! ad = Some o /\ cls o = AddedParser [p; q] /\
       forall r1 h2 ds1,
         parse host (S n) p input (reset_heap ad o h) = Ok r1 h2 ->
         results h2 !! r1 = Some ds1 ->
         exists r h' ds,
           parse host (S (S n)) ad input h = Ok r h' /\ results h' !! r = Some ds /\
           ds = match ds1 with [] => [(or_default (VStr "") empty, input)] | _ => ds1 end /\
           ds <> []).
Proof.
  assert (Hor : forall m this empty h0 ad h,
            or_ m this [RValue (or_default (VStr "") empty)] h0 = Ok ad h ->
            wf_heap h0 = true ->
            exists q0 h1 p hb q hc o,
              Parser_result (or_default (VStr "") empty) h0 = Ok q0 h1 /\
              copy m this (under_construction h1) = Ok p hb /\
              copy m q0 hb = Ok q hc /\
              objs h !! ad = Some o /\ cls o = AddedParser [p; q] /\
              forall r1 h2 ds1,
                parse host (S n) p input (reset_heap ad o h) = Ok r1 h2 ->
                results h2 !! r1 = Some ds1 ->
                exists r h' ds,
                  parse host (S (S n)) ad input h = Ok r h' /\ results h' !! r = Some ds /\
                  ds = match ds1 with
                       | [] => [(or_default (VStr "") empty, input)]
                       | _ => ds1
                       end /\
                  ds <> []).
  { intros m this empty h0 ad h H W.
    pose proof (built_wf_heap _ _ (proj1 (or_built _ _ _ _ _ _ H)) W) as Wh.
    destruct (or_value_units _ _ _ _ _ _ H)
      as (o & p' & q' & oq & Ho & Hc & Hm & Hq & Hcq & Hmq).
    destruct (or_value_copies _ _ _ _ _ _ H)
      as (q0 & h1 & p & hb & q & hc & Hq0 & Hp & Hcq0 & Had & Hh).
    assert (E : AddedParser [p'; q'] = AddedParser [p; q]).
    { rewrite Hh in Ho. simpl in Ho.
      pose proof (lookup_lt_Some _ _ _ Ho) as Hlt. rewrite length_insert in Hlt.
      rewrite list_lookup_insert_eq in Ho by exact Hlt.
      injection Ho as <-. simpl in Hc. now symmetry. }
    injection E as -> ->.
    exists q0, h1, p, hb, q, hc, o. repeat (split; [assumption|]).
    intros r1 h2 ds1 Hpp Hr.
    destruct (parse_or_value host n ad o p q oq _ input h r1 h2 ds1 Wh Ho Hc Hm Hq Hcq Hmq
                Hpp Hr) as (r & h' & Hp' & Hr').
    eexists r, h', _. split; [exact Hp'|]. split; [exact Hr'|].
    assert (E : match or_default (VStr "") empty with
                | VUndef => input
                | _ => or_default (VStr "") empty
                end = or_default (VStr "") empty) by (destruct empty; reflexivity).
    rewrite E. split; [reflexivity|]. destruct ds1; discriminate. }
  split.
  - intros m this empty h0 ad h H W. eapply Hor; eauto.
  - intros m this empty type h0 ad h H W. unfold manyOrNone in H.
    apply bind_Ok in H as (mn & hm & Hmany & H).
    exists mn, hm.
    destruct (Hor m mn empty hm ad h H) as (q0 & h1 & p & hb & q & hc & o & Hrest).
    { eapply built_wf_heap; [|exact W]. eapply many_built; eauto. }
    exists q0, h1, p, hb, q, hc, o. split; [exact Hmany|exact Hrest].
Qed.

(** An instance: [item().orNone()] on the empty input. *)
Lemma default_never_empty_witness :
  exists r h' ds,
    parse host0 3 2 (VStr "") item_orNone_heap = Ok r h' /\ results h' !! r = Some ds /\
    ds = [(VStr "", VStr "")] /\ ds <> [].
Proof.
  destruct (proj1 (default_never_empty host0 1 (VStr "")) 3 0 VUndef
              (Heap [PObj ItemParser 0 None] [[]]) 2 item_orNone_heap eq_refl eq_refl)
    as (q0 & h1 & p & hb & q & hc & o & _ & _ & _ & Ho & Hc & H).
  vm_compute in Ho. injection Ho as <-. simpl in Hc. injection Hc as <- <-.
  eapply (H _ _ []); lazy; reflexivity.
Defined.

(** ** Shapes are kept *)

Lemma shape_classes h h' sh l :
  keeps_classes h h' -> has_shape h sh l -> has_shape h' sh l.
Proof.
  intros K. revert l. induction sh as [c|p IHp cb acs|p IHp q IHq]; intros l; simpl.
  - intros (Hleaf & o & Ho & Hc & Hm). split; [assumption|].
    destruct (K _ _ Ho) as (o' & Ho' & Hm' & Hc').
    exists o'. split; [assumption|]. split; [|congruence].
    destruct Hc' as [E|(fn & c' & E & _)]; [congruence|].
    subst c. rewrite E in Hleaf. discriminate Hleaf.
  - intros (o & q & Ho & Hc & Hm & Hq).
    destruct (K _ _ Ho) as (o' & Ho' & Hm' & Hc').
    exists o', q. split; [assumption|]. split; [|split; [congruence|auto]].
    destruct Hc' as [E|(fn & c' & E & _)]; congruence.
  - intros (o & p' & q' & Ho & Hc & Hm & Hp & Hq).
    destruct (K _ _ Ho) as (o' & Ho' & Hm' & Hc').
    exists o', p', q'. split; [assumption|]. split; [|split; [congruence|auto]].
    destruct Hc' as [E|(fn & c' & E & _)]; congruence.
Qed.

Lemma shape_built h h' sh l : built h h' -> has_shape h sh l -> has_shape h' sh l.
Proof. intros B. apply shape_classes. now apply built_classes. Qed.

Lemma reset_classes l o h : objs h !! l = Some o -> keeps_classes h (reset_heap l o h).
Proof.
  intros Ho k x Hk. simpl. destruct (decide (k = l)) as [->|Hne].
  - rewrite list_lookup_insert_eq by (eapply lookup_lt_Some; eauto).
    rewrite Ho in Hk. injection Hk as <-. eexists. split; [reflexivity|]. simpl. auto.
  - rewrite list_lookup_insert_ne by congruence. eauto.
Qed.

(** The fields of an object under construction are stored. *)
Lemma shape_fill h sh l k ok o' :
  has_shape h sh l -> objs h !! k = Some ok -> cls ok = Unbuilt ->
  has_shape (Heap (<[k := o']> (objs h)) (results h)) sh l.
Proof.
  intros Hs Hk Hu. revert l Hs.
  induction sh as [c|p IHp cb acs|p IHp q IHq]; intros l; simpl.
  - intros (Hleaf & o & Ho & Hc & Hm). split; [assumption|]. exists o.
    assert (l <> k) by (intros ->; rewrite Hk in Ho; injection Ho as <-;
                        rewrite Hu in Hc; subst c; simpl in Hleaf; discriminate Hleaf).
    rewrite list_lookup_insert_ne by congruence. auto.
  - intros (o & q & Ho & Hc & Hm & Hq). exists o, q.
    assert (l <> k) by (intros ->; rewrite Hk in Ho; injection Ho as <-; congruence).
    rewrite list_lookup_insert_ne by congruence. auto.
  - intros (o & p' & q' & Ho & Hc & Hm & Hp & Hq). exists o, p', q'.
    assert (l <> k) by (intros ->; rewrite Hk in Ho; injection Ho as <-; congruence).
    rewrite list_lookup_insert_ne by congruence. auto 6.
Qed.

(** ** Constructors and [copy] by shape *)

(** What a copy of a unit of shape [sh] is. *)
Definition copies (copy' : loc -> M loc) (sh : shape) : Prop :=
  forall l h, has_shape h sh l ->
    exists l' h', copy' l h = Ok l' h' /\ built h h' /\ has_shape h' sh l' /\
                  length (objs h) <= l'.

Lemma BindedParser_new_shape copy' p cb acs q h :
  copies copy' p -> has_shape h p q ->
  exists l h', BindedParser_new copy' q cb acs h = Ok l h' /\ built h h' /\
               has_shape h' (SBinded p cb acs) l /\ length (objs h) <= l.
Proof.
  intros Hcopy Hq. unfold BindedParser_new.
  rewrite (bind_run _ _ _ _ _ (Parser_new_run _ _)).
  set (h1 := Heap (objs h ++ [PObj Unbuilt (length (results h)) None]) (results h ++ [[]])).
  assert (B01 : built h h1) by (eapply Parser_new_built; reflexivity).
  destruct (Hcopy q h1 (shape_built _ _ _ _ B01 Hq)) as (q' & h2 & Hc & B12 & Hq' & Hge).
  rewrite (bind_run _ _ _ _ _ Hc).
  pose proof (built_objs _ _ B12 (length (objs h)) _ (lookup_snoc _ _)) as Hu.
  rewrite (bind_run _ _ _ _ _ (set_cls_run _ (BindedParser q' cb acs) _ _ Hu)).
  eexists _, _. split; [reflexivity|].
  destruct (built_fill h (length (objs h)) h1 h2 (BindedParser q' cb acs) tt _
              (Parser_new_run _ _) B12 (set_cls_run _ _ _ _ Hu)) as [B F].
  { simpl. auto. }
  split; [exact B|]. split; [|exact F]. simpl.
  eexists _, q'. split; [apply list_lookup_insert_eq; eapply lookup_lt_Some; eauto|].
  split; [reflexivity|]. split; [reflexivity|].
  apply (shape_fill h2 p q' _ _ _ Hq' Hu eq_refl).
Qed.

Lemma AddedParser_new_shape copy' p q p0 q0 h :
  copies copy' p -> copies copy' q -> has_shape h p p0 -> has_shape h q q0 ->
  exists l h', AddedParser_new copy' [p0; q0] h = Ok l h' /\ built h h' /\
               has_shape h' (SAdded p q) l /\ length (objs h) <= l.
Proof.
  intros Hcp Hcq Hp Hq. unfold AddedParser_new.
  rewrite (bind_run _ _ _ _ _ (Parser_new_run _ _)).
  set (h1 := Heap (objs h ++ [PObj Unbuilt (length (results h)) None]) (results h ++ [[]])).
  assert (B01 : built h h1) by (eapply Parser_new_built; reflexivity).
  destruct (Hcp p0 h1 (shape_built _ _ _ _ B01 Hp)) as (p' & h2 & Hc1 & B12 & Hp' & Hge1).
  destruct (Hcq q0 h2 (shape_built _ _ _ _ B12 (shape_built _ _ _ _ B01 Hq)))
    as (q' & h3 & Hc2 & B23 & Hq' & Hge2).
  assert (Hm : mapM copy' [p0; q0] h1 = Ok [p'; q'] h3).
  { simpl. unfold mbind, M_bind, bind. rewrite Hc1, Hc2. reflexivity. }
  rewrite (bind_run _ _ _ _ _ Hm).
  pose proof (built_trans _ _ _ B12 B23) as B13.
  pose proof (built_length_objs _ _ B12) as L12.
  pose proof (built_objs _ _ B13 (length (objs h)) _ (lookup_snoc _ _)) as Hu.
  rewrite (bind_run _ _ _ _ _ (set_cls_run _ (AddedParser [p'; q']) _ _ Hu)).
  eexists _, _. split; [reflexivity|].
  destruct (built_fill h (length (objs h)) h1 h3 (AddedParser [p'; q']) tt _
              (Parser_new_run _ _) B13 (set_cls_run _ _ _ _ Hu)) as [B F].
  { simpl. constructor; [exact Hge1|]. constructor; [|constructor].
    change (length (objs h1) <= q'). lia. }
  split; [exact B|]. split; [|exact F]. simpl.
  eexists _, p', q'. split; [apply list_lookup_insert_eq; eapply lookup_lt_Some; eauto|].
  split; [reflexivity|]. split; [reflexivity|]. split.
  - apply (shape_fill h3 p p' _ _ _ (shape_built _ _ _ _ B23 Hp') Hu eq_refl).
  - apply (shape_fill h3 q q' _ _ _ Hq' Hu eq_refl).
Qed.

Lemma copy_shape sh n : depth sh <= n -> copies (copy n) sh.
Proof.
  revert n. induction sh as [c|p IHp cb acs|p IHp q IHq]; intros n Hn l h Hs;
    (destruct n as [|n]; [simpl in Hn; lia|]); simpl in Hn.
  - destruct Hs as (Hleaf & o & Ho & Hc & Hm).
    assert (Hleaf' : is_leaf (cls o) = true) by now rewrite Hc.
    rewrite (copy_leaf_run n l h o Ho Hleaf').
    eexists _, _. split; [reflexivity|].
    assert (B : built h (Heap (objs h ++ [o]) (results h ++ [[]])) /\
                length (objs h) <= length (objs h)).
    { eapply copy_built. apply (copy_leaf_run n l h o Ho Hleaf'). }
    split; [apply B|]. split; [|lia]. simpl. split; [assumption|].
    exists o. split; [apply lookup_snoc|auto].
  - destruct Hs as (o & q & Ho & Hc & Hm & Hq).
    destruct (BindedParser_new_shape (copy n) p cb acs q h (IHp n ltac:(lia)) Hq)
      as (l' & h' & Hn' & R).
    exists l', h'. split; [|exact R]. simpl. unfold copy_body.
    rewrite (bind_run _ _ _ _ _ (get_obj_run _ _ _ Ho)), Hc. exact Hn'.
  - destruct Hs as (o & p' & q' & Ho & Hc & Hm & Hp & Hq).
    destruct (AddedParser_new_shape (copy n) p q p' q' h (IHp n ltac:(lia))
                (IHq n ltac:(lia)) Hp Hq) as (l' & h' & Hn' & R).
    exists l', h'. split; [|exact R]. simpl. unfold copy_body.
    rewrite (bind_run _ _ _ _ _ (get_obj_run _ _ _ Ho)), Hc. exact Hn'.
Qed.

Lemma then_shape n this sh c acs h :
  has_shape h sh this -> depth sh <= n ->
  exists l h', then_ n this (NextCb c) acs h = Ok l h' /\ built h h' /\
               has_shape h' (SBinded sh c acs) l /\ length (objs h) <= l.
Proof.
  intros Hs Hn. unfold then_. apply BindedParser_new_shape; [|assumption].
  now apply copy_shape.
Qed.

Lemma Parser_result_shape d h :
  exists l h', Parser_result d h = Ok l h' /\ built h h' /\
               has_shape h' (SLeaf (ResultParser d)) l /\ length (objs h) <= l.
Proof.
  eexists _, _. split; [apply Parser_new_run|].
  assert (B : built h (Heap (objs h ++ [PObj (ResultParser d) (length (results h)) None])
                            (results h ++ [[]])) /\ length (objs h) <= length (objs h))
    by (eapply Parser_result_built; apply Parser_new_run).
  split; [apply B|]. split; [|lia]. simpl. split; [reflexivity|].
  eexists. split; [apply lookup_snoc|auto].
Qed.

Lemma or_value_shape n this sh d h :
  has_shape h sh this -> depth sh <= n -> 1 <= n ->
  exists l h', or_ n this [RValue d] h = Ok l h' /\ built h h' /\
               has_shape h' (SAdded sh (SLeaf (ResultParser d))) l /\
               length (objs h) <= l.
Proof.
  intros Hs Hn H1. unfold or_.
  destruct (Parser_result_shape d h) as (q & h1 & Hq & B1 & Sq & _).
  assert (Hm : mapM parserOf [RParser this; RValue d] h = Ok [this; q] h1).
  { simpl. unfold mbind, M_bind, bind, mret, M_ret, ret. rewrite Hq. reflexivity. }
  rewrite (bind_run _ _ _ _ _ Hm).
  destruct (AddedParser_new_shape (copy n) sh (SLeaf (ResultParser d)) this q h1
              (copy_shape sh n Hn) (copy_shape (SLeaf (ResultParser d)) n H1)
              (shape_built _ _ _ _ B1 Hs) Sq)
    as (l & h' & Hl & B & S & F).
  exists l, h'. split; [assumption|]. split; [eapply built_trans; eauto|].
  split; [assumption|]. pose proof (built_length_objs _ _ B1). lia.
Qed.

(** ** [parse] of a [then] unit, the continuations given by cases *)

Section ParseBinded.
Variable host : nat -> value -> value -> failure + value.
Variable n : nat.
Variable cb : closure.
Variable f : value * value -> list (value * value).
Variable P : heap -> Prop.
Variable Q : value * value -> Prop.
Hypothesis P_stable : forall h h', P h -> keeps_classes h h' -> P h'.
Hypothesis step : forall v s h, well_formed h -> P h -> Q (v, s) ->
  exists next h1 r h2,
    parserifyCb host n cb v s h = Ok next h1 /\
    parse host n next s h1 = Ok r h2 /\
    results h2 !! r = Some (f (v, s)).

Lemma parse_binded_steps l o p acs input h fr h1 ds :
  wf_heap h = true -> P h ->
  objs h !! l = Some o -> cls o = BindedParser p cb acs ->
  parse host n p input (reset_heap l o h) = Ok fr h1 ->
  results h1 !! fr = Some ds -> Forall Q ds ->
  acs && (length ds =? 0)%nat = false ->
  exists r h',
    parse host (S n) l input h = Ok r h' /\
    results h' !! r = Some (match mapValues o with
                            | Some g => map_entries g (flat_map f ds)
                            | None => flat_map f ds
                            end).
Proof.
  intros W Ph Hl Hc Hp Hr HQ Hacs. pose proof W as W'. apply wf_heap_iff in W'.
  pose proof (reset_wf _ _ _ W' Hl) as W0.
  destruct (parse_well_formed _ _ _ _ _ _ _ Hp W0) as (W1 & _ & _).
  pose proof (parse_classes _ _ _ _ _ _ _ Hp) as K1.
  destruct (K1 _ _ (reset_lookup _ _ _ Hl)) as (o1 & Ho1 & _).
  destruct (continuations_exist host n l cb f P Q P_stable step ds h1 HQ W1)
    as (h2 & K & _ & _).
  { eapply P_stable; [|exact K1]. eapply P_stable; [exact Ph|]. now apply reset_classes. }
  { eapply lookup_lt_Some; eauto. }
  eapply parse_binded_loop; eauto.
Qed.

Lemma parse_binded_exists l o p input h fr h1 ds :
  wf_heap h = true -> P h ->
  objs h !! l = Some o -> cls o = BindedParser p cb false ->
  parse host n p input (reset_heap l o h) = Ok fr h1 ->
  results h1 !! fr = Some ds -> Forall Q ds ->
  exists r h',
    parse host (S n) l input h = Ok r h' /\
    results h' !! r = Some (match mapValues o with
                            | Some g => map_entries g (flat_map f ds)
                            | None => flat_map f ds
                            end).
Proof. intros. eapply parse_binded_steps; eauto. Qed.
End ParseBinded.

(** ** Repetition over an Item unit *)

Section Many.
Variable host : nat -> value -> value -> failure + value.
(** The unit that [many] was called on. *)
Variable it : loc.

#[local] Abbreviation item_there h := (has_shape h (SLeaf ItemParser) it).
#[local] Abbreviation tail_shape c :=
  (SBinded (SAdded (many_shape it None) (SLeaf (ResultParser (VStr ""))))
           (CManyTail c None) false).

Lemma item_there_stable h h' : item_there h -> keeps_classes h h' -> item_there h'.
Proof. intros Hs K. eapply shape_classes; eauto. Qed.

(** The callback of [many]: the unit it gives. *)
Lemma many_head_unit n v s h :
  item_there h -> 4 <= n ->
  exists next h1,
    parserifyCb host n (CManyHead it None) v s h = Ok next h1 /\
    built h h1 /\ has_shape h1 (tail_shape v) next.
Proof.
  intros Hit Hn.
  destruct (then_shape n it _ (CManyHead it None) false h Hit) as (m0 & h1 & H1 & B1 & S1 & _);
    [simpl; lia|].
  destruct (or_value_shape n m0 _ (VStr "") h1 S1) as (a & h2 & H2 & B2 & S2 & _);
    [simpl; lia|lia|].
  destruct (then_shape n a _ (CManyTail v None) false h2 S2) as (t & h3 & H3 & B3 & S3 & _);
    [simpl; lia|].
  destruct (copy_shape (tail_shape v) n ltac:(simpl; lia) t h3 S3)
    as (next & h4 & H4 & B4 & S4 & _).
  assert (Hmn : manyOrNone n it (VStr "") None h = Ok a h2).
  { unfold manyOrNone, many. rewrite (bind_run _ _ _ _ _ H1). exact H2. }
  assert (Hap : apply_cb host n (CManyHead it None) v s h = Ok (RParser t) h3).
  { unfold apply_cb. rewrite (bind_run _ _ _ _ _ Hmn), (bind_run _ _ _ _ _ H3). reflexivity. }
  exists next, h4. split; [|split; [eauto using built_trans|exact S4]].
  unfold parserifyCb. rewrite (bind_run _ _ _ _ _ Hap). exact H4.
Qed.

(** The callback of the tail: the unit it gives yields the matched
    string. *)
Lemma many_tail_step n c s' h :
  exists next h1 r h2,
    parserifyCb host (S n) (CManyTail (VStr (String c "")) None) (VStr s') (VStr "") h
      = Ok next h1 /\
    parse host (S n) next (VStr "") h1 = Ok r h2 /\
    results h2 !! r = Some [(VStr (String c s'), VStr "")].
Proof.
  assert (Ha : apply_cb host (S n) (CManyTail (VStr (String c "")) None) (VStr s') (VStr "") h
               = Ok (RParser (length (objs h)))
                    (Heap (objs h ++ [PObj (ResultParser (VStr (String c s')))
                                           (length (results h)) None])
                          (results h ++ [[]]))).
  { simpl. destruct s' as [|c' s']; reflexivity. }
  destruct (parserifyCb_leaf host n _ _ _ _ _ _ _ Ha (lookup_snoc _ _) eq_refl)
    as (next & h1 & Hcb & Ho).
  destruct (parse_result_unit host n next _ _ (VStr "") h1 Ho eq_refl eq_refl)
    as (r & h2 & Hp & Hr).
  eauto 8.
Qed.

Lemma parse_many s : forall n h l,
  3 * String.length s + 2 <= n ->
  wf_heap h = true -> item_there h -> has_shape h (many_shape it None) l ->
  exists r h',
    parse host n l (VStr s) h = Ok r h' /\
    results h' !! r = Some match s with
                           | "" => []
                           | _ => [(VStr s, VStr "")]
                           end.
Proof.
  induction s as [|c s' IH]; intros n h l Hn W Hit Hs.
  - destruct n as [|[|n]]; [simpl in Hn; lia|simpl in Hn; lia|].
    destruct Hs as (o & p & Ho & Hc & Hm & Hp).
    pose proof (shape_classes _ _ _ _ (reset_classes _ _ _ Ho) Hp) as (_ & op & Hop & Hcp & Hmp).
    destruct (parse_item_any_string host n p op "" _ Hop Hcp Hmp) as (fr & h1 & Hq & Hr).
    destruct (parse_binded_exists host (S n) (CManyHead it None) (fun _ => [])
                (fun _ => True) (fun _ => False) (fun _ _ _ _ => I)
                (fun v s h _ _ (F : False) => match F with end)
                l o p (VStr "") h fr h1 [] W I Ho Hc Hq Hr ltac:(constructor))
      as (r & h' & Hq' & Hr').
    rewrite Hm in Hr'. eauto.
  - simpl String.length in Hn.
    destruct n as [|[|[|n3]]]; try lia. assert (Hn3 : 3 * String.length s' + 2 <= n3) by lia.
    destruct n3 as [|[|n]]; try lia.
    destruct Hs as (o & p & Ho & Hc & Hm & Hp).
    pose proof (shape_classes _ _ _ _ (reset_classes _ _ _ Ho) Hp) as (_ & op & Hop & Hcp & Hmp).
    destruct (parse_item_any_string host (S (S (S n))) p op (String c s') _ Hop Hcp Hmp)
      as (fr & h1 & Hq & Hr).
    assert (Hstep : forall v s h0, well_formed h0 -> item_there h0 ->
              (v, s) = (VStr (String c ""), VStr s') ->
              exists next h2 r h3,
                parserifyCb host (S (S (S (S n)))) (CManyHead it None) v s h0 = Ok next h2 /\
                parse host (S (S (S (S n)))) next s h2 = Ok r h3 /\
                results h3 !! r = Some [(VStr (String c s'), VStr "")]).
    { intros v s h0 W0 Hit0 [= -> ->].
      destruct (many_head_unit (S (S (S (S n)))) (VStr (String c "")) (VStr s') h0 Hit0)
        as (next & h2 & Hcb & B2 & S2); [lia|].
      exists next, h2.
      pose proof (built_wf _ _ B2 W0) as W2. pose proof W2 as W2'. apply wf_heap_iff in W2'.
      pose proof (shape_built _ _ _ _ B2 Hit0) as Hit2.
      destruct S2 as (ot & a & Hot & Hct & Hmt & oa & m4 & r4 & Hoa & Hca & Hma & Sm & Sr).
      (* the choice between the repetition and the empty string *)
      pose proof (reset_classes _ _ _ Hot) as Kt.
      pose proof (reset_wf _ _ _ W2 Hot) as Wt. pose proof Wt as Wt'.
      apply wf_heap_iff in Wt'.
      destruct (Kt _ _ Hoa) as (oa' & Hoa' & Hma' & [Hca'|(fn & x & E & _)]); [|congruence].
      pose proof (reset_classes _ _ _ Hoa') as Ka.
      pose proof (reset_wf _ _ _ Wt Hoa') as Wa. pose proof Wa as Wa'.
      apply wf_heap_iff in Wa'.
      destruct (IH (S (S n)) _ m4 Hn3 Wa'
                  (shape_classes _ _ _ _ Ka (shape_classes _ _ _ _ Kt Hit2))
                  (shape_classes _ _ _ _ Ka (shape_classes _ _ _ _ Kt Sm)))
        as (r1 & h3 & Hp1 & Hr1).
      destruct (shape_classes _ _ _ _ Kt Sr) as (_ & or4 & Hor4 & Hcr4 & Hmr4).
      assert (Hca2 : cls oa' = AddedParser [m4; r4]) by congruence.
      assert (Hma2 : mapValues oa' = None) by congruence.
      destruct (parse_or_value host (S n) a oa' m4 r4 or4 (VStr "") (VStr s') _ r1 h3 _
                  Wt' Hoa' Hca2 Hma2 Hor4 Hcr4 Hmr4 Hp1 Hr1)
        as (ra & h4 & Hpa & Hra).
      assert (Hra' : results h4 !! ra = Some [(VStr s', VStr "")]).
      { rewrite Hra. now destruct s'. }
      (* the tail *)
      assert (Hstep' : forall v s h6, well_formed h6 -> True ->
                (v, s) = (VStr s', VStr "") ->
                exists nx h7 r h8,
                  parserifyCb host (S (S (S n))) (CManyTail (VStr (String c "")) None) v s h6
                    = Ok nx h7 /\
                  parse host (S (S (S n))) nx s h7 = Ok r h8 /\
                  results h8 !! r = Some [(VStr (String c s'), VStr "")]).
      { intros v s h6 _ _ [= -> ->]. apply many_tail_step. }
      destruct (parse_binded_exists host (S (S (S n))) (CManyTail (VStr (String c "")) None)
                  (fun _ => [(VStr (String c s'), VStr "")])
                  (fun _ => True) (fun d => d = (VStr s', VStr ""))
                  (fun _ _ _ _ => I) Hstep'
                  next ot a (VStr s') h2 ra h4 [(VStr s', VStr "")]
                  W2' I Hot Hct Hpa Hra' ltac:(repeat constructor))
        as (r & h5 & Hq5 & Hr5).
      rewrite Hmt in Hr5. simpl in Hr5. eauto. }
    destruct (parse_binded_exists host (S (S (S (S n)))) (CManyHead it None)
                (fun _ => [(VStr (String c s'), VStr "")])
                (fun h => has_shape h (SLeaf ItemParser) it)
                (fun d => d = (VStr (String c ""), VStr s'))
                item_there_stable Hstep
                l o p (VStr (String c s')) h fr h1 [(VStr (String c ""), VStr s')]
                W Hit Ho Hc Hq Hr ltac:(repeat constructor))
      as (r & h' & Hq' & Hr').
    rewrite Hm in Hr'. simpl in Hr'. eauto.
Qed.
End Many.

(** X12. Repetition over [item()].  Built in any well-formed store and
    parsed to a depth that is linear in the length of the input,
    [item().many()] yields, on a non-empty string, the single
    derivation of the whole string with nothing left, and nothing on
    the empty string; [item().manyOrNone()] yields the whole string
    with nothing left on every string. *)
Theorem many_item_whole_string host (s : string) (n : nat) (h0 : heap) :
  wf_heap h0 = true -> 3 * String.length s + 3 <= n ->
  (exists r h',
     (it ← Parser_item; m ← many 1 it None; parse host n m (VStr s)) h0 = Ok r h' /\
     results h' !! r = Some match s with "" => [] | _ => [(VStr s, VStr "")] end) /\
  (exists r h',
     (it ← Parser_item; m ← manyOrNone 2 it VUndef None; parse host n m (VStr s)) h0
       = Ok r h' /\
     results h' !! r = Some [(VStr s, VStr "")]).
Proof.
  intros W Hn.
  rewrite !(bind_run _ _ _ _ _ (Parser_new_run ItemParser h0)).
  set (it := length (objs h0)).
  set (ha := Heap (objs h0 ++ [PObj ItemParser (length (results h0)) None])
                  (results h0 ++ [[]])).
  assert (Ba : built h0 ha) by (eapply Parser_item_built; reflexivity).
  assert (Hit : has_shape ha (SLeaf ItemParser) it).
  { simpl. split; [reflexivity|]. eexists. split; [apply lookup_snoc|auto]. }
  pose proof (built_wf_heap _ _ Ba W) as Wa.
  split.
  - destruct (then_shape 1 it _ (CManyHead it None) false ha Hit) as (m & h & Hm & B & Sm0 & _);
      [simpl; lia|].
    change (many 1 it None ha = Ok m h) in Hm. rewrite (bind_run _ _ _ _ _ Hm).
    apply (parse_many host it s n h m); [lia| | |exact Sm0].
    + eapply built_wf_heap; eauto.
    + eapply shape_built; eauto.
  - destruct (then_shape 2 it _ (CManyHead it None) false ha Hit) as (m & h & Hm & B & Sm0 & _);
      [simpl; lia|].
    destruct (or_value_shape 2 m _ (VStr "") h Sm0) as (a & h2 & Ha & B2 & S2 & _);
      [simpl; lia|lia|].
    assert (Hmn : manyOrNone 2 it VUndef None ha = Ok a h2).
    { unfold manyOrNone, many. rewrite (bind_run _ _ _ _ _ Hm). exact Ha. }
    rewrite (bind_run _ _ _ _ _ Hmn).
    pose proof (built_wf_heap _ _ B2 (built_wf_heap _ _ B Wa)) as W2.
    pose proof (shape_built _ _ _ _ B2 (shape_built _ _ _ _ B Hit)) as Hit2.
    destruct S2 as (oa & m4 & r4 & Hoa & Hca & Hma & Sm & _ & or4 & Hor4 & Hcr4 & Hmr4).
    destruct n as [|[|n]]; try lia.
    pose proof (reset_classes _ _ _ Hoa) as Ka.
    pose proof W2 as W2'. apply wf_heap_iff in W2'.
    pose proof (reset_wf _ _ _ W2' Hoa) as Wr. apply wf_heap_iff in Wr.
    destruct (parse_many host it s (S n) _ m4 ltac:(lia) Wr
                (shape_classes _ _ _ _ Ka Hit2) (shape_classes _ _ _ _ Ka Sm))
      as (r1 & h3 & Hp1 & Hr1).
    destruct (parse_or_value host n a oa m4 r4 or4 (VStr "") (VStr s) _ r1 h3 _
                W2 Hoa Hca Hma Hor4 Hcr4 Hmr4 Hp1 Hr1) as (ra & h4 & Hpa & Hra).
    exists ra, h4. split; [exact Hpa|]. rewrite Hra. now destruct s.
Qed.

(** An instance: ['abcd'], in the empty store. *)
Lemma many_item_whole_string_witness :
  (exists r h', item_many_at 17 "abcd" empty_heap = Ok r h' /\
                results h' !! r = Some [(VStr "abcd", VStr "")]) /\
  (exists r h', item_manyOrNone_at 17 "abcd" empty_heap = Ok r h' /\
                results h' !! r = Some [(VStr "abcd", VStr "")]).
Proof.
  apply (many_item_whole_string host0 "abcd" 17 empty_heap eq_refl). simpl. lia.
Defined.

(** ** A target as a prefix of the input *)

Lemma strip_prefix_spec t s rest : strip_prefix t s = Some rest <-> s = String.append t rest.
Proof.
  revert s. induction t as [|c t IH]; intros s; simpl.
  - split; [now intros [= ->]|now intros ->].
  - destruct s as [|d s]; [split; discriminate|].
    destruct (Ascii.eqb_spec c d) as [->|Hne].
    + rewrite IH. split; [now intros ->|now intros [= ->]].
    + split; [discriminate|]. intros [= -> _]. now destruct Hne.
Qed.

Lemma string_eqb_single c d : String.eqb (String c "") (String d "") = Ascii.eqb c d.
Proof. simpl. now destruct (Ascii.eqb c d). Qed.

Section StartsWith.
Variable host : nat -> value -> value -> failure + value.
(** The unit that [startsWith] was called on. *)
Variable it : loc.

#[local] Abbreviation item_there h := (has_shape h (SLeaf ItemParser) it).
#[local] Abbreviation tail_shape c t' partial :=
  (SBinded (target_shape it t' false)
           (CStartsTail (VStr (String c "")) (VStr (String c t')) partial) true).

Lemma target_depth t partial : depth (target_shape it t partial) <= 3.
Proof. destruct t; simpl; lia. Qed.

Lemma startsWith_shape n t partial h :
  item_there h -> 2 <= n ->
  exists l h', startsWith n it (VStr t) partial h = Ok l h' /\ built h h' /\
               has_shape h' (target_shape it t partial) l.
Proof.
  intros Hit Hn. destruct t as [|c t'].
  - eexists _, _. split; [apply Parser_new_run|]. split.
    + eapply Parser_zero_built. apply Parser_new_run.
    + simpl. split; [reflexivity|]. eexists. split; [apply lookup_snoc|auto].
  - destruct (then_shape n it _ (CSatisfy (strict_eq (VStr (String c "")))) false h Hit)
      as (e & h1 & He & B1 & S1 & _); [simpl; lia|].
    destruct (then_shape n e _ (CStartsHead it (VStr (String c t')) partial) false h1 S1)
      as (u & h2 & Hu & B2 & S2 & _); [simpl; lia|].
    exists u, h2. split; [|split; [eauto using built_trans|exact S2]].
    unfold startsWith. simpl js_length. simpl lift. rewrite ret_bind.
    simpl js_head. simpl lift. rewrite ret_bind.
    unfold equals, satisfy. rewrite (bind_run _ _ _ _ _ He). exact Hu.
Qed.

(** The callback of [startsWith]: the unit it gives. *)
Lemma starts_head_unit n c t' partial hd input h :
  item_there h -> 4 <= n ->
  exists next h1,
    parserifyCb host n (CStartsHead it (VStr (String c t')) partial) (VStr (String hd "")) input h
      = Ok next h1 /\
    built h h1 /\
    has_shape h1 (SBinded (target_shape it t' false)
                    (CStartsTail (VStr (String hd "")) (VStr (String c t')) partial) true) next.
Proof.
  intros Hit Hn.
  destruct (startsWith_shape n t' false h Hit) as (s0 & h1 & Hs & B1 & S1); [lia|].
  pose proof (target_depth t' false) as Hd.
  destruct (then_shape n s0 _ (CStartsTail (VStr (String hd "")) (VStr (String c t')) partial)
              true h1 S1) as (t & h2 & Ht & B2 & S2 & _); [lia|].
  assert (Hd4 : depth (SBinded (target_shape it t' false)
                         (CStartsTail (VStr (String hd "")) (VStr (String c t')) partial) true)
                <= n) by (simpl; lia).
  destruct (copy_shape _ n Hd4 t h2 S2) as (next & h3 & Hc & B3 & S3 & _).
  assert (Hap : apply_cb host n (CStartsHead it (VStr (String c t')) partial)
                  (VStr (String hd "")) input h = Ok (RParser t) h2).
  { unfold apply_cb. simpl js_slice1. simpl lift. rewrite ret_bind.
    rewrite (bind_run _ _ _ _ _ Hs), (bind_run _ _ _ _ _ Ht). reflexivity. }
  exists next, h3. split; [|split; [eauto using built_trans|exact S3]].
  unfold parserifyCb. rewrite (bind_run _ _ _ _ _ Hap). exact Hc.
Qed.

(** The callback of the tail: what the unit it gives yields. *)
Lemma starts_tail_step n hd t partial tail rest h :
  exists next h1 r h2,
    parserifyCb host (S n) (CStartsTail (VStr hd) (VStr t) partial) (VStr tail) rest h
      = Ok next h1 /\
    parse host (S n) next rest h1 = Ok r h2 /\
    results h2 !! r =
      Some (if partial then [(VStr (String.append hd tail), rest)]
            else if String.eqb (String.append hd tail) t then [(VStr t, rest)] else []).
Proof.
  assert (Hv : forall x,
            apply_cb host (S n) (CStartsTail (VStr hd) (VStr t) partial) (VStr tail) rest h
              = Ok (RValue (VStr x)) h ->
            exists next h1 r h2,
              parserifyCb host (S n) (CStartsTail (VStr hd) (VStr t) partial) (VStr tail) rest h
                = Ok next h1 /\
              parse host (S n) next rest h1 = Ok r h2 /\
              results h2 !! r = Some [(VStr x, rest)]).
  { intros x Ha.
    destruct (parserifyCb_value host n _ _ _ _ _ _ Ha) as (next & h1 & o & Hcb & Ho & Hc & Hm).
    destruct (parse_result_unit host n next o _ rest h1 Ho Hc Hm) as (r & h2 & Hp & Hr).
    eauto 8. }
  destruct partial.
  - apply Hv. reflexivity.
  - destruct (String.eqb (String.append hd tail) t) eqn:E.
    + apply Hv. unfold apply_cb. simpl js_add. simpl lift. rewrite ret_bind.
      unfold strict_eq. rewrite E. reflexivity.
    + destruct (parserifyCb_leaf host n (CStartsTail (VStr hd) (VStr t) false) (VStr tail)
                  rest h (length (objs h))
                  (Heap (objs h ++ [PObj ZeroParser (length (results h)) None])
                        (results h ++ [[]]))
                  (PObj ZeroParser (length (results h)) None))
        as (next & h1 & Hcb & Ho).
      { unfold apply_cb. simpl js_add. simpl lift. rewrite ret_bind.
        unfold strict_eq. rewrite E. reflexivity. }
      { apply lookup_snoc. }
      { reflexivity. }
      destruct (parse_zero host n next _ rest h1 Ho eq_refl) as (h2 & Hp & Hr).
      eauto 8.
Qed.

(** [this.equals(c)] over an Item unit, on a string. *)
Lemma parse_equals_item k c q s h :
  wf_heap h = true ->
  has_shape h (SBinded (SLeaf ItemParser) (CSatisfy (strict_eq (VStr (String c "")))) false) q ->
  exists r h',
    parse host (S (S k)) q (VStr s) h = Ok r h' /\
    results h' !! r = Some match s with
                           | String d s' =>
                               if Ascii.eqb c d then [(VStr (String c ""), VStr s')] else []
                           | "" => []
                           end.
Proof.
  intros W (oq & p & Hoq & Hcq & Hmq & Hp).
  pose proof (shape_classes _ _ _ _ (reset_classes _ _ _ Hoq) Hp) as (_ & op & Hop & Hcp & Hmp).
  destruct (parse_item_any_string host k p op s _ Hop Hcp Hmp) as (fr & h1 & Hq & Hr).
  destruct (parse_satisfy host k q oq p _ (VStr s) h fr h1 _ W Hoq Hcq Hq Hr)
    as (r & h' & Hq' & Hr').
  { destruct s as [|d s']; constructor; [|constructor].
    apply strict_eq_answers. left. intros xs. discriminate. }
  exists r, h'. split; [exact Hq'|]. rewrite Hr', Hmq.
  destruct s as [|d s']; [reflexivity|].
  cbv zeta. unfold flat_map, strict_eq. cbv beta iota. rewrite string_eqb_single.
  destruct (Ascii.eqb_spec c d) as [->|Hne]; reflexivity.
Qed.

(** The unit that the callback of [startsWith] gives, parsed on the
    rest of the input. *)
Lemma parse_starts_tail n c t' partial s' next h :
  (forall a h0, wf_heap h0 = true -> item_there h0 ->
     has_shape h0 (target_shape it t' false) a ->
     exists r h', parse host (S n) a (VStr s') h0 = Ok r h' /\
       results h' !! r = Some match t' with
                              | "" => []
                              | _ => match strip_prefix t' s' with
                                     | Some rest => [(VStr t', VStr rest)]
                                     | None => []
                                     end
                              end) ->
  wf_heap h = true -> item_there h -> has_shape h (tail_shape c t' partial) next ->
  exists r h',
    parse host (S (S n)) next (VStr s') h = Ok r h' /\
    results h' !! r = Some match strip_prefix t' s' with
                           | Some rest => [(VStr (String c t'), VStr rest)]
                           | None => if partial then [(VStr (String c ""), VStr s')] else []
                           end.
Proof.
  intros Hfirst W Hit (ot & a & Hot & Hct & Hmt & Sa).
  pose proof W as W'. apply wf_heap_iff in W'.
  pose proof (reset_classes _ _ _ Hot) as Kt.
  pose proof (reset_wf _ _ _ W' Hot) as Wt. apply wf_heap_iff in Wt.
  destruct (Hfirst a _ Wt (shape_classes _ _ _ _ Kt Hit) (shape_classes _ _ _ _ Kt Sa))
    as (r1 & h1 & Hp1 & Hr1).
  assert (Hsecond : results h1 !! r1 = Some [] ->
                    strip_prefix t' s' = match t' with "" => Some s' | _ => None end ->
                    exists r h',
                      parse host (S (S n)) next (VStr s') h = Ok r h' /\
                      results h' !! r =
                        Some match strip_prefix t' s' with
                             | Some rest => [(VStr (String c t'), VStr rest)]
                             | None => if partial then [(VStr (String c ""), VStr s')] else []
                             end).
  { intros Hr0 Hsp.
    destruct (starts_tail_step n (String c "") (String c t') partial "" (VStr s') h1)
      as (nx & h2 & r & h3 & Hcb & Hp & Hr).
    destruct (parse_binded_second host (S n) next ot a _ (VStr s') h r1 h1 nx h2 r h3 _
                Hot Hct Hp1 Hr0 Hcb Hp Hr) as (h' & Hq' & Hr').
    exists r, h'. split; [exact Hq'|]. rewrite Hr', Hmt, Hsp. simpl String.append.
    destruct t' as [|c2 t'']; destruct partial; try reflexivity.
    - now rewrite String.eqb_refl.
    - simpl. rewrite Ascii.eqb_refl. reflexivity. }
  destruct t' as [|c2 t''].
  - apply Hsecond; [exact Hr1|reflexivity].
  - destruct (strip_prefix (String c2 t'') s') as [rest|] eqn:Hsp.
    + assert (Hstep : forall v s h6, well_formed h6 -> True ->
                (v, s) = (VStr (String c2 t''), VStr rest) ->
                exists nx h7 r h8,
                  parserifyCb host (S n)
                    (CStartsTail (VStr (String c "")) (VStr (String c (String c2 t''))) partial)
                    v s h6 = Ok nx h7 /\
                  parse host (S n) nx s h7 = Ok r h8 /\
                  results h8 !! r = Some [(VStr (String c (String c2 t'')), VStr rest)]).
      { intros v s h6 _ _ [= -> ->].
        destruct (starts_tail_step n (String c "") (String c (String c2 t'')) partial
                    (String c2 t'') (VStr rest) h6) as (nx & h7 & r & h8 & Hcb & Hp & Hr).
        exists nx, h7, r, h8. split; [exact Hcb|]. split; [exact Hp|]. rewrite Hr.
        simpl String.append. rewrite String.eqb_refl. now destruct partial. }
      destruct (parse_binded_steps host (S n) _ (fun _ => [(VStr (String c (String c2 t'')),
                                                            VStr rest)])
                  (fun _ => True) (fun d => d = (VStr (String c2 t''), VStr rest))
                  (fun _ _ _ _ => I) Hstep
                  next ot a true (VStr s') h r1 h1 [(VStr (String c2 t''), VStr rest)]
                  W I Hot Hct Hp1 Hr1 ltac:(repeat constructor) eq_refl)
        as (r & h' & Hq' & Hr').
      rewrite Hmt in Hr'. simpl in Hr'. eauto.
    + apply Hsecond; [exact Hr1|reflexivity].
Qed.

Lemma parse_starts t' : forall c partial s n h l,
  2 * String.length (String c t') + 3 <= n ->
  wf_heap h = true -> item_there h ->
  has_shape h (target_shape it (String c t') partial) l ->
  exists r h',
    parse host n l (VStr s) h = Ok r h' /\
    results h' !! r =
      Some match s with
           | String d s' =>
               if Ascii.eqb c d then
                 match strip_prefix t' s' with
                 | Some rest => [(VStr (String c t'), VStr rest)]
                 | None => if partial then [(VStr (String c ""), VStr s')] else []
                 end
               else []
           | "" => []
           end.
Proof.
  induction t' as [|c2 t'' IH]; intros c partial s n h l Hn W Hit Hs.
  - (* one character *)
    simpl String.length in Hn. destruct n as [|[|[|[|[|n]]]]]; try lia.
    destruct Hs as (o & q & Ho & Hc & Hm & Sq).
    pose proof W as W'. apply wf_heap_iff in W'.
    pose proof (reset_classes _ _ _ Ho) as K0.
    pose proof (reset_wf _ _ _ W' Ho) as W0. apply wf_heap_iff in W0.
    destruct (parse_equals_item (S (S n)) c q s _ W0 (shape_classes _ _ _ _ K0 Sq))
      as (fr & h1 & Hq & Hr).
    set (res := match s with
                | String d s' =>
                    if Ascii.eqb c d then [(VStr (String c ""), VStr s')] else []
                | "" => []
                end) in *.
    assert (Hstep : forall v s0 h0, well_formed h0 -> item_there h0 ->
              In (v, s0) res ->
              exists next h2 r h3,
                parserifyCb host (S (S (S (S n)))) (CStartsHead it (VStr (String c "")) partial)
                  v s0 h0 = Ok next h2 /\
                parse host (S (S (S (S n)))) next s0 h2 = Ok r h3 /\
                results h3 !! r = Some [(VStr (String c ""), s0)]).
    { intros v s0 h0 W1 Hit1 Hin.
      assert (exists s', v = VStr (String c "") /\ s0 = VStr s') as (s' & -> & ->).
      { unfold res in Hin. destruct s as [|d s']; [destruct Hin|].
        destruct (Ascii.eqb c d); [|destruct Hin].
        destruct Hin as [[= <- <-]|[]]. eauto. }
      destruct (starts_head_unit (S (S (S (S n)))) c "" partial c (VStr s') h0 Hit1)
        as (next & h2 & Hcb & B2 & S2); [lia|].
      exists next, h2.
      pose proof (built_wf _ _ B2 W1) as W2. apply wf_heap_iff in W2.
      destruct (parse_starts_tail (S (S n)) c "" partial s' next h2) as (r & h3 & Hp & Hr3).
      - intros a h4 W4 Hit4 (_ & oa & Hoa & Hca & Hma).
        destruct (parse_zero host (S (S n)) a oa (VStr s') h4 Hoa Hca) as (h5 & Hp5 & Hr5).
        eauto.
      - exact W2.
      - eapply shape_built; eauto.
      - exact S2.
      - exists r, h3. split; [exact Hcb|]. split; [exact Hp|]. rewrite Hr3.
        simpl. now destruct partial. }
    destruct (parse_binded_exists host (S (S (S (S n)))) _
                (fun d => [(VStr (String c ""), snd d)])
                (fun h => has_shape h (SLeaf ItemParser) it)
                (fun d => In d res)
                (fun h h' Hh K => shape_classes _ _ _ _ K Hh) Hstep
                l o q (VStr s) h fr h1 res W Hit Ho Hc Hq Hr)
      as (r & h' & Hq' & Hr').
    { apply List.Forall_forall. auto. }
    exists r, h'. split; [exact Hq'|]. rewrite Hr', Hm. unfold res.
    destruct s as [|d s']; [reflexivity|]. simpl.
    destruct (Ascii.eqb c d); [|reflexivity]. simpl. now destruct partial.
  - (* more characters *)
    simpl String.length in Hn. simpl String.length in IH.
    destruct n as [|[|n2]]; try lia.
    assert (Hn2 : 2 * S (String.length t'') + 3 <= n2) by lia.
    destruct n2 as [|[|[|n]]]; try lia.
    destruct Hs as (o & q & Ho & Hc & Hm & Sq).
    pose proof W as W'. apply wf_heap_iff in W'.
    pose proof (reset_classes _ _ _ Ho) as K0.
    pose proof (reset_wf _ _ _ W' Ho) as W0. apply wf_heap_iff in W0.
    destruct (parse_equals_item (S (S n)) c q s _ W0 (shape_classes _ _ _ _ K0 Sq))
      as (fr & h1 & Hq & Hr).
    set (res := match s with
                | String d s' =>
                    if Ascii.eqb c d then [(VStr (String c ""), VStr s')] else []
                | "" => []
                end) in *.
    set (out := fun d : value * value =>
           match snd d with
           | VStr s' =>
               match strip_prefix (String c2 t'') s' with
               | Some rest => [(VStr (String c (String c2 t'')), VStr rest)]
               | None => if partial then [(VStr (String c ""), VStr s')] else []
               end
           | _ => []
           end).
    assert (Hstep : forall v s0 h0, well_formed h0 -> item_there h0 ->
              In (v, s0) res ->
              exists next h2 r h3,
                parserifyCb host (S (S (S (S n))))
                  (CStartsHead it (VStr (String c (String c2 t''))) partial)
                  v s0 h0 = Ok next h2 /\
                parse host (S (S (S (S n)))) next s0 h2 = Ok r h3 /\
                results h3 !! r = Some (out (v, s0))).
    { intros v s0 h0 W1 Hit1 Hin.
      assert (exists s', v = VStr (String c "") /\ s0 = VStr s') as (s' & -> & ->).
      { unfold res in Hin. destruct s as [|d s']; [destruct Hin|].
        destruct (Ascii.eqb c d); [|destruct Hin].
        destruct Hin as [[= <- <-]|[]]. eauto. }
      destruct (starts_head_unit (S (S (S (S n)))) c (String c2 t'') partial c (VStr s') h0 Hit1)
        as (next & h2 & Hcb & B2 & S2); [lia|].
      exists next, h2.
      pose proof (built_wf _ _ B2 W1) as W2. apply wf_heap_iff in W2.
      destruct (parse_starts_tail (S (S n)) c (String c2 t'') partial s' next h2)
        as (r & h3 & Hp & Hr3).
      - intros a h4 W4 Hit4 Sa.
        destruct (IH c2 false s' (S (S (S n))) h4 a Hn2 W4 Hit4 Sa) as (r5 & h5 & Hp5 & Hr5).
        exists r5, h5. split; [exact Hp5|]. rewrite Hr5. simpl.
        destruct s' as [|d' s'']; [reflexivity|].
        destruct (Ascii.eqb c2 d'); [|reflexivity].
        now destruct (strip_prefix t'' s'').
      - exact W2.
      - eapply shape_built; eauto.
      - exact S2.
      - exists r, h3. split; [exact Hcb|]. split; [exact Hp|]. rewrite Hr3. reflexivity. }
    destruct (parse_binded_exists host (S (S (S (S n)))) _ out
                (fun h => has_shape h (SLeaf ItemParser) it)
                (fun d => In d res)
                (fun h h' Hh K => shape_classes _ _ _ _ K Hh) Hstep
                l o q (VStr s) h fr h1 res W Hit Ho Hc Hq Hr)
      as (r & h' & Hq' & Hr').
    { apply List.Forall_forall. auto. }
    exists r, h'. split; [exact Hq'|]. rewrite Hr', Hm. unfold res, out.
    destruct s as [|d s']; [reflexivity|]. simpl.
    destruct (Ascii.eqb c d); [|reflexivity]. simpl. now rewrite app_nil_r.
Qed.
End StartsWith.

(** X13. [startsWith] over [item()].  For a target [t] that is not
    empty, [item().startsWith(t, partial)], built in any well-formed
    store and parsed to a depth linear in the length of [t], yields on
    a string that starts with [t] the single derivation of [t] with the
    rest of the string.  On any other string it yields nothing, unless
    [partial] is set and the string starts with the first character of
    [t]: then it yields that one character with the rest. *)
Theorem starts_with_prefix host (c : ascii) (t' s : string) (partial : bool) (n : nat)
    (h0 : heap) :
  wf_heap h0 = true -> 2 * String.length (String c t') + 3 <= n ->
  exists r h',
    (it ← Parser_item;
     u ← startsWith 2 it (VStr (String c t')) partial;
     parse host n u (VStr s)) h0 = Ok r h' /\
    (forall rest, s = String.append (String c t') rest ->
       results h' !! r = Some [(VStr (String c t'), VStr rest)]) /\
    ((forall rest, s <> String.append (String c t') rest) ->
       results h' !! r =
         Some match s with
              | String d s' =>
                  if partial && Ascii.eqb c d then [(VStr (String c ""), VStr s')] else []
              | "" => []
              end).
Proof.
  intros W Hn.
  rewrite (bind_run _ _ _ _ _ (Parser_new_run ItemParser h0)).
  set (it := length (objs h0)).
  set (ha := Heap (objs h0 ++ [PObj ItemParser (length (results h0)) None])
                  (results h0 ++ [[]])).
  assert (Ba : built h0 ha) by (eapply Parser_item_built; reflexivity).
  assert (Hit : has_shape ha (SLeaf ItemParser) it).
  { simpl. split; [reflexivity|]. eexists. split; [apply lookup_snoc|auto]. }
  pose proof (built_wf_heap _ _ Ba W) as Wa.
  destruct (startsWith_shape it 2 (String c t') partial ha Hit) as (u & h & Hu & B & Su); [lia|].
  rewrite (bind_run _ _ _ _ _ Hu).
  destruct (parse_starts host it t' c partial s n h u Hn (built_wf_heap _ _ B Wa)
              (shape_built _ _ _ _ B Hit) Su) as (r & h' & Hp & Hr).
  exists r, h'. split; [exact Hp|]. split.
  - intros rest ->. rewrite Hr. simpl. rewrite Ascii.eqb_refl.
    assert (E : strip_prefix t' (String.append t' rest) = Some rest)
      by now apply strip_prefix_spec.
    now rewrite E.
  - intros Hno. rewrite Hr. destruct s as [|d s']; [reflexivity|].
    destruct (Ascii.eqb_spec c d) as [<-|Hne]; [|now rewrite andb_false_r].
    rewrite andb_true_r.
    destruct (strip_prefix t' s') as [rest|] eqn:E; [|reflexivity].
    apply strip_prefix_spec in E. subst s'. now destruct (Hno rest).
Qed.

(** An instance: the target ['ab'] on ['abc'], and with [partial] on
    ['ax']. *)
Lemma starts_with_prefix_witness :
  (exists r h', item_startsWith 7 "ab" false "abc" empty_heap = Ok r h' /\
                results h' !! r = Some [(VStr "ab", VStr "c")]) /\
  (exists r h', item_startsWith 7 "ab" true "ax" empty_heap = Ok r h' /\
                results h' !! r = Some [(VStr "a", VStr "x")]).
Proof.
  split.
  - destruct (starts_with_prefix host0 "a" "b" "abc" false 7 empty_heap eq_refl)
      as (r & h' & Hp & Hyes & _); [simpl; lia|].
    exists r, h'. split; [exact Hp|]. now apply Hyes.
  - destruct (starts_with_prefix host0 "a" "b" "ax" true 7 empty_heap eq_refl)
      as (r & h' & Hp & _ & Hno); [simpl; lia|].
    exists r, h'. split; [exact Hp|]. apply Hno.
    intros rest. simpl. discriminate.
Defined.

(** ** A lazy unit over an Item unit *)

Lemma process_lazy host n l o fn cache input h :
  objs h !! l = Some o -> cls o = LazyParser fn cache ->
  process host (S n) l input h =
    match cache with
    | Some p => (c ← copy n p; process host n c input) h
    | None => (c ← copy n fn; set_cls l (LazyParser fn (Some c));; process host n c input) h
    end.
Proof.
  intros Hl Hc. simpl. unfold process_body.
  rewrite (bind_run _ _ _ _ _ (get_obj_run _ _ _ Hl)), Hc. now destruct cache.
Qed.

(** X14. A lazy unit does not reset the buffer of its definition.
    When the definition of a lazy unit (the unit it was given, or the
    copy it keeps once resolved) is an Item unit whose buffer holds
    [acc], [parse] of the lazy unit on a non-empty string returns that
    buffer, holding [acc] followed by the new derivation.  The lazy
    unit is then resolved, to an Item unit with that same buffer, so
    the derivations of every parse add up. *)
Theorem lazy_over_item_accumulates host (n : nat) (l : loc) (o : pobj) (fn : loc)
    (cache : option loc) (od : pobj) (acc : list (value * value)) (c : ascii) (s : string)
    (h : heap) :
  objs h !! l = Some o -> cls o = LazyParser fn cache -> mapValues o = None ->
  objs h !! (match cache with Some p => p | None => fn end) = Some od ->
  cls od = ItemParser ->
  results h !! result od = Some acc ->
  exists h' c',
    parse host (S (S n)) l (VStr (String c s)) h = Ok (result od) h' /\
    results h' !! result od = Some (acc ++ [(VStr (String c ""), VStr s)]) /\
    objs h' !! l = Some (PObj (LazyParser fn (Some c')) (result od) None) /\
    objs h' !! c' = Some od.
Proof.
  intros Hl Hc Hm Hd Hcd Hacc.
  pose proof (lookup_lt_Some _ _ _ Hl) as Hlt.
  pose proof (lookup_lt_Some _ _ _ Hacc) as Hrlt.
  assert (Hne : (match cache with Some p => p | None => fn end) <> l).
  { intros E. rewrite E in Hd. rewrite Hl in Hd. injection Hd as <-. congruence. }
  set (input := VStr (String c s)).
  set (h0 := reset_heap l o h).
  assert (Hl0 : objs h0 !! l = Some (PObj (cls o) (length (results h)) (mapValues o)))
    by now apply reset_lookup.
  assert (Hd0 : objs h0 !! (match cache with Some p => p | None => fn end) = Some od).
  { simpl. now rewrite list_lookup_insert_ne by congruence. }
  assert (Hleaf : is_leaf (cls od) = true) by now rewrite Hcd.
  pose proof (copy_leaf_run n _ h0 od Hd0 Hleaf) as Hcopy.
  set (c1 := length (objs h0)) in *.
  set (h1 := Heap (objs h0 ++ [od]) (results h0 ++ [[]])) in *.
  assert (Hl1 : objs h1 !! l = Some (PObj (cls o) (length (results h)) (mapValues o))).
  { simpl. rewrite lookup_app_l by (rewrite length_insert; lia). exact Hl0. }
  assert (Hr1 : forall objs', results (Heap objs' (results h1)) !! result od = Some acc).
  { intros objs'. simpl. rewrite !lookup_app_l; [exact Hacc|lia|rewrite length_app; simpl; lia]. }
  assert (Hitem : forall h2, objs h2 !! c1 = Some od -> results h2 = results h1 ->
            process host (S n) c1 input h2 =
              Ok (result od)
                 (Heap (objs h2)
                       (<[result od := acc ++ [(VStr (String c ""), VStr s)]]> (results h2)))).
  { intros h2 Hc1 Hres. apply process_item_string; [exact Hc1|exact Hcd|].
    rewrite Hres. apply (Hr1 []). }
  destruct cache as [p|].
  - (* resolved: the copy kept is copied again *)
    assert (Hp : process host (S (S n)) l input h0 =
                 Ok (result od)
                    (Heap (objs h1)
                          (<[result od := acc ++ [(VStr (String c ""), VStr s)]]>
                             (results h1)))).
    { rewrite (process_lazy host (S n) l _ fn (Some p) input h0 Hl0 Hc).
      rewrite (bind_run _ _ _ _ _ Hcopy).
      apply Hitem; [apply lookup_snoc|reflexivity]. }
    unfold parse.
    rewrite (parse_with_run _ _ _ _ _ _ _ _ Hl Hp Hl1). simpl mapValues. rewrite Hm.
    eexists _, p. split; [reflexivity|]. simpl. split; [|split].
    + apply list_lookup_insert_eq. rewrite !length_app. simpl. lia.
    + rewrite Hc, Hm. apply list_lookup_insert_eq. rewrite length_app, length_insert. lia.
    + rewrite list_lookup_insert_ne by congruence.
      rewrite lookup_app_l by (rewrite length_insert; eapply lookup_lt_Some; eauto).
      now rewrite list_lookup_insert_ne by congruence.
  - (* not resolved: the copy of the definition is kept *)
    set (h2 := Heap (<[l := PObj (LazyParser fn (Some c1)) (length (results h)) (mapValues o)]>
                       (objs h1)) (results h1)).
    assert (Hset : set_cls l (LazyParser fn (Some c1)) h1 = Ok tt h2)
      by apply (set_cls_run _ _ _ _ Hl1).
    assert (Hc2 : objs h2 !! c1 = Some od).
    { simpl. rewrite list_lookup_insert_ne by (unfold c1; simpl; rewrite length_insert; lia).
      apply lookup_snoc. }
    assert (Hp : process host (S (S n)) l input h0 =
                 Ok (result od)
                    (Heap (objs h2)
                          (<[result od := acc ++ [(VStr (String c ""), VStr s)]]>
                             (results h2)))).
    { rewrite (process_lazy host (S n) l _ fn None input h0 Hl0 Hc).
      rewrite (bind_run _ _ _ _ _ Hcopy).
      rewrite (bind_run _ _ _ _ _ Hset).
      apply Hitem; [exact Hc2|reflexivity]. }
    assert (Hl2 : objs h2 !! l
                  = Some (PObj (LazyParser fn (Some c1)) (length (results h)) (mapValues o))).
    { simpl. apply list_lookup_insert_eq. rewrite length_app, length_insert. lia. }
    unfold parse.
    rewrite (parse_with_run _ _ _ _ _ _ _ _ Hl Hp Hl2). simpl mapValues. rewrite Hm.
    eexists _, c1. split; [reflexivity|]. simpl. split; [|split].
    + apply list_lookup_insert_eq. rewrite !length_app. simpl. lia.
    + rewrite Hm. apply list_lookup_insert_eq.
      rewrite length_insert, length_app, length_insert. lia.
    + rewrite list_lookup_insert_ne by (unfold c1; simpl; rewrite length_insert; lia).
      exact Hc2.
Qed.

(** An instance: [lazy(() => item())], parsed on ['ab'] and then on
    ['cd']. *)
Lemma lazy_over_item_accumulates_witness :
  let h := Heap [PObj ItemParser 0 None; PObj (LazyParser 0 None) 1 None] [[]; []] in
  exists h1 c1 h2 c2,
    parse host0 2 1 (VStr "ab") h = Ok 0 h1 /\
    results h1 !! 0 = Some [(VStr "a", VStr "b")] /\
    objs h1 !! 1 = Some (PObj (LazyParser 0 (Some c1)) 0 None) /\
    parse host0 2 1 (VStr "cd") h1 = Ok 0 h2 /\
    results h2 !! 0 = Some [(VStr "a", VStr "b"); (VStr "c", VStr "d")] /\
    objs h2 !! 1 = Some (PObj (LazyParser 0 (Some c2)) 0 None).
Proof.
  intros h.
  destruct (lazy_over_item_accumulates host0 0 1 (PObj (LazyParser 0 None) 1 None) 0 None
              (PObj ItemParser 0 None) [] "a" "b" h eq_refl eq_refl eq_refl eq_refl eq_refl
              eq_refl) as (h1 & c1 & Hp1 & Hr1 & Hl1 & Hc1).
  destruct (lazy_over_item_accumulates host0 0 1 _ 0 (Some c1)
              (PObj ItemParser 0 None) _ "c" "d" h1 Hl1 eq_refl eq_refl Hc1 eq_refl
              Hr1) as (h2 & c2 & Hp2 & Hr2 & Hl2 & Hc2).
  exists h1, c1, h2, c2. auto 8.
Defined.

(** ** The first use of a negation *)

(** X15. [item().not()], built in any well-formed store, on its first
    parse: on the empty string it yields the empty string and consumes
    nothing, on every other string it yields nothing. *)
Theorem item_not_first_use host (m k : nat) (s : string) (h0 : heap) :
  wf_heap h0 = true ->
  exists r h',
    (it ← Parser_item; u ← not_ (S m) it; parse host (S (S k)) u (VStr s)) h0 = Ok r h' /\
    results h' !! r = Some match s with
                           | "" => [(VStr "", VStr "")]
                           | _ => []
                           end.
Proof.
  intros W.
  rewrite (bind_run _ _ _ _ _ (Parser_new_run ItemParser h0)).
  set (it := length (objs h0)).
  set (oit := PObj ItemParser (length (results h0)) None).
  set (ha := Heap (objs h0 ++ [oit]) (results h0 ++ [[]])).
  assert (Ba : built h0 ha) by (eapply Parser_item_built; reflexivity).
  assert (Hit : objs ha !! it = Some oit) by apply lookup_snoc.
  (* the construction *)
  set (h1 := Heap (objs ha ++ [PObj Unbuilt (length (results ha)) None]) (results ha ++ [[]])).
  assert (Hit1 : objs h1 !! it = Some oit).
  { simpl. rewrite lookup_app_l by (rewrite length_app; simpl; lia). exact Hit. }
  pose proof (copy_leaf_run m it h1 oit Hit1 eq_refl) as Hcopy.
  set (h2 := Heap (objs h1 ++ [oit]) (results h1 ++ [[]])) in *.
  assert (Hu2 : objs h2 !! length (objs ha) = Some (PObj Unbuilt (length (results ha)) None)).
  { simpl. rewrite lookup_app_l by (rewrite !length_app; simpl; lia). apply lookup_snoc. }
  pose proof (set_cls_run _ (NegatedParser (length (objs h1))) _ _ Hu2) as Hset.
  simpl result in Hset. simpl mapValues in Hset.
  set (o := PObj (NegatedParser (length (objs h1))) (length (results ha)) None) in *.
  set (h3 := Heap (<[length (objs ha) := o]> (objs h2)) (results h2)) in *.
  assert (Hnot : not_ (S m) it ha = Ok (length (objs ha)) h3).
  { unfold not_, NegatedParser_new.
    rewrite (bind_run _ _ _ _ _ (Parser_new_run Unbuilt ha)).
    rewrite (bind_run _ _ _ _ _ Hcopy), (bind_run _ _ _ _ _ Hset). reflexivity. }
  rewrite (bind_run _ _ _ _ _ Hnot).
  pose proof (built_wf_heap _ _ (proj1 (not_built _ _ _ _ _ Hnot)) (built_wf_heap _ _ Ba W))
    as W3.
  assert (Ho : objs h3 !! length (objs ha) = Some o).
  { simpl. apply list_lookup_insert_eq. rewrite !length_app. simpl. lia. }
  (* the unit of the negation, on the buffer it shares with [it] *)
  assert (Hp0 : objs (reset_heap (length (objs ha)) o h3) !! length (objs h1) = Some oit).
  { simpl. rewrite list_lookup_insert_ne by (rewrite !length_app; simpl; lia).
    rewrite list_lookup_insert_ne by (rewrite !length_app; simpl; lia).
    apply lookup_snoc. }
  assert (Hb0 : results (reset_heap (length (objs ha)) o h3) !! result oit = Some []).
  { simpl. rewrite !lookup_app_l by (rewrite ?length_app; simpl; lia). apply lookup_snoc. }
  destruct s as [|c s].
  - pose proof (process_item_falsy host k _ oit (VStr "") _ Hp0 eq_refl eq_refl) as Hp.
    apply (parse_negated host (S k) _ o _ (VStr "") h3 _ _ [] W3 Ho eq_refl eq_refl Hp Hb0).
  - pose proof (process_item_string host k _ oit c s _ [] Hp0 eq_refl Hb0) as Hp.
    eapply (parse_negated host (S k) _ o _ (VStr (String c s)) h3 _ _
              [(VStr (String c ""), VStr s)] W3 Ho eq_refl eq_refl Hp).
    simpl. apply list_lookup_insert_eq. rewrite !length_app. simpl. lia.
Qed.

(** An instance: in the empty store, on [''] and on ['a']. *)
Lemma item_not_first_use_witness :
  (exists r h', item_not 2 "" empty_heap = Ok r h' /\
                results h' !! r = Some [(VStr "", VStr "")]) /\
  (exists r h', item_not 2 "a" empty_heap = Ok r h' /\ results h' !! r = Some []).
Proof.
  split.
  - apply (item_not_first_use host0 0 0 "" empty_heap eq_refl).
  - apply (item_not_first_use host0 0 0 "a" empty_heap eq_refl).
Defined.

(** ** A choice of two units *)

Lemma parse_added_pair host n ad o p q input h r1 h1 ds1 ds2 :
  wf_heap h = true ->
  objs h !! ad = Some o -> cls o = AddedParser [p; q] -> mapValues o = None ->
  parse host n p input (reset_heap ad o h) = Ok r1 h1 ->
  results h1 !! r1 = Some ds1 ->
  (ds1 = [] -> exists r2 h2, parse host n q input h1 = Ok r2 h2 /\
                             results h2 !! r2 = Some ds2) ->
  exists r h',
    parse host (S n) ad input h = Ok r h' /\
    results h' !! r = Some match ds1 with [] => ds2 | _ => ds1 end.
Proof.
  intros W Ho Hc Hm Hp Hr Hq. destruct ds1 as [|d1 ds1].
  - destruct (Hq eq_refl) as (r2 & h2 & Hp2 & Hr2). destruct ds2 as [|d2 ds2].
    + eapply (parse_added_none host n input ad o [p; q] h h2 W Ho Hc).
      eapply alt_next; [exact Hp|exact Hr|].
      eapply alt_next; [exact Hp2|exact Hr2|]. apply alt_none.
    + assert (A : alternatives host n input [p; q] (reset_heap ad o h) (Some r2) h2).
      { eapply alt_next; [exact Hp|exact Hr|].
        eapply alt_here; [exact Hp2|exact Hr2|simpl; lia]. }
      destruct (parse_added_some host n input ad o [p; q] h r2 h2 _ Ho Hc Hm A Hr2)
        as (h' & Hp' & Hr').
      eauto.
  - assert (A : alternatives host n input [p; q] (reset_heap ad o h) (Some r1) h1).
    { eapply alt_here; [exact Hp|exact Hr|simpl; lia]. }
    destruct (parse_added_some host n input ad o [p; q] h r1 h1 _ Ho Hc Hm A Hr)
      as (h' & Hp' & Hr').
    eauto.
Qed.

(** A choice of two units, each of which parses to a Result that its
    shape determines. *)
Lemma parse_added_shapes host n input shp shq dsp dsq ad h :
  (forall h0 l, wf_heap h0 = true -> has_shape h0 shp l ->
     exists r h', parse host n l input h0 = Ok r h' /\ results h' !! r = Some dsp) ->
  (forall h0 l, wf_heap h0 = true -> has_shape h0 shq l ->
     exists r h', parse host n l input h0 = Ok r h' /\ results h' !! r = Some dsq) ->
  wf_heap h = true -> has_shape h (SAdded shp shq) ad ->
  exists r h',
    parse host (S n) ad input h = Ok r h' /\
    results h' !! r = Some match dsp with [] => dsq | _ => dsp end.
Proof.
  intros Hp Hq W (o & p & q & Ho & Hc & Hm & Sp & Sq).
  pose proof W as W'. apply wf_heap_iff in W'.
  pose proof (reset_classes _ _ _ Ho) as K0.
  pose proof (reset_wf _ _ _ W' Ho) as W0. apply wf_heap_iff in W0.
  destruct (Hp _ p W0 (shape_classes _ _ _ _ K0 Sp)) as (r1 & h1 & Hp1 & Hr1).
  eapply (parse_added_pair host n ad o p q input h r1 h1 dsp dsq W Ho Hc Hm Hp1 Hr1).
  intros _. apply Hq.
  - eapply parse_wf; eauto.
  - eapply shape_classes; [eapply parse_classes; eauto|].
    eapply shape_classes; eauto.
Qed.

Lemma or_parser_shape n this sh t sht h :
  has_shape h sh this -> has_shape h sht t -> depth sh <= n -> depth sht <= n ->
  exists l h', or_ n this [RParser t] h = Ok l h' /\ built h h' /\
               has_shape h' (SAdded sh sht) l /\ length (objs h) <= l.
Proof.
  intros Hs Ht Hn Hnt. unfold or_.
  assert (Hm : mapM parserOf [RParser this; RParser t] h = Ok [this; t] h) by reflexivity.
  rewrite (bind_run _ _ _ _ _ Hm).
  apply AddedParser_new_shape; auto using copy_shape.
Qed.

(** ** [Parser.operations] over one-character operators *)

Section Operations.
Variable host : nat -> value -> value -> failure + value.

Lemma tokens_shape ops h :
  exists nexts h',
    tokens ops h = Ok nexts h' /\ built h h' /\
    Forall2 (fun op next => has_shape h' (token_shape (fst op)) (fst next) /\
                            snd next = RValue (snd op)) ops nexts.
Proof.
  revert h. induction ops as [|[c v] ops IH]; intros h.
  - exists [], h. split; [reflexivity|]. split; [apply built_refl|constructor].
  - cbn [tokens].
    rewrite (bind_run _ _ _ _ _ (Parser_new_run ItemParser h)).
    set (ha := Heap (objs h ++ [PObj ItemParser (length (results h)) None])
                    (results h ++ [[]])).
    assert (Ba : built h ha) by (eapply Parser_item_built; reflexivity).
    assert (Hit : has_shape ha (SLeaf ItemParser) (length (objs h))).
    { simpl. split; [reflexivity|]. eexists. split; [apply lookup_snoc|auto]. }
    destruct (then_shape 2 _ _ (CSatisfy (strict_eq (VStr (String c "")))) false ha Hit)
      as (e & h1 & He & B1 & S1 & _); [simpl; lia|].
    change (equals 2 (length (objs h)) (VStr (String c "")) ha = Ok e h1) in He.
    rewrite (bind_run _ _ _ _ _ He).
    destruct (IH h1) as (nexts & h2 & Ht & B2 & F).
    rewrite (bind_run _ _ _ _ _ Ht).
    exists ((e, RValue v) :: nexts), h2. split; [reflexivity|].
    split; [eauto using built_trans|]. constructor; [|exact F]. cbn [fst snd].
    split; [|reflexivity]. exact (shape_built _ _ _ _ B2 S1).
Qed.

Lemma operations_from_shape n ops : forall nexts h parser sh,
  Forall2 (fun op next => has_shape h (token_shape (fst op)) (fst next) /\
                          snd next = RValue (snd op)) ops nexts ->
  has_shape h sh parser -> Nat.max (depth sh) 3 + length ops <= n ->
  exists l h', operations_from n parser nexts h = Ok l h' /\ built h h' /\
               has_shape h' (operations_shape sh ops) l.
Proof.
  induction ops as [|[c v] ops IH]; intros nexts h parser sh F Hs Hn.
  - inversion F; subst. exists parser, h. split; [reflexivity|].
    split; [apply built_refl|exact Hs].
  - inversion F as [|op [e x] ops0 nexts' [He Hx] F']; subst. cbn [fst snd] in He, Hx. subst x.
    simpl length in Hn. cbn [operations_from fst snd].
    destruct (then_shape n e (token_shape c) (CConst (RValue v)) false h He)
      as (t & h1 & Ht & B1 & S1 & _);
      [simpl; lia|].
    rewrite (bind_run _ _ _ _ _ Ht).
    destruct (or_parser_shape n parser sh t _ h1 (shape_built _ _ _ _ B1 Hs) S1)
      as (a & h2 & Ha & B2 & S2 & _); [lia|simpl; lia|].
    rewrite (bind_run _ _ _ _ _ Ha).
    destruct (IH nexts' h2 a (SAdded sh (operator_shape c v))) as (l & h' & Hl & B & S).
    + eapply Forall2_impl; [exact F'|]. intros [c' v'] [e' x'] [H1 H2]. split; [|exact H2].
      exact (shape_built _ _ _ _ B2 (shape_built _ _ _ _ B1 H1)).
    + exact S2.
    + simpl. lia.
    + exists l, h'. split; [exact Hl|]. split; [eauto using built_trans|exact S].
Qed.

(** The unit of one operator: [item().equals(c).then(() => v)]. *)
Lemma parse_operator k c v s h l :
  wf_heap h = true -> has_shape h (operator_shape c v) l ->
  exists r h',
    parse host (S (S (S k))) l (VStr s) h = Ok r h' /\
    results h' !! r =
      Some match s with
           | String d s' =>
               if Ascii.eqb c d
               then [(match v with VUndef => VStr s' | _ => v end, VStr s')]
               else []
           | "" => []
           end.
Proof.
  intros W (o & e & Ho & Hc & Hm & Se).
  pose proof W as W'. apply wf_heap_iff in W'.
  pose proof (reset_classes _ _ _ Ho) as K0.
  pose proof (reset_wf _ _ _ W' Ho) as W0. apply wf_heap_iff in W0.
  destruct (parse_equals_item host k c e s _ W0 (shape_classes _ _ _ _ K0 Se))
    as (fr & h1 & Hq & Hr).
  assert (Hstep : forall x rest h0, well_formed h0 -> True -> True ->
            exists next h2 r h3,
              parserifyCb host (S (S k)) (CConst (RValue v)) x rest h0 = Ok next h2 /\
              parse host (S (S k)) next rest h2 = Ok r h3 /\
              results h3 !! r = Some [(match v with VUndef => rest | _ => v end, rest)]).
  { intros x rest h0 _ _ _.
    destruct (parserifyCb_value host (S k) (CConst (RValue v)) x rest h0 v h0 eq_refl)
      as (next & h2 & on & Hcb & Hon & Hcn & Hmn).
    destruct (parse_result_unit host (S k) next on v rest h2 Hon Hcn Hmn)
      as (r & h3 & Hp & Hr3).
    eauto 8. }
  destruct (parse_binded_exists host (S (S k)) (CConst (RValue v))
              (fun d => [(match v with VUndef => snd d | _ => v end, snd d)])
              (fun _ => True) (fun _ => True) (fun _ _ _ _ => I) Hstep
              l o e (VStr s) h fr h1 _ W I Ho Hc Hq Hr)
    as (r & h' & Hq' & Hr').
  { apply List.Forall_forall. auto. }
  exists r, h'. split; [exact Hq'|]. rewrite Hr', Hm.
  destruct s as [|d s']; [reflexivity|].
  destruct (Ascii.eqb c d); [|reflexivity]. simpl. now destruct v.
Qed.

Lemma parse_operations ops s : forall sh F sem,
  (forall n h l, F <= n -> wf_heap h = true -> has_shape h sh l ->
     exists r h', parse host n l (VStr s) h = Ok r h' /\ results h' !! r = Some sem) ->
  forall n h l,
    Nat.max F 3 + length ops <= n -> wf_heap h = true ->
    has_shape h (operations_shape sh ops) l ->
    exists r h',
      parse host n l (VStr s) h = Ok r h' /\
      results h' !! r =
        Some match sem with
             | [] =>
                 match s with
                 | String d s' =>
                     match first_op ops d with
                     | Some v => [(match v with VUndef => VStr s' | _ => v end, VStr s')]
                     | None => []
                     end
                 | "" => []
                 end
             | _ => sem
             end.
Proof.
  induction ops as [|[c v] ops IH]; intros sh F sem Hsh n h l Hn W Hs.
  - simpl in Hs. destruct (Hsh n h l ltac:(simpl in Hn; lia) W Hs) as (r & h' & Hp & Hr).
    exists r, h'. split; [exact Hp|]. rewrite Hr.
    destruct sem; [|reflexivity]. now destruct s.
  - simpl length in Hn. cbn [operations_shape] in Hs.
    set (semT := match s with
                 | String d s' =>
                     if Ascii.eqb c d
                     then [(match v with VUndef => VStr s' | _ => v end, VStr s')]
                     else []
                 | "" => []
                 end).
    destruct (IH (SAdded sh (operator_shape c v)) (S (Nat.max F 3))
                (match sem with [] => semT | _ => sem end)) with (n := n) (h := h) (l := l)
      as (r & h' & Hp & Hr); [|lia|exact W|exact Hs|].
    + intros n0 h0 l0 Hn0 W0 S0. destruct n0 as [|n0]; [lia|].
      apply (parse_added_shapes host n0 (VStr s) sh (operator_shape c v) sem semT l0 h0);
        [| |exact W0|exact S0].
      * intros h1 l1 W1 S1. apply Hsh; [lia|exact W1|exact S1].
      * intros h1 l1 W1 S1. destruct n0 as [|[|[|k]]]; try lia.
        apply parse_operator; assumption.
    + exists r, h'. split; [exact Hp|]. rewrite Hr.
      destruct sem as [|d0 sem]; [|reflexivity]. unfold semT.
      destruct s as [|d s']; [reflexivity|]. simpl.
      destruct (Ascii.eqb c d); reflexivity.
Qed.
End Operations.

(** X16. [Parser.operations] over one-character operators.  For the
    pairs [[item().equals(c), v]], built in any well-formed store and
    parsed to a depth linear in the number of pairs, the unit of
    [Parser.operations] yields, on a string whose first character is
    the character of some pair, the value of the first such pair with
    the rest of the string ([undefined] as value is replaced by the
    rest).  When no pair has that character, and on the empty string,
    it yields nothing. *)
Theorem operations_first_match host (ops : list (ascii * value)) (s : string) (n : nat)
    (h0 : heap) :
  wf_heap h0 = true -> length ops + 3 <= n ->
  exists r h',
    (nexts ← tokens ops; u ← Parser_operations n nexts; parse host n u (VStr s)) h0
      = Ok r h' /\
    results h' !! r =
      Some match s with
           | String d s' =>
               match first_op ops d with
               | Some v => [(match v with VUndef => VStr s' | _ => v end, VStr s')]
               | None => []
               end
           | "" => []
           end.
Proof.
  intros W Hn.
  destruct (tokens_shape ops h0) as (nexts & h1 & Ht & B1 & F).
  rewrite (bind_run _ _ _ _ _ Ht).
  unfold Parser_operations.
  set (hz := Heap (objs h1 ++ [PObj ZeroParser (length (results h1)) None])
                  (results h1 ++ [[]])).
  assert (Bz : built h1 hz) by (eapply Parser_zero_built; reflexivity).
  assert (Hz : has_shape hz (SLeaf ZeroParser) (length (objs h1))).
  { simpl. split; [reflexivity|]. eexists. split; [apply lookup_snoc|auto]. }
  destruct (operations_from_shape n ops nexts hz (length (objs h1)) (SLeaf ZeroParser))
    as (u & h2 & Hu & B2 & Su); [|exact Hz|simpl; lia|].
  { eapply Forall2_impl; [exact F|]. intros op next [H1 H2]. split; [|exact H2].
    eapply shape_built; eauto. }
  assert (Hops : (z ← Parser_zero; operations_from n z nexts) h1 = Ok u h2).
  { rewrite (bind_run _ _ _ _ _ (Parser_new_run ZeroParser h1)). exact Hu. }
  rewrite (bind_run _ _ _ _ _ Hops).
  destruct (parse_operations host ops s (SLeaf ZeroParser) 1 []) with (n := n) (h := h2) (l := u)
    as (r & h' & Hp & Hr); [|simpl; lia| |exact Su|eauto].
  - intros n0 h l Hn0 Wh (_ & o & Ho & Hc & _). destruct n0 as [|n0]; [lia|].
    destruct (parse_zero host n0 l o (VStr s) h Ho Hc) as (h' & Hp & Hr). eauto.
  - eapply built_wf_heap; [exact B2|]. eapply built_wf_heap; [exact Bz|].
    eapply built_wf_heap; eauto.
Qed.

(** An instance: the operators ['+'] and ['-'] on ['-1'] and on ['*1']. *)
Lemma operations_first_match_witness :
  (exists r h', plus_minus 5 "-1" empty_heap = Ok r h' /\
                results h' !! r = Some [(VFun 1, VStr "1")]) /\
  (exists r h', plus_minus 5 "*1" empty_heap = Ok r h' /\ results h' !! r = Some []).
Proof.
  split.
  - apply (operations_first_match host0 [("+"%char, VFun 0); ("-"%char, VFun 1)] "-1" 5
             empty_heap eq_refl). simpl. lia.
  - apply (operations_first_match host0 [("+"%char, VFun 0); ("-"%char, VFun 1)] "*1" 5
             empty_heap eq_refl). simpl. lia.
Defined.

(** ** A choice of two units, under an invariant of the store *)

Lemma parse_added_invariant host n input (P : heap -> Prop) shp shq dsp dsq ad h :
  (forall h h', P h -> keeps_classes h h' -> P h') ->
  (forall h0 l, wf_heap h0 = true -> P h0 -> has_shape h0 shp l ->
     exists r h', parse host n l input h0 = Ok r h' /\ results h' !! r = Some dsp) ->
  (forall h0 l, wf_heap h0 = true -> P h0 -> has_shape h0 shq l ->
     exists r h', parse host n l input h0 = Ok r h' /\ results h' !! r = Some dsq) ->
  wf_heap h = true -> P h -> has_shape h (SAdded shp shq) ad ->
  exists r h',
    parse host (S n) ad input h = Ok r h' /\
    results h' !! r = Some match dsp with [] => dsq | _ => dsp end.
Proof.
  intros Pst Hp Hq W Ph (o & p & q & Ho & Hc & Hm & Sp & Sq).
  pose proof W as W'. apply wf_heap_iff in W'.
  pose proof (reset_classes _ _ _ Ho) as K0.
  pose proof (reset_wf _ _ _ W' Ho) as W0. apply wf_heap_iff in W0.
  destruct (Hp _ p W0 (Pst _ _ Ph K0) (shape_classes _ _ _ _ K0 Sp)) as (r1 & h1 & Hp1 & Hr1).
  pose proof (parse_classes _ _ _ _ _ _ _ Hp1) as K1.
  eapply (parse_added_pair host n ad o p q input h r1 h1 dsp dsq W Ho Hc Hm Hp1 Hr1).
  intros _. apply Hq.
  - eapply parse_wf; eauto.
  - eauto.
  - eapply shape_classes; [exact K1|]. eapply shape_classes; eauto.
Qed.

(** ** [chain] applies the operator from the left *)

Lemma chain_result_step g c x s :
  chain_result g c x s =
    let ds := match s with
              | String c0 (String d s2) =>
                  if Ascii.eqb c c0 then chain_result g c (g x (VStr (String d ""))) s2 else []
              | _ => []
              end in
    match ds with
    | [] => [(match x with VUndef => VStr s | _ => x end, VStr s)]
    | _ => ds
    end.
Proof.
  unfold chain_result. destruct s as [|c0 [|d s2]]; try reflexivity. simpl.
  destruct (Ascii.eqb c c0); [|reflexivity].
  now destruct (chain_rest g c (g x (VStr (String d ""))) s2).
Qed.

Section Chain.
Variable host : nat -> value -> value -> failure + value.
Variable k : nat.
Variable g : value -> value -> value.
Hypothesis host_g : forall x y, host k x y = inr (g x y).
(** The operand unit, the operator unit and the operator character. *)
Variable it op : loc.
Variable c : ascii.

#[local] Abbreviation units_there :=
  (fun h => has_shape h (SLeaf ItemParser) it /\ has_shape h (operator_shape c (VFun k)) op).
#[local] Abbreviation rest_shape x := (chain_rest_shape it op c (VFun k) x).
#[local] Abbreviation op_shape x :=
  (SBinded (operator_shape c (VFun k)) (CChainOp it op x) false).
#[local] Abbreviation next_shape x :=
  (SBinded (SLeaf ItemParser) (CChainNext it op (VFun k) x) false).

Lemma units_there_stable h h' : units_there h -> keeps_classes h h' -> units_there h'.
Proof. intros [H1 H2] K. split; eapply shape_classes; eauto. Qed.

(** [operation.then(...).or(x)], copied. *)
Lemma rest_unit n x h :
  units_there h -> 5 <= n ->
  exists t h0 o h1 next h2,
    then_ n op (NextCb (CChainOp it op x)) false h = Ok t h0 /\
    or_ n t [RValue x] h0 = Ok o h1 /\
    copy n o h1 = Ok next h2 /\ built h h2 /\ has_shape h2 (rest_shape x) next.
Proof.
  intros [Hit Hop] Hn.
  destruct (then_shape n op _ (CChainOp it op x) false h Hop) as (t & h1 & Ht & B1 & S1 & _);
    [simpl; lia|].
  destruct (or_value_shape n t _ x h1 S1) as (o & h2 & Ho & B2 & S2 & _); [simpl; lia|lia|].
  assert (Hd : depth (rest_shape x) <= n) by (simpl; lia).
  destruct (copy_shape _ n Hd o h2 S2) as (next & h3 & Hc & B3 & S3 & _).
  exists t, h1, o, h2, next, h3. eauto 8 using built_trans.
Qed.

Lemma chain_rest_unit n x input h :
  units_there h -> 5 <= n ->
  exists next h1,
    parserifyCb host n (CChainRest it op) x input h = Ok next h1 /\
    built h h1 /\ has_shape h1 (rest_shape x) next.
Proof.
  intros Hu Hn.
  destruct (rest_unit n x h Hu Hn) as (t & h0 & o & h1 & next & h2 & Ht & Ho & Hc & B & S).
  exists next, h2. split; [|split; assumption].
  assert (Ha : apply_cb host n (CChainRest it op) x input h = Ok (RParser o) h1).
  { unfold apply_cb. rewrite (bind_run _ _ _ _ _ Ht), (bind_run _ _ _ _ _ Ho). reflexivity. }
  unfold parserifyCb. rewrite (bind_run _ _ _ _ _ Ha). exact Hc.
Qed.

Lemma chain_next_unit n x y input h :
  units_there h -> 5 <= n ->
  exists next h1,
    parserifyCb host n (CChainNext it op (VFun k) x) y input h = Ok next h1 /\
    built h h1 /\ has_shape h1 (rest_shape (g x y)) next.
Proof.
  intros Hu Hn.
  destruct (rest_unit n (g x y) h Hu Hn)
    as (t & h0 & o & h1 & next & h2 & Ht & Ho & Hc & B & S).
  exists next, h2. split; [|split; assumption].
  assert (Ha : apply_cb host n (CChainNext it op (VFun k) x) y input h = Ok (RParser o) h1).
  { unfold apply_cb, call. rewrite host_g. simpl lift. rewrite ret_bind.
    rewrite (bind_run _ _ _ _ _ Ht), (bind_run _ _ _ _ _ Ho). reflexivity. }
  unfold parserifyCb. rewrite (bind_run _ _ _ _ _ Ha). exact Hc.
Qed.

Lemma chain_op_unit n x v input h :
  units_there h -> 2 <= n ->
  exists next h1,
    parserifyCb host n (CChainOp it op x) v input h = Ok next h1 /\
    built h h1 /\
    has_shape h1 (SBinded (SLeaf ItemParser) (CChainNext it op v x) false) next.
Proof.
  intros [Hit Hop] Hn.
  destruct (then_shape n it _ (CChainNext it op v x) false h Hit) as (t & h1 & Ht & B1 & S1 & _);
    [simpl; lia|].
  assert (Hd : depth (SBinded (SLeaf ItemParser) (CChainNext it op v x) false) <= n)
    by (simpl; lia).
  destruct (copy_shape _ n Hd t h1 S1) as (next & h2 & Hc & B2 & S2 & _).
  exists next, h2. split; [|split; [eauto using built_trans|exact S2]].
  assert (Ha : apply_cb host n (CChainOp it op x) v input h = Ok (RParser t) h1).
  { unfold apply_cb. rewrite (bind_run _ _ _ _ _ Ht). reflexivity. }
  unfold parserifyCb. rewrite (bind_run _ _ _ _ _ Ha). exact Hc.
Qed.

(** The unit [this.then((y) => rest(f(x, y)))], on what follows an
    operator. *)
Lemma parse_chain_next n x s1 h l :
  (forall d s2 h0 l0, s1 = String d s2 ->
     wf_heap h0 = true -> units_there h0 ->
     has_shape h0 (rest_shape (g x (VStr (String d "")))) l0 ->
     exists r h', parse host (S n) l0 (VStr s2) h0 = Ok r h' /\
       results h' !! r = Some (chain_result g c (g x (VStr (String d ""))) s2)) ->
  4 <= n ->
  wf_heap h = true -> units_there h -> has_shape h (next_shape x) l ->
  exists r h',
    parse host (S (S n)) l (VStr s1) h = Ok r h' /\
    results h' !! r = Some match s1 with
                           | String d s2 => chain_result g c (g x (VStr (String d ""))) s2
                           | "" => []
                           end.
Proof.
  intros Hrec Hn W Hu (o & p & Ho & Hc & Hm & Sp).
  pose proof (shape_classes _ _ _ _ (reset_classes _ _ _ Ho) Sp) as (_ & op0 & Hop & Hcp & Hmp).
  destruct (parse_item_any_string host n p op0 s1 _ Hop Hcp Hmp) as (fr & h1 & Hq & Hr).
  set (res := match s1 with
              | String d s2 => [(VStr (String d ""), VStr s2)]
              | "" => []
              end) in *.
  set (out := fun d : value * value =>
         match d with
         | (VStr (String d0 ""), VStr s2) => chain_result g c (g x (VStr (String d0 ""))) s2
         | _ => []
         end).
  assert (Hstep : forall v s0 h0, well_formed h0 -> units_there h0 -> In (v, s0) res ->
            exists next h2 r h3,
              parserifyCb host (S n) (CChainNext it op (VFun k) x) v s0 h0 = Ok next h2 /\
              parse host (S n) next s0 h2 = Ok r h3 /\
              results h3 !! r = Some (out (v, s0))).
  { intros v s0 h0 W0 Hu0 Hin.
    assert (exists d s2, s1 = String d s2 /\ v = VStr (String d "") /\ s0 = VStr s2)
      as (d & s2 & E & -> & ->).
    { unfold res in Hin. destruct s1 as [|d s2]; [destruct Hin|].
      destruct Hin as [[= <- <-]|[]]. eauto. }
    destruct (chain_next_unit (S n) x (VStr (String d "")) (VStr s2) h0 Hu0)
      as (next & h2 & Hcb & B2 & S2); [lia|].
    pose proof (built_wf _ _ B2 W0) as W2. apply wf_heap_iff in W2.
    destruct (Hrec d s2 h2 next E W2 (units_there_stable _ _ Hu0 (built_classes _ _ B2)) S2)
      as (r & h3 & Hp & Hr3).
    exists next, h2, r, h3. auto. }
  destruct (parse_binded_exists host (S n) _ out units_there (fun d => In d res)
              units_there_stable Hstep l o p (VStr s1) h fr h1 res W Hu Ho Hc Hq Hr)
    as (r & h' & Hq' & Hr').
  { apply List.Forall_forall. auto. }
  exists r, h'. split; [exact Hq'|]. rewrite Hr', Hm. unfold res, out.
  destruct s1 as [|d s2]; [reflexivity|]. simpl. now rewrite app_nil_r.
Qed.

(** The unit [operation.then((f) => ...)]. *)
Lemma parse_chain_op n x s h l :
  (forall d s2 h0 l0, (exists c0, s = String c0 (String d s2)) ->
     wf_heap h0 = true -> units_there h0 ->
     has_shape h0 (rest_shape (g x (VStr (String d "")))) l0 ->
     exists r h', parse host (S n) l0 (VStr s2) h0 = Ok r h' /\
       results h' !! r = Some (chain_result g c (g x (VStr (String d ""))) s2)) ->
  4 <= n ->
  wf_heap h = true -> units_there h -> has_shape h (op_shape x) l ->
  exists r h',
    parse host (S (S (S n))) l (VStr s) h = Ok r h' /\
    results h' !! r =
      Some match s with
           | String c0 (String d s2) =>
               if Ascii.eqb c c0 then chain_result g c (g x (VStr (String d ""))) s2 else []
           | _ => []
           end.
Proof.
  intros Hrec Hn W Hu (o & e & Ho & Hc & Hm & Se).
  pose proof W as W'. apply wf_heap_iff in W'.
  pose proof (reset_classes _ _ _ Ho) as K0.
  pose proof (reset_wf _ _ _ W' Ho) as W0. apply wf_heap_iff in W0.
  destruct n as [|n1]; [lia|].
  destruct (parse_operator host n1 c (VFun k) s _ e W0 (shape_classes _ _ _ _ K0 Se))
    as (fr & h1 & Hq & Hr).
  set (res := match s with
              | String d s' => if Ascii.eqb c d then [(VFun k, VStr s')] else []
              | "" => []
              end) in *.
  set (out := fun d : value * value =>
         match snd d with
         | VStr (String d0 s2) => chain_result g c (g x (VStr (String d0 ""))) s2
         | _ => []
         end).
  assert (Hstep : forall v s0 h0, well_formed h0 -> units_there h0 -> In (v, s0) res ->
            exists next h2 r h3,
              parserifyCb host (S (S (S n1))) (CChainOp it op x) v s0 h0 = Ok next h2 /\
              parse host (S (S (S n1))) next s0 h2 = Ok r h3 /\
              results h3 !! r = Some (out (v, s0))).
  { intros v s0 h0 W1 Hu0 Hin.
    assert (exists c0 s1, s = String c0 s1 /\ v = VFun k /\ s0 = VStr s1)
      as (c0 & s1 & E & -> & ->).
    { unfold res in Hin. destruct s as [|c0 s1]; [destruct Hin|].
      destruct (Ascii.eqb c c0); [|destruct Hin].
      destruct Hin as [[= <- <-]|[]]. eauto. }
    destruct (chain_op_unit (S (S (S n1))) x (VFun k) (VStr s1) h0 Hu0)
      as (next & h2 & Hcb & B2 & S2); [lia|].
    pose proof (built_wf _ _ B2 W1) as W2. apply wf_heap_iff in W2.
    assert (Hu2 : units_there h2).
    { eapply units_there_stable; [exact Hu0|]. now apply built_classes. }
    assert (Hrec' : forall d s2 h4 l4, s1 = String d s2 ->
              wf_heap h4 = true -> units_there h4 ->
              has_shape h4 (rest_shape (g x (VStr (String d "")))) l4 ->
              exists r h', parse host (S (S n1)) l4 (VStr s2) h4 = Ok r h' /\
                results h' !! r = Some (chain_result g c (g x (VStr (String d ""))) s2)).
    { intros d s2 h4 l4 E4. apply Hrec. exists c0. now rewrite E, E4. }
    destruct (parse_chain_next (S n1) x s1 h2 next Hrec' Hn W2 Hu2 S2)
      as (r & h3 & Hp & Hr3).
    exists next, h2, r, h3. split; [exact Hcb|]. split; [exact Hp|]. rewrite Hr3.
    unfold out. simpl. now destruct s1. }
  destruct (parse_binded_exists host (S (S (S n1))) _ out units_there (fun d => In d res)
              units_there_stable Hstep l o e (VStr s) h fr h1 res W Hu Ho Hc Hq Hr)
    as (r & h' & Hq' & Hr').
  { apply List.Forall_forall. auto. }
  exists r, h'. split; [exact Hq'|]. rewrite Hr', Hm. unfold res, out.
  destruct s as [|c0 s1]; [reflexivity|].
  destruct (Ascii.eqb c c0); [|now destruct s1]. simpl. rewrite app_nil_r. now destruct s1.
Qed.

(** The unit [rest(x)]. *)
Lemma parse_chain_rest m : forall s x n h l,
  String.length s <= m -> 2 * String.length s + 8 <= n ->
  wf_heap h = true -> units_there h -> has_shape h (rest_shape x) l ->
  exists r h',
    parse host n l (VStr s) h = Ok r h' /\ results h' !! r = Some (chain_result g c x s).
Proof.
  induction m as [|m IH]; intros s x n h l Hm Hn W Hu Hs.
  - destruct s as [|c0 s]; [|simpl in Hm; lia]. simpl in Hn.
    destruct n as [|[|[|[|n]]]]; try lia.
    rewrite chain_result_step.
    apply (parse_added_invariant host (S (S (S n))) (VStr "") units_there (op_shape x)
             (SLeaf (ResultParser x)) [] _ l h units_there_stable); auto.
    + intros h0 l0 W0 Hu0 S0.
      apply (parse_chain_op n x "" h0 l0); auto; [|lia].
      intros d s2 h1 l1 [c1 [=]].
    + intros h0 l0 W0 _ (_ & o0 & Ho0 & Hc0 & Hm0).
      apply (parse_result_unit host (S (S n)) l0 o0 x (VStr "") h0 Ho0 Hc0 Hm0).
  - destruct n as [|[|[|[|n]]]]; try lia.
    rewrite chain_result_step.
    apply (parse_added_invariant host (S (S (S n))) (VStr s) units_there (op_shape x)
             (SLeaf (ResultParser x))
             match s with
             | String c0 (String d s2) =>
                 if Ascii.eqb c c0 then chain_result g c (g x (VStr (String d ""))) s2 else []
             | _ => []
             end
             [(match x with VUndef => VStr s | _ => x end, VStr s)]
             l h units_there_stable); auto.
    + intros h0 l0 W0 Hu0 S0.
      apply (parse_chain_op n x s h0 l0); auto; [|lia].
      intros d s2 h1 l1 [c1 E] W1 Hu1 S1. subst s. simpl in Hm, Hn.
      apply (IH s2 _ (S n) h1 l1); auto; lia.
    + intros h0 l0 W0 _ (_ & o0 & Ho0 & Hc0 & Hm0).
      apply (parse_result_unit host (S (S n)) l0 o0 x (VStr s) h0 Ho0 Hc0 Hm0).
Qed.

(** The unit of [chain]. *)
Lemma parse_chain s n h l :
  2 * String.length s + 8 <= n ->
  wf_heap h = true -> units_there h ->
  has_shape h (SBinded (SLeaf ItemParser) (CChainRest it op) false) l ->
  exists r h',
    parse host n l (VStr s) h = Ok r h' /\
    results h' !! r = Some match s with
                           | String a s' => chain_result g c (VStr (String a "")) s'
                           | "" => []
                           end.
Proof.
  intros Hn W Hu (o & p & Ho & Hc & Hm & Sp).
  destruct n as [|[|n]]; try lia.
  pose proof (shape_classes _ _ _ _ (reset_classes _ _ _ Ho) Sp) as (_ & op0 & Hop & Hcp & Hmp).
  destruct (parse_item_any_string host n p op0 s _ Hop Hcp Hmp) as (fr & h1 & Hq & Hr).
  set (res := match s with
              | String d s2 => [(VStr (String d ""), VStr s2)]
              | "" => []
              end) in *.
  set (out := fun d : value * value =>
         match d with
         | (VStr (String d0 ""), VStr s2) => chain_result g c (VStr (String d0 "")) s2
         | _ => []
         end).
  assert (Hstep : forall v s0 h0, well_formed h0 -> units_there h0 -> In (v, s0) res ->
            exists next h2 r h3,
              parserifyCb host (S n) (CChainRest it op) v s0 h0 = Ok next h2 /\
              parse host (S n) next s0 h2 = Ok r h3 /\
              results h3 !! r = Some (out (v, s0))).
  { intros v s0 h0 W0 Hu0 Hin.
    assert (exists d s2, s = String d s2 /\ v = VStr (String d "") /\ s0 = VStr s2)
      as (d & s2 & E & -> & ->).
    { unfold res in Hin. destruct s as [|d s2]; [destruct Hin|].
      destruct Hin as [[= <- <-]|[]]. eauto. }
    destruct (chain_rest_unit (S n) (VStr (String d "")) (VStr s2) h0 Hu0)
      as (next & h2 & Hcb & B2 & S2); [lia|].
    pose proof (built_wf _ _ B2 W0) as W2. apply wf_heap_iff in W2.
    destruct (parse_chain_rest (String.length s2) s2 (VStr (String d "")) (S n) h2 next)
      as (r & h3 & Hp & Hr3); auto.
    - subst s. simpl in Hn. lia.
    - eapply units_there_stable; [exact Hu0|]. now apply built_classes.
    - exists next, h2, r, h3. auto. }
  destruct (parse_binded_exists host (S n) _ out units_there (fun d => In d res)
              units_there_stable Hstep l o p (VStr s) h fr h1 res W Hu Ho Hc Hq Hr)
    as (r & h' & Hq' & Hr').
  { apply List.Forall_forall. auto. }
  exists r, h'. split; [exact Hq'|]. rewrite Hr', Hm. unfold res, out.
  destruct s as [|d s2]; [reflexivity|]. simpl. now rewrite app_nil_r.
Qed.
End Chain.

(** X17. [chain] applies the operator from the left.  Take
    [item().chain(op)], with [op] the unit [item().equals(c).then(() =>
    f)] of an operator character [c] and a function [f] of two
    arguments.  Built in any well-formed store and parsed, to a depth
    linear in the length of the input, on a string that starts with a
    character [a], it yields one derivation: the operands that follow
    [a], each one character after an operator character, are applied
    to the value so far with [f], from the left, and the rest of the
    string is what is left where no operator with an operand follows.
    On the empty string it yields nothing. *)
Theorem chain_applies_from_left host (k : nat) (g : value -> value -> value) (c : ascii)
    (s : string) (n : nat) (h0 : heap) :
  (forall x y, host k x y = inr (g x y)) ->
  wf_heap h0 = true -> 2 * String.length s + 8 <= n ->
  exists r h',
    chain_of_items host k c n s h0 = Ok r h' /\
    results h' !! r = Some match s with
                           | String a s' => chain_result g c (VStr (String a "")) s'
                           | "" => []
                           end.
Proof.
  intros Hg W Hn. unfold chain_of_items.
  rewrite (bind_run _ _ _ _ _ (Parser_new_run ItemParser h0)).
  set (it := length (objs h0)).
  set (ha := Heap (objs h0 ++ [PObj ItemParser (length (results h0)) None])
                  (results h0 ++ [[]])).
  assert (Ba : built h0 ha) by (eapply Parser_item_built; reflexivity).
  assert (Hit : has_shape ha (SLeaf ItemParser) it).
  { simpl. split; [reflexivity|]. eexists. split; [apply lookup_snoc|auto]. }
  rewrite (bind_run _ _ _ _ _ (Parser_new_run ItemParser ha)).
  set (hb := Heap (objs ha ++ [PObj ItemParser (length (results ha)) None])
                  (results ha ++ [[]])).
  assert (Bb : built ha hb) by (eapply Parser_item_built; reflexivity).
  assert (Htk : has_shape hb (SLeaf ItemParser) (length (objs ha))).
  { simpl. split; [reflexivity|]. eexists. split; [apply lookup_snoc|auto]. }
  destruct (then_shape 2 _ _ (CSatisfy (strict_eq (VStr (String c "")))) false hb Htk)
    as (e & h1 & He & B1 & S1 & _); [simpl; lia|].
  change (equals 2 (length (objs ha)) (VStr (String c "")) hb = Ok e h1) in He.
  rewrite (bind_run _ _ _ _ _ He).
  destruct (then_shape 3 e _ (CConst (RValue (VFun k))) false h1 S1)
    as (op & h2 & Hop & B2 & S2 & _); [simpl; lia|].
  rewrite (bind_run _ _ _ _ _ Hop).
  assert (Hit2 : has_shape h2 (SLeaf ItemParser) it).
  { eapply shape_built; [exact B2|]. eapply shape_built; [exact B1|].
    eapply shape_built; eauto. }
  destruct (then_shape 1 it _ (CChainRest it op) false h2 Hit2)
    as (u & h3 & Hu & B3 & S3 & _); [simpl; lia|].
  assert (Hch : chain 1 it op (RValue VUndef) h2 = Ok u h3).
  { unfold chain. rewrite (bind_run _ _ _ _ _ Hu). reflexivity. }
  rewrite (bind_run _ _ _ _ _ Hch).
  apply (parse_chain host k g Hg it op c s n h3 u Hn).
  - eapply built_wf_heap; [exact B3|]. eapply built_wf_heap; [exact B2|].
    eapply built_wf_heap; [exact B1|]. eapply built_wf_heap; [exact Bb|].
    eapply built_wf_heap; eauto.
  - split; eapply shape_built; eauto.
  - exact S3.
Qed.

(** An instance: ['a+b+c'] with a function that pairs its arguments. *)
Lemma chain_applies_from_left_witness :
  exists r h',
    chain_of_items host_pair 0 "+" 18 "a+b+c" empty_heap = Ok r h' /\
    results h' !! r = Some [(VArr [VArr [VStr "a"; VStr "b"]; VStr "c"], VStr "")].
Proof.
  apply (chain_applies_from_left host_pair 0 (fun x y => VArr [x; y]) "+" "a+b+c" 18
           empty_heap).
  - reflexivity.
  - reflexivity.
  - simpl. lia.
Defined.

(** ** [chainRight] applies the operator from the right *)

Lemma chainRight_result_step g c x s :
  chainRight_result g c x s =
    let ds := match s with
              | String c0 (String d s2) =>
                  if Ascii.eqb c c0
                  then flat_map (chainRight_next g x)
                         (chainRight_result g c (VStr (String d "")) s2)
                  else []
              | _ => []
              end in
    match ds with
    | [] => [(match x with VUndef => VStr s | _ => x end, VStr s)]
    | _ => ds
    end.
Proof.
  unfold chainRight_result. destruct s as [|c0 [|d s2]]; try reflexivity.
  cbn [chainRight_rest]. destruct (Ascii.eqb c c0); [|reflexivity].
  now destruct (chainRight_rest g c (VStr (String d "")) s2).
Qed.

Section ChainRight.
Variable host : nat -> value -> value -> failure + value.
Variable k : nat.
Variable g : value -> value -> value.
Hypothesis host_g : forall x y, host k x y = inr (g x y).
(** The operand unit, the operator unit and the operator character. *)
Variable it op : loc.
Variable c : ascii.

#[local] Abbreviation units_there :=
  (fun h => has_shape h (SLeaf ItemParser) it /\ has_shape h (operator_shape c (VFun k)) op).
#[local] Abbreviation rest_shape x := (chainRight_rest_shape it op c (VFun k) x).
#[local] Abbreviation op_shape x :=
  (SBinded (operator_shape c (VFun k)) (CChainRightOp it op x) false).
#[local] Abbreviation inner_shape :=
  (SBinded (SLeaf ItemParser) (CChainRightRest it op) false).
#[local] Abbreviation next_shape x :=
  (SBinded inner_shape (CChainRightNext (VFun k) x) false).
(** [parse] of the unit [rest(d)] on what follows the operand [d]. *)
#[local] Abbreviation rest_parses n s1 :=
  (forall d s2 h0 l0, s1 = String d s2 ->
     wf_heap h0 = true -> units_there h0 ->
     has_shape h0 (rest_shape (VStr (String d ""))) l0 ->
     exists r h', parse host n l0 (VStr s2) h0 = Ok r h' /\
       results h' !! r = Some (chainRight_result g c (VStr (String d "")) s2)).

Lemma right_units_stable h h' : units_there h -> keeps_classes h h' -> units_there h'.
Proof. intros [H1 H2] K. split; eapply shape_classes; eauto. Qed.

Lemma right_rest_unit n x input h :
  units_there h -> 5 <= n ->
  exists next h1,
    parserifyCb host n (CChainRightRest it op) x input h = Ok next h1 /\
    built h h1 /\ has_shape h1 (rest_shape x) next.
Proof.
  intros [Hit Hop] Hn.
  destruct (then_shape n op _ (CChainRightOp it op x) false h Hop)
    as (t & h1 & Ht & B1 & S1 & _); [simpl; lia|].
  destruct (or_value_shape n t _ x h1 S1) as (o & h2 & Ho & B2 & S2 & _); [simpl; lia|lia|].
  assert (Hd : depth (rest_shape x) <= n) by (simpl; lia).
  destruct (copy_shape _ n Hd o h2 S2) as (next & h3 & Hc & B3 & S3 & _).
  exists next, h3. split; [|split; [eauto using built_trans|exact S3]].
  assert (Ha : apply_cb host n (CChainRightRest it op) x input h = Ok (RParser o) h2).
  { unfold apply_cb. rewrite (bind_run _ _ _ _ _ Ht), (bind_run _ _ _ _ _ Ho). reflexivity. }
  unfold parserifyCb. rewrite (bind_run _ _ _ _ _ Ha). exact Hc.
Qed.

Lemma right_op_unit n x v input h :
  units_there h -> 3 <= n ->
  exists next h1,
    parserifyCb host n (CChainRightOp it op x) v input h = Ok next h1 /\
    built h h1 /\
    has_shape h1 (SBinded inner_shape (CChainRightNext v x) false) next.
Proof.
  intros [Hit Hop] Hn.
  destruct (then_shape n it _ (CChainRightRest it op) false h Hit)
    as (u & h1 & Hu & B1 & S1 & _); [simpl; lia|].
  assert (Hch : chainRight n it op (RValue VUndef) h = Ok u h1).
  { unfold chainRight. rewrite (bind_run _ _ _ _ _ Hu). reflexivity. }
  destruct (then_shape n u _ (CChainRightNext v x) false h1 S1)
    as (t & h2 & Ht & B2 & S2 & _); [simpl; lia|].
  assert (Hd : depth (SBinded inner_shape (CChainRightNext v x) false) <= n)
    by (simpl; lia).
  destruct (copy_shape _ n Hd t h2 S2) as (next & h3 & Hc & B3 & S3 & _).
  exists next, h3. split; [|split; [eauto using built_trans|exact S3]].
  assert (Ha : apply_cb host n (CChainRightOp it op x) v input h = Ok (RParser t) h2).
  { unfold apply_cb. rewrite (bind_run _ _ _ _ _ Hch), (bind_run _ _ _ _ _ Ht). reflexivity. }
  unfold parserifyCb. rewrite (bind_run _ _ _ _ _ Ha). exact Hc.
Qed.

Lemma right_next_unit n x y input h :
  exists next h1 o,
    parserifyCb host (S n) (CChainRightNext (VFun k) x) y input h = Ok next h1 /\
    built h h1 /\
    objs h1 !! next = Some o /\ cls o = ResultParser (g x y) /\ mapValues o = None.
Proof.
  assert (Ha : apply_cb host (S n) (CChainRightNext (VFun k) x) y input h
               = Ok (RValue (g x y)) h).
  { unfold apply_cb, call. rewrite host_g. reflexivity. }
  destruct (parserifyCb_value host n _ _ _ _ _ _ Ha) as (next & h1 & o & Hp & Ho & Hc & Hm).
  exists next, h1, o. split; [exact Hp|]. split; [|auto].
  now apply parserifyCb_built in Hp as [B _].
Qed.

(** The unit [this.chainRight(operation)], on what follows an
    operator. *)
Lemma parse_right_inner n s1 h l :
  rest_parses (S n) s1 -> 4 <= n ->
  wf_heap h = true -> units_there h -> has_shape h inner_shape l ->
  exists r h',
    parse host (S (S n)) l (VStr s1) h = Ok r h' /\
    results h' !! r = Some match s1 with
                           | String d s2 => chainRight_result g c (VStr (String d "")) s2
                           | "" => []
                           end.
Proof.
  intros Hrec Hn W Hu (o & p & Ho & Hc & Hm & Sp).
  pose proof (shape_classes _ _ _ _ (reset_classes _ _ _ Ho) Sp) as (_ & op0 & Hop & Hcp & Hmp).
  destruct (parse_item_any_string host n p op0 s1 _ Hop Hcp Hmp) as (fr & h1 & Hq & Hr).
  set (res := match s1 with
              | String d s2 => [(VStr (String d ""), VStr s2)]
              | "" => []
              end) in *.
  set (out := fun d : value * value =>
         match d with
         | (VStr (String d0 ""), VStr s2) => chainRight_result g c (VStr (String d0 "")) s2
         | _ => []
         end).
  assert (Hstep : forall v s0 h0, well_formed h0 -> units_there h0 -> In (v, s0) res ->
            exists next h2 r h3,
              parserifyCb host (S n) (CChainRightRest it op) v s0 h0 = Ok next h2 /\
              parse host (S n) next s0 h2 = Ok r h3 /\
              results h3 !! r = Some (out (v, s0))).
  { intros v s0 h0 W0 Hu0 Hin.
    assert (exists d s2, s1 = String d s2 /\ v = VStr (String d "") /\ s0 = VStr s2)
      as (d & s2 & E & -> & ->).
    { unfold res in Hin. destruct s1 as [|d s2]; [destruct Hin|].
      destruct Hin as [[= <- <-]|[]]. eauto. }
    destruct (right_rest_unit (S n) (VStr (String d "")) (VStr s2) h0 Hu0)
      as (next & h2 & Hcb & B2 & S2); [lia|].
    pose proof (built_wf _ _ B2 W0) as W2. apply wf_heap_iff in W2.
    destruct (Hrec d s2 h2 next E W2 (right_units_stable _ _ Hu0 (built_classes _ _ B2)) S2)
      as (r & h3 & Hp & Hr3).
    exists next, h2, r, h3. auto. }
  destruct (parse_binded_exists host (S n) _ out units_there (fun d => In d res)
              right_units_stable Hstep l o p (VStr s1) h fr h1 res W Hu Ho Hc Hq Hr)
    as (r & h' & Hq' & Hr').
  { apply List.Forall_forall. auto. }
  exists r, h'. split; [exact Hq'|]. rewrite Hr', Hm. unfold res, out.
  destruct s1 as [|d s2]; [reflexivity|]. simpl. now rewrite app_nil_r.
Qed.

(** The unit [this.chainRight(operation).then((y) => f(x, y))]. *)
Lemma parse_right_next n x s1 h l :
  rest_parses (S n) s1 -> 4 <= n ->
  wf_heap h = true -> units_there h -> has_shape h (next_shape x) l ->
  exists r h',
    parse host (S (S (S n))) l (VStr s1) h = Ok r h' /\
    results h' !! r =
      Some match s1 with
           | String d s2 =>
               flat_map (chainRight_next g x) (chainRight_result g c (VStr (String d "")) s2)
           | "" => []
           end.
Proof.
  intros Hrec Hn W Hu (o & p & Ho & Hc & Hm & Sp).
  pose proof W as W'. apply wf_heap_iff in W'.
  pose proof (reset_classes _ _ _ Ho) as K0.
  pose proof (reset_wf _ _ _ W' Ho) as W0. apply wf_heap_iff in W0.
  destruct (parse_right_inner n s1 _ p Hrec Hn W0 (right_units_stable _ _ Hu K0)
              (shape_classes _ _ _ _ K0 Sp)) as (fr & h1 & Hq & Hr).
  set (res := match s1 with
              | String d s2 => chainRight_result g c (VStr (String d "")) s2
              | "" => []
              end) in *.
  assert (Hstep : forall v s0 h0, well_formed h0 -> units_there h0 -> True ->
            exists next h2 r h3,
              parserifyCb host (S (S n)) (CChainRightNext (VFun k) x) v s0 h0 = Ok next h2 /\
              parse host (S (S n)) next s0 h2 = Ok r h3 /\
              results h3 !! r = Some (chainRight_next g x (v, s0))).
  { intros v s0 h0 W1 Hu0 _.
    destruct (right_next_unit (S n) x v s0 h0) as (next & h2 & o2 & Hcb & B2 & Ho2 & Hc2 & Hm2).
    destruct (parse_result_unit host (S n) next o2 (g x v) s0 h2 Ho2 Hc2 Hm2)
      as (r & h3 & Hp & Hr3).
    exists next, h2, r, h3. auto. }
  destruct (parse_binded_exists host (S (S n)) _ (chainRight_next g x) units_there
              (fun _ => True) right_units_stable Hstep l o p (VStr s1) h fr h1 res
              W Hu Ho Hc Hq Hr)
    as (r & h' & Hq' & Hr').
  { apply List.Forall_forall. auto. }
  exists r, h'. split; [exact Hq'|]. rewrite Hr', Hm. unfold res.
  now destruct s1.
Qed.

(** The unit [operation.then((f) => ...)]. *)
Lemma parse_right_op n x s h l :
  (forall c0 s1, s = String c0 s1 -> rest_parses (S n) s1) -> 4 <= n ->
  wf_heap h = true -> units_there h -> has_shape h (op_shape x) l ->
  exists r h',
    parse host (S (S (S (S n)))) l (VStr s) h = Ok r h' /\
    results h' !! r =
      Some match s with
           | String c0 (String d s2) =>
               if Ascii.eqb c c0
               then flat_map (chainRight_next g x)
                      (chainRight_result g c (VStr (String d "")) s2)
               else []
           | _ => []
           end.
Proof.
  intros Hrec Hn W Hu (o & e & Ho & Hc & Hm & Se).
  pose proof W as W'. apply wf_heap_iff in W'.
  pose proof (reset_classes _ _ _ Ho) as K0.
  pose proof (reset_wf _ _ _ W' Ho) as W0. apply wf_heap_iff in W0.
  destruct (parse_operator host n c (VFun k) s _ e W0 (shape_classes _ _ _ _ K0 Se))
    as (fr & h1 & Hq & Hr).
  set (res := match s with
              | String d s' => if Ascii.eqb c d then [(VFun k, VStr s')] else []
              | "" => []
              end) in *.
  set (out := fun d : value * value =>
         match snd d with
         | VStr (String d0 s2) =>
             flat_map (chainRight_next g x) (chainRight_result g c (VStr (String d0 "")) s2)
         | _ => []
         end).
  assert (Hstep : forall v s0 h0, well_formed h0 -> units_there h0 -> In (v, s0) res ->
            exists next h2 r h3,
              parserifyCb host (S (S (S n))) (CChainRightOp it op x) v s0 h0 = Ok next h2 /\
              parse host (S (S (S n))) next s0 h2 = Ok r h3 /\
              results h3 !! r = Some (out (v, s0))).
  { intros v s0 h0 W1 Hu0 Hin.
    assert (exists c0 s1, s = String c0 s1 /\ v = VFun k /\ s0 = VStr s1)
      as (c0 & s1 & E & -> & ->).
    { unfold res in Hin. destruct s as [|c0 s1]; [destruct Hin|].
      destruct (Ascii.eqb c c0); [|destruct Hin].
      destruct Hin as [[= <- <-]|[]]. eauto. }
    destruct (right_op_unit (S (S (S n))) x (VFun k) (VStr s1) h0 Hu0)
      as (next & h2 & Hcb & B2 & S2); [lia|].
    pose proof (built_wf _ _ B2 W1) as W2. apply wf_heap_iff in W2.
    assert (Hu2 : units_there h2).
    { eapply right_units_stable; [exact Hu0|]. now apply built_classes. }
    destruct (parse_right_next n x s1 h2 next (Hrec c0 s1 E) Hn W2 Hu2 S2)
      as (r & h3 & Hp & Hr3).
    exists next, h2, r, h3. split; [exact Hcb|]. split; [exact Hp|]. rewrite Hr3.
    unfold out. simpl. now destruct s1. }
  destruct (parse_binded_exists host (S (S (S n))) _ out units_there (fun d => In d res)
              right_units_stable Hstep l o e (VStr s) h fr h1 res W Hu Ho Hc Hq Hr)
    as (r & h' & Hq' & Hr').
  { apply List.Forall_forall. auto. }
  exists r, h'. split; [exact Hq'|]. rewrite Hr', Hm. unfold res, out.
  destruct s as [|c0 s1]; [reflexivity|].
  destruct (Ascii.eqb c c0); [|now destruct s1]. simpl. rewrite app_nil_r. now destruct s1.
Qed.

(** The unit [rest(x)]. *)
Lemma parse_right_rest m : forall s x n h l,
  String.length s < m -> 2 * String.length s + 9 <= n ->
  wf_heap h = true -> units_there h -> has_shape h (rest_shape x) l ->
  exists r h',
    parse host n l (VStr s) h = Ok r h' /\
    results h' !! r = Some (chainRight_result g c x s).
Proof.
  induction m as [|m IH]; intros s x n h l Hm Hn W Hu Hs; [lia|].
  destruct n as [|[|[|[|[|n]]]]]; try lia.
  rewrite chainRight_result_step.
  apply (parse_added_invariant host (S (S (S (S n)))) (VStr s) units_there (op_shape x)
           (SLeaf (ResultParser x))
           match s with
           | String c0 (String d s2) =>
               if Ascii.eqb c c0
               then flat_map (chainRight_next g x)
                      (chainRight_result g c (VStr (String d "")) s2)
               else []
           | _ => []
           end
           [(match x with VUndef => VStr s | _ => x end, VStr s)]
           l h right_units_stable); auto.
  - intros h0 l0 W0 Hu0 S0.
    apply (parse_right_op n x s h0 l0); auto; [|lia].
    intros c0 s1 E d s2 h1 l1 E1 W1 Hu1 S1. subst s s1. simpl in Hm, Hn.
    apply (IH s2 _ (S n) h1 l1); auto; lia.
  - intros h0 l0 W0 _ (_ & o0 & Ho0 & Hc0 & Hm0).
    apply (parse_result_unit host (S (S (S n))) l0 o0 x (VStr s) h0 Ho0 Hc0 Hm0).
Qed.

(** The unit of [chainRight]. *)
Lemma parse_chainRight s n h l :
  2 * String.length s + 8 <= n ->
  wf_heap h = true -> units_there h -> has_shape h inner_shape l ->
  exists r h',
    parse host n l (VStr s) h = Ok r h' /\
    results h' !! r = Some match s with
                           | String a s' => chainRight_result g c (VStr (String a "")) s'
                           | "" => []
                           end.
Proof.
  intros Hn W Hu Hs.
  destruct n as [|[|n]]; try lia.
  apply parse_right_inner; auto; [|lia].
  intros d s2 h0 l0 E W0 Hu0 S0. subst s. simpl in Hn.
  apply (parse_right_rest (S (String.length s2)) s2 _ (S n) h0 l0); auto; lia.
Qed.
End ChainRight.

(** X18. [chainRight] applies the operator from the right.  Take
    [item().chainRight(op)], with [op] the unit
    [item().equals(c).then(() => f)] of an operator character [c] and a
    function [f] of two arguments.  Built in any well-formed store and
    parsed, to a depth linear in the length of the input, on a string
    that starts with a character [a], it yields one derivation: [f] is
    applied to [a] and the value of the chain that follows the first
    operator, and so on to the right; the rest of the string is what is
    left where no operator with an operand follows.  On the empty
    string it yields nothing. *)
Theorem chainRight_applies_from_right host (k : nat) (g : value -> value -> value)
    (c : ascii) (s : string) (n : nat) (h0 : heap) :
  (forall x y, host k x y = inr (g x y)) ->
  wf_heap h0 = true -> 2 * String.length s + 8 <= n ->
  exists r h',
    chainRight_of_items host k c n s h0 = Ok r h' /\
    results h' !! r = Some match s with
                           | String a s' => chainRight_result g c (VStr (String a "")) s'
                           | "" => []
                           end.
Proof.
  intros Hg W Hn. unfold chainRight_of_items.
  rewrite (bind_run _ _ _ _ _ (Parser_new_run ItemParser h0)).
  set (it := length (objs h0)).
  set (ha := Heap (objs h0 ++ [PObj ItemParser (length (results h0)) None])
                  (results h0 ++ [[]])).
  assert (Ba : built h0 ha) by (eapply Parser_item_built; reflexivity).
  assert (Hit : has_shape ha (SLeaf ItemParser) it).
  { simpl. split; [reflexivity|]. eexists. split; [apply lookup_snoc|auto]. }
  rewrite (bind_run _ _ _ _ _ (Parser_new_run ItemParser ha)).
  set (hb := Heap (objs ha ++ [PObj ItemParser (length (results ha)) None])
                  (results ha ++ [[]])).
  assert (Bb : built ha hb) by (eapply Parser_item_built; reflexivity).
  assert (Htk : has_shape hb (SLeaf ItemParser) (length (objs ha))).
  { simpl. split; [reflexivity|]. eexists. split; [apply lookup_snoc|auto]. }
  destruct (then_shape 2 _ _ (CSatisfy (strict_eq (VStr (String c "")))) false hb Htk)
    as (e & h1 & He & B1 & S1 & _); [simpl; lia|].
  change (equals 2 (length (objs ha)) (VStr (String c "")) hb = Ok e h1) in He.
  rewrite (bind_run _ _ _ _ _ He).
  destruct (then_shape 3 e _ (CConst (RValue (VFun k))) false h1 S1)
    as (op & h2 & Hop & B2 & S2 & _); [simpl; lia|].
  rewrite (bind_run _ _ _ _ _ Hop).
  assert (Hit2 : has_shape h2 (SLeaf ItemParser) it).
  { eapply shape_built; [exact B2|]. eapply shape_built; [exact B1|].
    eapply shape_built; eauto. }
  destruct (then_shape 1 it _ (CChainRightRest it op) false h2 Hit2)
    as (u & h3 & Hu & B3 & S3 & _); [simpl; lia|].
  assert (Hch : chainRight 1 it op (RValue VUndef) h2 = Ok u h3).
  { unfold chainRight. rewrite (bind_run _ _ _ _ _ Hu). reflexivity. }
  rewrite (bind_run _ _ _ _ _ Hch).
  apply (parse_chainRight host k g Hg it op c s n h3 u Hn).
  - eapply built_wf_heap; [exact B3|]. eapply built_wf_heap; [exact B2|].
    eapply built_wf_heap; [exact B1|]. eapply built_wf_heap; [exact Bb|].
    eapply built_wf_heap; eauto.
  - split; eapply shape_built; eauto.
  - exact S3.
Qed.

(** An instance: ['a+b+c'] with a function that pairs its arguments. *)
Lemma chainRight_applies_from_right_witness :
  exists r h',
    chainRight_of_items host_pair 0 "+" 18 "a+b+c" empty_heap = Ok r h' /\
    results h' !! r = Some [(VArr [VStr "a"; VArr [VStr "b"; VStr "c"]], VStr "")].
Proof.
  apply (chainRight_applies_from_right host_pair 0 (fun x y => VArr [x; y]) "+" "a+b+c" 18
           empty_heap).
  - reflexivity.
  - reflexivity.
  - simpl. lia.
Defined.
